(** * atlimiter: a lock-free token-bucket rate limiter

    A shallow embedding of [atlimiter.go] and the properties of its
    token accounting.

    - [Float64] models the [float64] arithmetic of the source with the
      IEEE 754 binary64 operations of [SpecFloat] (53 bits of precision,
      round to nearest even).
    - The methods of [ATLimiter] are programs over the atomic actions of
      [sync/atomic] and the clock ([prog]); every access to a field
      records whether the source goes through [sync/atomic] or reads the
      field directly.
    - [run] executes one call alone (sequential semantics) and [events]
      lists what it does to the fields; [step] interleaves the atomic
      actions of several calls. *)

From Stdlib Require Import ZArith List Bool Lia.
From Stdlib Require Import Floats.SpecFloat.
Import ListNotations.

Local Open Scope Z_scope.

(** ** Machine integers *)

(** [uint64] arithmetic wraps modulo [2^64]. *)
Definition u64 (z : Z) : Z := z mod 2 ^ 64.

(** [int64] arithmetic wraps into [[-2^63, 2^63)]. *)
Definition i64 (z : Z) : Z := (z + 2 ^ 63) mod 2 ^ 64 - 2 ^ 63.

Definition is_u64 (z : Z) : Prop := 0 <= z < 2 ^ 64.

(** ** float64 *)

Module Float64.

Definition t : Type := spec_float.

Definition prec : Z := 53.
Definition emax : Z := 1024.

(** [float64(z)] for an integer [z]: the nearest binary64, ties to even. *)
Definition of_int (z : Z) : t := binary_normalize prec emax z 0 false.

Definition mul : t -> t -> t := SFmul prec emax.
Definition div : t -> t -> t := SFdiv prec emax.
Definition ltb : t -> t -> bool := SFltb.

Definition zero : t := S754_zero false.
(** The constants [1.0] and [1e9] of the source. *)
Definition one : t := of_int 1.
Definition e9 : t := of_int 1000000000.

(** The capacity factors of the test suite: [2.0], [1.5] and [0.2] (the
    binary64 nearest to one fifth). *)
Definition two : t := of_int 2.
Definition one_and_half : t := S754_finite false 6755399441055744 (-52).
Definition one_fifth : t := S754_finite false 7205759403792794 (-55).

(** A float that stands for a real number: neither an infinity nor a
    NaN. *)
Definition is_real (f : t) : bool :=
  match f with
  | S754_zero _ | S754_finite _ _ _ => true
  | S754_infinity _ | S754_nan => false
  end.

(** The integer part of a float, towards zero; [None] for an infinity or
    a NaN. *)
Definition trunc (f : t) : option Z :=
  match f with
  | S754_zero _ => Some 0
  | S754_finite s m e =>
      Some (cond_Zopp s (if 0 <=? e then Z.pos m * 2 ^ e
                         else Z.pos m / 2 ^ (- e)))
  | S754_infinity _ | S754_nan => None
  end.

Section Conversion.
(** Go leaves the result of converting a float that [uint64] cannot
    represent to the implementation; [oor] is what the implementation
    yields there. *)
Variable oor : t -> Z.

(** [uint64(f)] *)
Definition to_uint64 (f : t) : Z :=
  match trunc f with
  | Some z => if (0 <=? z) && (z <? 2 ^ 64) then z else u64 (oor f)
  | None => u64 (oor f)
  end.
End Conversion.

End Float64.

(** *** Notions used to reason about the rounding of [SpecFloat] *)

(** Rounding to binary64. *)
Definition round53 : bool -> Z -> Z -> location -> spec_float :=
  binary_round_aux 53 1024.

(** A shift record that has lost no bit so far. *)
Definition exact_rec (mrs : shr_record) : Prop :=
  shr_r mrs = false /\ shr_s mrs = false.


(** ** The limiter and its atomic actions *)

Record ATLimiter : Type := {
  maxRPS : Z;       (* uint64 *)
  capacity : Z;     (* uint64 *)
  tokens : Z;       (* atomic.Uint64 *)
  lastRefill : Z    (* atomic.Int64, unix nanoseconds *)
}.

Inductive field : Type := f_maxRPS | f_capacity | f_tokens | f_lastRefill.

(** How the source reaches a field: through [sync/atomic], or directly. *)
Inductive access : Type := Plain | Atomic.

Definition get (f : field) (l : ATLimiter) : Z :=
  match f with
  | f_maxRPS => maxRPS l
  | f_capacity => capacity l
  | f_tokens => tokens l
  | f_lastRefill => lastRefill l
  end.

Definition set (f : field) (v : Z) (l : ATLimiter) : ATLimiter :=
  match f with
  | f_maxRPS =>
      {| maxRPS := v; capacity := capacity l; tokens := tokens l;
         lastRefill := lastRefill l |}
  | f_capacity =>
      {| maxRPS := maxRPS l; capacity := v; tokens := tokens l;
         lastRefill := lastRefill l |}
  | f_tokens =>
      {| maxRPS := maxRPS l; capacity := capacity l; tokens := v;
         lastRefill := lastRefill l |}
  | f_lastRefill =>
      {| maxRPS := maxRPS l; capacity := capacity l; tokens := tokens l;
         lastRefill := v |}
  end.

(** A method body: a tree of actions on the shared limiter.  Each node is
    one indivisible action. *)
Inductive prog (A : Type) : Type :=
| Ret (a : A)
| TimeNow (k : Z -> prog A)                        (* time.Now().UnixNano() *)
| Load (m : access) (f : field) (k : Z -> prog A)
| Store (m : access) (f : field) (v : Z) (k : prog A)
| CompareAndSwap (f : field) (old new : Z) (k : bool -> prog A).

Arguments Ret {A} a.
Arguments TimeNow {A} k.
Arguments Load {A} m f k.
Arguments Store {A} m f v k.
Arguments CompareAndSwap {A} f old new k.

Fixpoint bind {A B : Type} (p : prog A) (q : A -> prog B) : prog B :=
  match p with
  | Ret a => q a
  | TimeNow k => TimeNow (fun t => bind (k t) q)
  | Load m f k => Load m f (fun v => bind (k v) q)
  | Store m f v k => Store m f v (bind k q)
  | CompareAndSwap f old new k =>
      CompareAndSwap f old new (fun b => bind (k b) q)
  end.

Declare Scope prog_scope.
Delimit Scope prog_scope with prog.
Notation "x <- p ;; q" := (bind p (fun x => q))
  (at level 61, p at next level, right associativity) : prog_scope.
Notation "p ;; q" := (bind p (fun _ => q))
  (at level 61, right associativity) : prog_scope.
Local Open Scope prog_scope.

Definition ret {A : Type} (a : A) : prog A := Ret a.
Definition time_now : prog Z := TimeNow Ret.
Definition load (m : access) (f : field) : prog Z := Load m f Ret.
Definition store (m : access) (f : field) (v : Z) : prog unit :=
  Store m f v (Ret tt).
Definition cas (f : field) (old new : Z) : prog bool :=
  CompareAndSwap f old new Ret.

(** ** The source, method by method *)

Section Limiter.

Variable oor : Float64.t -> Z.

(** The capacity both [NewLimiter] and [SetMaxRPS] derive. *)
Definition clampFactor (capacityFactor : Float64.t) : Float64.t :=
  if Float64.ltb capacityFactor Float64.one then Float64.one
  else capacityFactor.

Definition deriveCapacity (maxRPS : Z) (capacityFactor : Float64.t) : Z :=
  Z.max
    (Z.max (Float64.to_uint64 oor (Float64.mul (Float64.of_int maxRPS) capacityFactor)) 1)
    maxRPS.

(** [NewLimiter]; [now] is the clock reading it takes. *)
Definition NewLimiter (now : Z) (maxRPS : Z) (capacityFactor : Float64.t)
  : ATLimiter :=
  let capacityFactor := clampFactor capacityFactor in
  let capacity := deriveCapacity maxRPS capacityFactor in
  {| maxRPS := maxRPS; capacity := capacity;
     tokens := capacity; lastRefill := now |}.

(** [elapsed] of [calculateTokenRefill]: seconds between two clock
    readings. *)
Definition elapsedSeconds (now previousRefill : Z) : Float64.t :=
  Float64.div (Float64.of_int (i64 (now - previousRefill))) Float64.e9.

(** [newTokens] of [calculateTokenRefill]. *)
Definition newTokensFor (maxRPS : Z) (elapsed : Float64.t) : Z :=
  Float64.to_uint64 oor (Float64.mul (Float64.of_int maxRPS) elapsed).

Definition calculateTokenRefill : prog unit :=
  now <- time_now ;;
  previousRefill <- load Atomic f_lastRefill ;;
  let elapsed := elapsedSeconds now previousRefill in
  if Float64.ltb Float64.zero elapsed then
    swapped <- cas f_lastRefill previousRefill now ;;
    if swapped then
      maxRPS <- load Plain f_maxRPS ;;
      let newTokens := newTokensFor maxRPS elapsed in
      if 0 <? newTokens then
        current <- load Atomic f_tokens ;;
        capacity <- load Plain f_capacity ;;
        let newTotal := Z.min (u64 (current + newTokens)) capacity in
        store Atomic f_tokens newTotal
      else ret tt
    else ret tt
  else ret tt.

(** The [for] loops of [Allow] and [TryAllow] retry a failed
    compare-and-swap.  [fuel] bounds the iterations taken; [None] is a
    caller that is still retrying. *)
Fixpoint allowLoop (fuel : nat) : prog (option bool) :=
  match fuel with
  | O => ret None
  | S fuel' =>
      current <- load Atomic f_tokens ;;
      if current =? 0 then ret (Some false)
      else
        swapped <- cas f_tokens current (u64 (current - 1)) ;;
        if swapped then ret (Some true) else allowLoop fuel'
  end.

Definition Allow (fuel : nat) : prog (option bool) :=
  maxRPS <- load Plain f_maxRPS ;;
  if maxRPS =? 0 then ret (Some true)
  else calculateTokenRefill ;; allowLoop fuel.

Fixpoint tryAllowLoop (fuel : nat) (tokensCount : Z) : prog (option bool) :=
  match fuel with
  | O => ret None
  | S fuel' =>
      current <- load Atomic f_tokens ;;
      if current <? tokensCount then ret (Some false)
      else
        swapped <- cas f_tokens current (u64 (current - tokensCount)) ;;
        if swapped then ret (Some true) else tryAllowLoop fuel' tokensCount
  end.

Definition TryAllow (fuel : nat) (tokensCount : Z) : prog (option bool) :=
  maxRPS <- load Plain f_maxRPS ;;
  if maxRPS =? 0 then ret (Some true)
  else if tokensCount =? 0 then ret (Some true)
  else
    capacity <- load Plain f_capacity ;;
    if capacity <? tokensCount then ret (Some false)
    else calculateTokenRefill ;; tryAllowLoop fuel tokensCount.

Definition Available : prog Z :=
  calculateTokenRefill ;; load Atomic f_tokens.

Definition SetMaxRPS (newMaxRPS : Z) (newCapacityFactor : Float64.t)
  : prog unit :=
  let newCapacityFactor := clampFactor newCapacityFactor in
  let newCapacity := deriveCapacity newMaxRPS newCapacityFactor in
  store Atomic f_maxRPS newMaxRPS ;;
  store Atomic f_capacity newCapacity ;;
  current <- load Atomic f_tokens ;;
  if newCapacity <? current then
    cas f_tokens current newCapacity ;; ret tt
  else ret tt.

Definition GetMaxRPS : prog Z := load Atomic f_maxRPS.

Definition GetCapacity : prog Z := load Plain f_capacity.

End Limiter.

(** ** Sequential execution *)

(** One call running alone: [now] is what the clock reads during the call
    (a call reads the clock at most once), and a compare-and-swap sees the
    value the call itself left. *)
Fixpoint run {A : Type} (p : prog A) (now : Z) (l : ATLimiter)
  : A * ATLimiter :=
  match p with
  | Ret a => (a, l)
  | TimeNow k => run (k now) now l
  | Load _ f k => run (k (get f l)) now l
  | Store _ f v k => run k now (set f v l)
  | CompareAndSwap f old new k =>
      if get f l =? old then run (k true) now (set f new l)
      else run (k false) now l
  end.

(** What a call does to the fields, in program order, when it runs
    alone. *)
Inductive event : Type :=
| EvLoad (m : access) (f : field) (v : Z)
| EvStore (m : access) (f : field) (v : Z)
| EvSwap (f : field) (old new : Z) (swapped : bool).

Fixpoint events {A : Type} (p : prog A) (now : Z) (l : ATLimiter)
  : list event :=
  match p with
  | Ret _ => []
  | TimeNow k => events (k now) now l
  | Load m f k => EvLoad m f (get f l) :: events (k (get f l)) now l
  | Store m f v k => EvStore m f v :: events k now (set f v l)
  | CompareAndSwap f old new k =>
      if get f l =? old
      then EvSwap f old new true :: events (k true) now (set f new l)
      else EvSwap f old new false :: events (k false) now l
  end.

(** The field an event touches and how: a compare-and-swap is always an
    operation of [sync/atomic]. *)
Definition event_field (ev : event) : field :=
  match ev with
  | EvLoad _ f _ | EvStore _ f _ | EvSwap f _ _ _ => f
  end.

Definition event_access (ev : event) : access :=
  match ev with
  | EvLoad m _ _ | EvStore m _ _ => m
  | EvSwap _ _ _ _ => Atomic
  end.

(** Calls issued one after the other, each with the clock reading it
    sees. *)
Inductive call : Type :=
| CallAllow
| CallTryAllow (tokensCount : Z)
| CallAvailable.

Inductive reply : Type :=
| Verdict (b : option bool)
| Count (n : Z).

Definition perform (oor : Float64.t -> Z) (fuel : nat) (c : call)
  : prog reply :=
  match c with
  | CallAllow => b <- Allow oor fuel ;; ret (Verdict b)
  | CallTryAllow n => b <- TryAllow oor fuel n ;; ret (Verdict b)
  | CallAvailable => n <- Available oor ;; ret (Count n)
  end.

(** The replies of a sequence of calls, and the limiter after each of
    them. *)
Fixpoint runCalls (oor : Float64.t -> Z) (fuel : nat)
  (calls : list (Z * call)) (l : ATLimiter) : list (reply * ATLimiter) :=
  match calls with
  | [] => []
  | (now, c) :: calls' =>
      let (r, l') := run (perform oor fuel c) now l in
      (r, l') :: runCalls oor fuel calls' l'
  end.

(** [n] calls of [Allow] at the clock readings [nows]. *)
Definition runAllows (oor : Float64.t -> Z) (fuel : nat) (nows : list Z)
  (l : ATLimiter) : list (reply * ATLimiter) :=
  runCalls oor fuel (map (fun now => (now, CallAllow)) nows) l.

Definition finalLimiter (l : ATLimiter) (trace : list (reply * ATLimiter))
  : ATLimiter :=
  last (map snd trace) l.

(** The verdicts of [k] calls of [Allow] on a bucket of [n] tokens that
    is not refilled meanwhile. *)
Fixpoint drain (n k : nat) : list reply :=
  match k with
  | O => []
  | S k' =>
      match n with
      | O => Verdict (Some false) :: drain O k'
      | S n' => Verdict (Some true) :: drain n' k'
      end
  end.

(** ** Derived quantities used in the statements *)

(** The tokens a refill at clock reading [now] computes for [l]: zero when
    no time has elapsed. *)
Definition tokensDue (oor : Float64.t -> Z) (now : Z) (l : ATLimiter) : Z :=
  let elapsed := elapsedSeconds now (lastRefill l) in
  if Float64.ltb Float64.zero elapsed
  then newTokensFor oor (maxRPS l) elapsed
  else 0.

(** The limiter a refill at [now] leaves when it runs alone. *)
Definition refilled (oor : Float64.t -> Z) (now : Z) (l : ATLimiter)
  : ATLimiter :=
  snd (run (calculateTokenRefill oor) now l).

(** [0 <= tokens <= capacity] *)
Definition bounded_tokens (l : ATLimiter) : Prop :=
  0 <= tokens l <= capacity l.

(** A clock that never runs backwards and never advances by [gap]
    nanoseconds or more between two consecutive readings. *)
Fixpoint small_gaps (gap : Z) (previous : Z) (nows : list Z) : Prop :=
  match nows with
  | [] => True
  | now :: nows' =>
      previous <= now < previous + gap /\ small_gaps gap now nows'
  end.

(** ** Interleaved execution *)

(** One atomic action of a call on the shared limiter.  The clock may read
    anything. *)
Inductive act {A : Type} : ATLimiter -> prog A -> ATLimiter -> prog A -> Prop :=
| act_now l k t :
    act l (TimeNow k) l (k t)
| act_load l m f k :
    act l (Load m f k) l (k (get f l))
| act_store l m f v k :
    act l (Store m f v k) (set f v l) k
| act_cas_hit l f old new k :
    get f l = old ->
    act l (CompareAndSwap f old new k) (set f new l) (k true)
| act_cas_miss l f old new k :
    get f l <> old ->
    act l (CompareAndSwap f old new k) l (k false).

(** Any call in flight takes the next step. *)
Inductive step {A : Type}
  : ATLimiter * list (prog A) -> ATLimiter * list (prog A) -> Prop :=
| step_one l l' before p p' after :
    act l p l' p' ->
    step (l, before ++ p :: after) (l', before ++ p' :: after).

Inductive steps {A : Type}
  : ATLimiter * list (prog A) -> ATLimiter * list (prog A) -> Prop :=
| steps_refl c : steps c c
| steps_next c1 c2 c3 : step c1 c2 -> steps c2 c3 -> steps c1 c3.

(** A program that keeps the token count within [[0, c]] on a limiter of
    capacity [c] whatever the other calls do: it never writes [capacity],
    stores only counts within bounds, and its compare-and-swaps replace a
    count within bounds by one within bounds. *)
Fixpoint keeps_bound {A : Type} (c : Z) (p : prog A) : Prop :=
  match p with
  | Ret _ => True
  | TimeNow k => forall t, keeps_bound c (k t)
  | Load _ f k =>
      match f with
      | f_capacity => keeps_bound c (k c)
      | f_tokens => forall v, 0 <= v <= c -> keeps_bound c (k v)
      | _ => forall v, keeps_bound c (k v)
      end
  | Store _ f v k =>
      match f with
      | f_capacity => False
      | f_tokens => 0 <= v <= c /\ keeps_bound c k
      | _ => keeps_bound c k
      end
  | CompareAndSwap f old new k =>
      match f with
      | f_capacity => False
      | f_tokens =>
          (0 <= old <= c -> 0 <= new <= c) /\ forall b, keeps_bound c (k b)
      | _ => forall b, keeps_bound c (k b)
      end
  end.

(** The arguments a caller can pass: [TryAllow] takes a [uint64]. *)
Definition call_ok (c : call) : Prop :=
  match c with
  | CallTryAllow n => is_u64 n
  | _ => True
  end.

(** ** All the methods, and what a call may write *)

(** Every method of [ATLimiter], as a caller issues it. *)
Inductive method : Type :=
| MCall (c : call)
| MSetMaxRPS (newMaxRPS : Z) (newCapacityFactor : Float64.t)
| MGetMaxRPS
| MGetCapacity.

Definition invoke (oor : Float64.t -> Z) (fuel : nat) (m : method)
  : prog (option reply) :=
  match m with
  | MCall c => r <- perform oor fuel c ;; ret (Some r)
  | MSetMaxRPS newMaxRPS newCapacityFactor =>
      SetMaxRPS oor newMaxRPS newCapacityFactor ;; ret None
  | MGetMaxRPS => n <- GetMaxRPS ;; ret (Some (Count n))
  | MGetCapacity => n <- GetCapacity ;; ret (Some (Count n))
  end.

(** The limiter after each of a sequence of method calls, with what the
    call returned. *)
Fixpoint runMethods (oor : Float64.t -> Z) (fuel : nat)
  (ms : list (Z * method)) (l : ATLimiter)
  : list (option reply * ATLimiter) :=
  match ms with
  | [] => []
  | (now, m) :: ms' =>
      let (r, l') := run (invoke oor fuel m) now l in
      (r, l') :: runMethods oor fuel ms' l'
  end.

Definition method_ok (m : method) : Prop :=
  match m with
  | MCall c => call_ok c
  | _ => True
  end.

(** The invariants of the data: the count within the capacity, and the
    capacity at least 1 and at least the rate. *)
Definition consistent (l : ATLimiter) : Prop :=
  0 <= tokens l <= capacity l /\ 1 <= capacity l /\ maxRPS l <= capacity l.

(** A program that never writes the field [f], whatever it reads. *)
Fixpoint never_writes {A : Type} (f : field) (p : prog A) : Prop :=
  match p with
  | Ret _ => True
  | TimeNow k => forall t, never_writes f (k t)
  | Load _ _ k => forall v, never_writes f (k v)
  | Store _ g _ k => g <> f /\ never_writes f k
  | CompareAndSwap g _ _ k => g <> f /\ forall b, never_writes f (k b)
  end.

(** Clock readings a machine can produce and subtract without overflow:
    nanoseconds since the epoch, as an [int64]. *)
Definition clock_ok (now : Z) : Prop := 0 <= now < 2 ^ 63.

(** [xs] never decreases, starting from [previous]. *)
Fixpoint nondecreasing (previous : Z) (xs : list Z) : Prop :=
  match xs with
  | [] => True
  | x :: xs' => previous <= x /\ nondecreasing x xs'
  end.

(** ** Consumers racing for tokens *)

(** A call that has returned true. *)
Definition is_win (p : prog (option bool)) : bool :=
  match p with
  | Ret (Some true) => true
  | _ => false
  end.

Definition winners (ts : list (prog (option bool))) : nat :=
  length (filter is_win ts).

(** The shape of a consume loop that asks for [n] tokens: it only loads the
    count and swaps a count [old >= n] for [old - n], and returns true only
    out of a successful swap. *)
Fixpoint consumes (n : Z) (p : prog (option bool)) : Prop :=
  match p with
  | Ret _ => True
  | Load _ f k =>
      f = f_tokens /\
      forall v, 0 <= v -> consumes n (k v) /\ is_win (k v) = false
  | CompareAndSwap f old new k =>
      f = f_tokens /\ n <= old /\ new = u64 (old - n) /\
      is_win (k true) = true /\
      consumes n (k false) /\ is_win (k false) = false
  | TimeNow _ | Store _ _ _ _ => False
  end.

(** The consume loop of [Allow] (one token) or of [TryAllow n]. *)
Definition consume_loop (n : Z) (p : prog (option bool)) : Prop :=
  exists fuel, p = tryAllowLoop fuel n \/ (n = 1 /\ p = allowLoop fuel).

(** ** Tokens granted *)

(** The tokens a call was granted, read off its reply. *)
Definition taken (c : call) (r : reply) : Z :=
  match c, r with
  | CallAllow, Verdict (Some true) => 1
  | CallTryAllow n, Verdict (Some true) => n
  | _, _ => 0
  end.

(** The tokens granted over a sequence of calls. *)
Fixpoint granted (calls : list (Z * call)) (trace : list (reply * ATLimiter))
  : Z :=
  match calls, trace with
  | (_, c) :: calls', (r, _) :: trace' => taken c r + granted calls' trace'
  | _, _ => 0
  end.

(** ** Calls on a limiter without a rate *)

(** A call that, on a limiter whose rate reads 0, reads nothing but the
    rate, writes nothing, and returns true. *)
Fixpoint passes_unlimited (p : prog (option bool)) : Prop :=
  match p with
  | Ret r => r = Some true
  | Load _ f k => f = f_maxRPS /\ passes_unlimited (k 0)
  | _ => False
  end.

(** A call of [Allow] or of [TryAllow], not yet started. *)
Definition admission_call (oor : Float64.t -> Z) (p : prog (option bool))
  : Prop :=
  exists fuel, p = Allow oor fuel \/ exists n, p = TryAllow oor fuel n.

(** A call that has returned [r]. *)
Definition returned (r : option bool) (p : prog (option bool)) : Prop :=
  p = Ret r.

(** * Properties *)

(** ** Machine integers *)

Lemma u64_small z : 0 <= z < 2 ^ 64 -> u64 z = z.
Proof. intros H. unfold u64. apply Z.mod_small. exact H. Qed.

Lemma u64_range z : 0 <= u64 z < 2 ^ 64.
Proof. unfold u64. apply Z.mod_pos_bound. reflexivity. Qed.

Lemma u64_le z : 0 <= z -> 0 <= u64 z <= z.
Proof.
  intros H. unfold u64. split.
  - apply Z.mod_pos_bound. reflexivity.
  - apply Z.mod_le; [exact H | reflexivity].
Qed.

Lemma i64_small z : - 2 ^ 63 <= z < 2 ^ 63 -> i64 z = z.
Proof.
  intros H. unfold i64. rewrite Z.mod_small; [ring | ].
  change (2 ^ 64) with (2 ^ 63 + 2 ^ 63). lia.
Qed.

(** ** Rounding in binary64 *)
Lemma digits2_pos_bounds p :
  2 ^ (Z.pos (digits2_pos p) - 1) <= Z.pos p < 2 ^ Z.pos (digits2_pos p).
Proof.
  induction p as [p IH | p IH | ]; simpl digits2_pos.
  - rewrite Pos2Z.inj_succ.
    replace (Z.succ (Z.pos (digits2_pos p)) - 1) with (Z.succ (Z.pos (digits2_pos p) - 1)) by lia.
    rewrite !Z.pow_succ_r by lia. lia.
  - rewrite Pos2Z.inj_succ.
    replace (Z.succ (Z.pos (digits2_pos p)) - 1) with (Z.succ (Z.pos (digits2_pos p) - 1)) by lia.
    rewrite !Z.pow_succ_r by lia. lia.
  - simpl. lia.
Qed.

Lemma digits2_pos_unique p k :
  2 ^ (k - 1) <= Z.pos p < 2 ^ k -> Z.pos (digits2_pos p) = k.
Proof.
  intros [Hlo Hhi]. pose proof (digits2_pos_bounds p) as [Blo Bhi].
  assert (0 < k).
  { destruct (Z_lt_le_dec 0 k) as [|Hk]; [assumption|].
    destruct (Z.eq_dec k 0) as [->|]; [simpl in Hhi; lia|].
    rewrite Z.pow_neg_r in Hhi by lia. lia. }
  destruct (Z.lt_trichotomy (Z.pos (digits2_pos p)) k) as [Hlt | [Heq | Hgt]].
  - assert (2 ^ Z.pos (digits2_pos p) <= 2 ^ (k - 1)) by (apply Z.pow_le_mono_r; lia). lia.
  - exact Heq.
  - assert (2 ^ k <= 2 ^ (Z.pos (digits2_pos p) - 1)) by (apply Z.pow_le_mono_r; lia). lia.
Qed.

Lemma pow2_xO p : 2 ^ Z.pos p~0 = 2 ^ Z.pos p * 2 ^ Z.pos p.
Proof.
  replace (Z.pos p~0) with (Z.pos p + Z.pos p) by lia.
  apply Z.pow_add_r; lia.
Qed.

Lemma pow2_xI p : 2 ^ Z.pos p~1 = 2 * (2 ^ Z.pos p * 2 ^ Z.pos p).
Proof.
  replace (Z.pos p~1) with (Z.succ (Z.pos p~0)) by lia.
  rewrite Z.pow_succ_r by lia. rewrite pow2_xO. reflexivity.
Qed.

Lemma shr_1_m mrs : 0 <= shr_m mrs -> shr_m (shr_1 mrs) = shr_m mrs / 2.
Proof.
  destruct mrs as [m r s]. cbn [shr_m]. intros H.
  destruct m as [ | [p | p | ] | p ]; cbn [shr_1 shr_m]; try lia.
  - reflexivity.
  - apply Z.div_unique with 1; lia.
  - apply Z.div_unique with 0; lia.
  - reflexivity.
Qed.

Lemma iter_shr_1_m p : forall mrs,
  0 <= shr_m mrs ->
  shr_m (iter_pos shr_1 p mrs) = shr_m mrs / 2 ^ Z.pos p.
Proof.
  induction p as [p IH | p IH | ]; intros mrs H; simpl iter_pos.
  - assert (H1 : 0 <= shr_m (shr_1 mrs)).
    { rewrite shr_1_m by assumption. apply Z.div_pos; lia. }
    assert (H2 : 0 <= shr_m (iter_pos shr_1 p (shr_1 mrs))).
    { rewrite IH by assumption. apply Z.div_pos; [assumption | apply Z.pow_pos_nonneg; lia]. }
    assert (P : 0 < 2 ^ Z.pos p) by (apply Z.pow_pos_nonneg; lia).
    rewrite IH, IH, shr_1_m by assumption.
    rewrite !Z.div_div by lia.
    f_equal. rewrite pow2_xI. ring.
  - assert (H2 : 0 <= shr_m (iter_pos shr_1 p mrs)).
    { rewrite IH by assumption. apply Z.div_pos; [assumption | apply Z.pow_pos_nonneg; lia]. }
    assert (P : 0 < 2 ^ Z.pos p) by (apply Z.pow_pos_nonneg; lia).
    rewrite IH, IH by assumption.
    rewrite !Z.div_div by lia.
    f_equal. rewrite pow2_xO. ring.
  - rewrite shr_1_m by assumption. reflexivity.
Qed.


Lemma shr_1_exact mrs :
  0 <= shr_m mrs -> exact_rec mrs -> shr_m mrs mod 2 = 0 -> exact_rec (shr_1 mrs).
Proof.
  destruct mrs as [m r s]. unfold exact_rec. simpl. intros H [-> ->] Hm.
  destruct m as [ | [p | p | ] | p ]; simpl; try (split; reflexivity); try lia.
  - rewrite Pos2Z.inj_xI in Hm. exfalso.
    rewrite Z.add_comm, Z.mul_comm, Z.mod_add in Hm by lia. discriminate.
  - discriminate.
Qed.

Lemma iter_shr_1_exact p : forall mrs,
  0 <= shr_m mrs -> exact_rec mrs -> shr_m mrs mod 2 ^ Z.pos p = 0 ->
  exact_rec (iter_pos shr_1 p mrs).
Proof.
  assert (Hdiv : forall a b c, 0 < b -> 0 < c -> a mod (b * c) = 0 -> a mod b = 0 /\ (a / b) mod c = 0).
  { intros a b c Hb Hc Ha. apply Z.mod_divide in Ha; [|lia]. destruct Ha as [q ->].
    split.
    - replace (q * (b * c)) with (q * c * b) by ring. apply Z.mod_mul. lia.
    - replace (q * (b * c)) with (q * c * b) by ring. rewrite Z.div_mul by lia. apply Z.mod_mul. lia. }
  induction p as [p IH | p IH | ]; intros mrs H Hex Hm; simpl iter_pos.
  - rewrite pow2_xI in Hm.
    assert (P : 0 < 2 ^ Z.pos p) by (apply Z.pow_pos_nonneg; lia).
    apply Hdiv in Hm; [| lia | lia ]. destruct Hm as [Hm1 Hm2].
    apply Hdiv in Hm2; try lia. destruct Hm2 as [Hm2 Hm3].
    assert (H1 : 0 <= shr_m (shr_1 mrs)).
    { rewrite shr_1_m by assumption. apply Z.div_pos; lia. }
    apply IH.
    + rewrite iter_shr_1_m by assumption. apply Z.div_pos; lia.
    + apply IH; [assumption | apply shr_1_exact; assumption | ].
      rewrite shr_1_m by assumption. exact Hm2.
    + rewrite iter_shr_1_m, shr_1_m by assumption. exact Hm3.
  - rewrite pow2_xO in Hm.
    assert (P : 0 < 2 ^ Z.pos p) by (apply Z.pow_pos_nonneg; lia).
    apply Hdiv in Hm; try lia. destruct Hm as [Hm2 Hm3].
    apply IH.
    + rewrite iter_shr_1_m by assumption. apply Z.div_pos; lia.
    + apply IH; assumption.
    + rewrite iter_shr_1_m by assumption. exact Hm3.
  - apply shr_1_exact; assumption.
Qed.


Lemma fexp_normal x : -1074 <= x - 53 -> fexp 53 1024 x = x - 53.
Proof. unfold fexp, emin. lia. Qed.

Lemma Zdigits2_bounds m :
  0 < m -> 2 ^ (Zdigits2 m - 1) <= m < 2 ^ Zdigits2 m.
Proof. destruct m as [|p|p]; try lia. intros _. apply digits2_pos_bounds. Qed.

Lemma Zdigits2_unique m k :
  2 ^ (k - 1) <= m < 2 ^ k -> 0 < m -> Zdigits2 m = k.
Proof.
  destruct m as [|p|p]; try lia. intros H _. apply digits2_pos_unique. exact H.
Qed.

Lemma round_nearest_even_cases m l :
  round_nearest_even m l = m \/ round_nearest_even m l = m + 1.
Proof.
  destruct l as [|[]]; simpl; auto. destruct (Z.even m); auto.
Qed.

Lemma loc_of_shr_record_of_loc m l :
  loc_of_shr_record (shr_record_of_loc m l) = l.
Proof. destruct l as [|[]]; reflexivity. Qed.

Lemma shr_m_of_loc m l : shr_m (shr_record_of_loc m l) = m.
Proof. destruct l as [|[]]; reflexivity. Qed.

Lemma loc_of_exact_rec mrs : exact_rec mrs -> loc_of_shr_record mrs = loc_Exact.
Proof. destruct mrs as [m r s]. intros [H1 H2]. simpl in *. subst. reflexivity. Qed.

(** The first shift of [binary_round_aux]: the mantissa is cut to 53 bits. *)
Lemma shr_fexp_spec m e l :
  0 < m -> 53 <= Zdigits2 m -> -1074 <= Zdigits2 m + e - 53 ->
  let n := Zdigits2 m - 53 in
  exists mrs,
    shr_fexp 53 1024 m e l = (mrs, e + n) /\
    shr_m mrs = m / 2 ^ n /\
    (n = 0 -> mrs = shr_record_of_loc m l) /\
    (l = loc_Exact -> m mod 2 ^ n = 0 -> exact_rec mrs).
Proof.
  intros Hm Hd He n. unfold shr_fexp.
  rewrite fexp_normal by exact He.
  replace (Zdigits2 m + e - 53 - e) with n by (unfold n; lia).
  destruct n as [|p|p] eqn:En; try lia.
  - exists (shr_record_of_loc m l). simpl shr.
    rewrite Z.add_0_r, shr_m_of_loc, Z.div_1_r.
    split; [reflexivity | split; [reflexivity | split; [reflexivity | ]]].
    intros -> _. split; reflexivity.
  - exists (iter_pos shr_1 p (shr_record_of_loc m l)). simpl shr.
    split; [reflexivity | split; [ | split; [discriminate | ]]].
    + rewrite iter_shr_1_m; rewrite shr_m_of_loc; [reflexivity | lia].
    + intros -> Hmod. apply iter_shr_1_exact; simpl; try lia.
      split; reflexivity.
Qed.

Lemma div_pow2_range m d :
  0 < m -> Zdigits2 m = d -> 53 <= d ->
  2 ^ 52 <= m / 2 ^ (d - 53) < 2 ^ 53.
Proof.
  intros Hm Hd H53. pose proof (Zdigits2_bounds m Hm) as [Lo Hi]. rewrite Hd in Lo, Hi.
  assert (P : 0 < 2 ^ (d - 53)) by (apply Z.pow_pos_nonneg; lia).
  assert (E1 : 2 ^ (d - 1) = 2 ^ 52 * 2 ^ (d - 53)).
  { rewrite <- Z.pow_add_r by lia. f_equal. lia. }
  assert (E2 : 2 ^ d = 2 ^ 53 * 2 ^ (d - 53)).
  { rewrite <- Z.pow_add_r by lia. f_equal. lia. }
  split.
  - apply Z.div_le_lower_bound; lia.
  - apply Z.div_lt_upper_bound; lia.
Qed.

Lemma round53_normal s m e l :
  0 < m -> 53 <= Zdigits2 m -> -1074 <= Zdigits2 m + e - 53 ->
  Zdigits2 m + e <= 1023 ->
  let n := Zdigits2 m - 53 in
  exists m2 e2,
    round53 s m e l = S754_finite s m2 e2 /\
    2 ^ 52 <= Z.pos m2 < 2 ^ 53 /\
    e + n <= e2 <= e + n + 1 /\
    (Z.pos m2 * 2 ^ (e2 - (e + n)) = m / 2 ^ n \/
     Z.pos m2 * 2 ^ (e2 - (e + n)) = m / 2 ^ n + 1) /\
    (l = loc_Exact -> m mod 2 ^ n = 0 -> Z.pos m2 = m / 2 ^ n /\ e2 = e + n).
Proof.
  intros Hm Hd He Hov n.
  destruct (shr_fexp_spec m e l Hm Hd He) as (mrs & Hshr & Hmrs & _ & Hex).
  fold n in Hshr, Hmrs, Hex.
  pose proof (div_pow2_range m (Zdigits2 m) Hm eq_refl Hd) as Hr. fold n in Hr.
  unfold round53, binary_round_aux. rewrite Hshr.
  set (m1 := m / 2 ^ n) in *.
  set (r := round_nearest_even (shr_m mrs) (loc_of_shr_record mrs)).
  assert (Hr' : r = m1 \/ r = m1 + 1).
  { unfold r. rewrite Hmrs. apply round_nearest_even_cases. }
  assert (Hexr : l = loc_Exact -> m mod 2 ^ n = 0 -> r = m1).
  { intros H1 H2. unfold r. rewrite (loc_of_exact_rec mrs (Hex H1 H2)). simpl. exact Hmrs. }
  destruct (Z.eq_dec r (2 ^ 53)) as [Htop | Hntop].
  - (* the round-up overflowed the mantissa *)
    assert (Hdr : Zdigits2 r = 54).
    { rewrite Htop. reflexivity. }
    unfold shr_fexp. rewrite Hdr, fexp_normal by lia.
    replace (54 + (e + n) - 53 - (e + n)) with 1 by lia.
    rewrite Htop. simpl shr. cbn [shr_m].
    replace (e + n + 1 <=? 1024 - 53) with true by (symmetry; apply Z.leb_le; unfold n; lia).
    exists (4503599627370496%positive), (e + n + 1).
    split; [reflexivity|]. split; [lia|]. split; [lia|]. split.
    + right. replace (e + n + 1 - (e + n)) with 1 by lia.
      destruct Hr' as [Hr'|Hr']; lia.
    + intros H1 H2. specialize (Hexr H1 H2). lia.
  - assert (Hrr : 2 ^ 52 <= r < 2 ^ 53) by lia.
    assert (Hdr : Zdigits2 r = 53).
    { apply Zdigits2_unique; lia. }
    unfold shr_fexp. rewrite Hdr, fexp_normal by lia.
    replace (53 + (e + n) - 53 - (e + n)) with 0 by lia.
    simpl shr. cbn [shr_m shr_record_of_loc].
    destruct r as [|pr|pr] eqn:Er; try lia.
    replace (e + n <=? 1024 - 53) with true by (symmetry; apply Z.leb_le; unfold n; lia).
    exists pr, (e + n).
    split; [reflexivity|]. split; [lia|]. split; [lia|]. split.
    + rewrite Z.sub_diag, Z.mul_1_r. exact Hr'.
    + intros H1 H2. split; [apply Hexr; assumption | reflexivity].
Qed.


Lemma pow2_pos k : 0 <= k -> 0 < 2 ^ k.
Proof. intros H. apply Z.pow_pos_nonneg; lia. Qed.

(** Rounding to 53 bits increases a positive value by at most one part in
    [2^52]; both sides are scaled to the exponent [e]. *)
Lemma round53_bound s m e l :
  0 < m -> 53 <= Zdigits2 m -> -1074 <= Zdigits2 m + e - 53 ->
  Zdigits2 m + e <= 1023 ->
  exists m2 e2,
    round53 s m e l = S754_finite s m2 e2 /\
    2 ^ 52 <= Z.pos m2 < 2 ^ 53 /\
    Zdigits2 m + e - 53 <= e2 <= Zdigits2 m + e - 52 /\
    Z.pos m2 * 2 ^ (e2 - e) * 2 ^ 52 <= m * (2 ^ 52 + 1).
Proof.
  intros Hm Hd He Hov.
  destruct (round53_normal s m e l Hm Hd He Hov) as (m2 & e2 & Hbra & Hm2 & He2 & Hval & _).
  exists m2, e2. split; [exact Hbra|]. split; [exact Hm2|]. split; [lia|].
  set (n := Zdigits2 m - 53) in *.
  assert (Hn : 0 <= n) by (unfold n; lia).
  assert (P : 0 < 2 ^ n) by (apply pow2_pos; lia).
  assert (Hv : Z.pos m2 * 2 ^ (e2 - (e + n)) <= m / 2 ^ n + 1) by lia.
  assert (Hq : m / 2 ^ n * 2 ^ n <= m).
  { rewrite Z.mul_comm. apply Z.mul_div_le. exact P. }
  assert (Hlo : 2 ^ 52 * 2 ^ n <= m).
  { pose proof (Zdigits2_bounds m Hm) as [Lo _].
    rewrite <- Z.pow_add_r by lia. replace (52 + n) with (Zdigits2 m - 1) by (unfold n; lia).
    exact Lo. }
  replace (e2 - e) with ((e2 - (e + n)) + n) by lia.
  rewrite Z.pow_add_r by lia.
  set (T := Z.pos m2 * 2 ^ (e2 - (e + n))) in *.
  set (K := m / 2 ^ n) in *. set (N := 2 ^ n) in *.
  replace (Z.pos m2 * (2 ^ (e2 - (e + n)) * N)) with (T * N) by (unfold T; ring).
  assert (H1 : T * N <= (K + 1) * N) by (apply Z.mul_le_mono_nonneg_r; lia).
  lia.
Qed.

Lemma iter_xO_pow2 p k : Z.pos (Pos.iter xO p k) = Z.pos p * 2 ^ Z.pos k.
Proof.
  change (Pos.iter xO p k) with (shift_pos k p).
  rewrite shift_pos_correct. rewrite Z.mul_comm. reflexivity.
Qed.

Lemma binary_round_int s p :
  Z.pos p < 2 ^ 64 ->
  exists m e,
    binary_round 53 1024 s p 0 = S754_finite s m e /\
    2 ^ 52 <= Z.pos m < 2 ^ 53 /\
    -52 <= e <= 12 /\
    (Z.pos p < 2 ^ 53 -> e <= 0 /\ Z.pos m = Z.pos p * 2 ^ (- e)).
Proof.
  intros Hp. pose proof (digits2_pos_bounds p) as [Lo Hi].
  set (d := Z.pos (digits2_pos p)) in *.
  assert (Hd1 : 1 <= d) by (unfold d; lia).
  assert (Hd64 : d <= 64).
  { destruct (Z_le_gt_dec d 64) as [|G]; [assumption|].
    assert (2 ^ 64 <= 2 ^ (d - 1)) by (apply Z.pow_le_mono_r; lia). lia. }
  unfold binary_round. rewrite Z.add_0_r. fold d.
  rewrite fexp_normal by lia. unfold shl_align. rewrite Z.sub_0_r.
  assert (Hdp : Zdigits2 (Z.pos p) = d) by reflexivity.
  destruct (d - 53) as [|k|k] eqn:Ek.
  - (* exactly 53 bits *)
    pose proof (round53_normal s (Z.pos p) 0 loc_Exact) as B.
    cbv zeta in B. rewrite Hdp, Ek in B.
    destruct B as (m & e & Hb & Hm & He & _ & Hex); try lia.
    destruct (Hex eq_refl) as [Hm' He']; [apply Z.mod_1_r|].
    rewrite Z.div_1_r in Hm'. exists m, e. fold round53. rewrite Hb.
    split; [reflexivity|]. split; [exact Hm|]. split; [lia|].
    intros _. subst e. simpl. lia.
  - (* more than 53 bits: rounded *)
    pose proof (round53_normal s (Z.pos p) 0 loc_Exact) as B.
    cbv zeta in B. rewrite Hdp, Ek in B.
    destruct B as (m & e & Hb & Hm & He & _ & _); try lia.
    exists m, e. fold round53. rewrite Hb.
    split; [reflexivity|]. split; [exact Hm|]. split; [lia|].
    intros Hsmall. exfalso.
    assert (2 ^ 53 <= 2 ^ (d - 1)) by (apply Z.pow_le_mono_r; lia). lia.
  - (* fewer than 53 bits: aligned, exact *)
    assert (Hmz : 2 ^ 52 <= Z.pos (Pos.iter xO p k) < 2 ^ 53).
    { rewrite iter_xO_pow2.
      assert (E1 : 2 ^ 52 = 2 ^ (d - 1) * 2 ^ Z.pos k).
      { rewrite <- Z.pow_add_r by lia. f_equal. lia. }
      assert (E2 : 2 ^ 53 = 2 ^ d * 2 ^ Z.pos k).
      { rewrite <- Z.pow_add_r by lia. f_equal. lia. }
      assert (0 < 2 ^ Z.pos k) by (apply Z.pow_pos_nonneg; lia).
      rewrite E1, E2. split; [apply Z.mul_le_mono_nonneg_r | apply Z.mul_lt_mono_pos_r]; lia. }
    assert (Hdz : Zdigits2 (Z.pos (Pos.iter xO p k)) = 53).
    { apply Zdigits2_unique; [exact Hmz | lia]. }
    pose proof (round53_normal s (Z.pos (Pos.iter xO p k)) (Z.neg k) loc_Exact) as B.
    cbv zeta in B. rewrite Hdz in B. change (53 - 53) with 0 in B.
    destruct B as (m & e & Hb & Hm & He & _ & Hex); try lia.
    destruct (Hex eq_refl) as [Hm' He']; [apply Z.mod_1_r|].
    rewrite Z.div_1_r in Hm'.
    exists m, e. fold round53. rewrite Hb.
    split; [reflexivity|]. split; [exact Hm|]. split; [lia|].
    intros _. split; [lia|]. rewrite Hm', iter_xO_pow2. f_equal. f_equal. lia.
Qed.

Lemma Zdigits2_53 m : 2 ^ 52 <= m < 2 ^ 53 -> Zdigits2 m = 53.
Proof. intros H. apply Zdigits2_unique; [exact H | lia]. Qed.

(** Division of two 53-bit floats away from the ends of the exponent
    range.  The last inequality bounds the quotient by the exact one, up
    to one part in [2^52]. *)
Lemma SFdiv_normal sx mx ex sy my ey :
  2 ^ 52 <= Z.pos mx < 2 ^ 53 -> 2 ^ 52 <= Z.pos my < 2 ^ 53 ->
  -1074 <= ex - ey - 53 -> ex - ey <= 1022 ->
  exists m e,
    SFdiv 53 1024 (S754_finite sx mx ex) (S754_finite sy my ey) =
      S754_finite (xorb sx sy) m e /\
    2 ^ 52 <= Z.pos m < 2 ^ 53 /\
    ex - ey - 53 <= e <= ex - ey - 51 /\
    Z.pos m * 2 ^ (e - (ex - ey - 53)) * 2 ^ 52 * Z.pos my
      <= Z.pos mx * 2 ^ 53 * (2 ^ 52 + 1).
Proof.
  intros Hx Hy Hlo Hhi.
  unfold SFdiv, SFdiv_core_binary.
  rewrite (Zdigits2_53 _ Hx), (Zdigits2_53 _ Hy).
  replace (53 + ex - (53 + ey)) with (ex - ey) by lia.
  rewrite fexp_normal by lia.
  rewrite Z.min_l by lia.
  replace (ex - ey - (ex - ey - 53)) with 53 by lia.
  rewrite Z.shiftl_mul_pow2 by lia.
  pose proof (Z_div_mod (Z.pos mx * 2 ^ 53) (Z.pos my) eq_refl) as Hdm.
  destruct (Z.div_eucl (Z.pos mx * 2 ^ 53) (Z.pos my)) as [q r].
  destruct Hdm as [Hq Hr].
  assert (Hq52 : 2 ^ 52 <= q) by nia.
  assert (Hq54 : q < 2 ^ 54) by nia.
  assert (Hdq : 53 <= Zdigits2 q <= 54).
  { destruct (Z_lt_le_dec q (2 ^ 53)).
    - rewrite (Zdigits2_53 q); lia.
    - rewrite (Zdigits2_unique q 54); lia. }
  destruct (round53_bound (xorb sx sy) q (ex - ey - 53) (new_location (Z.pos my) r))
    as (m & e & Hb & Hm & He & Hv); try lia.
  exists m, e. fold round53. rewrite Hb.
  split; [reflexivity|]. split; [exact Hm|]. split; [lia|].
  assert (Hqm : q * Z.pos my <= Z.pos mx * 2 ^ 53) by lia.
  set (V := Z.pos m * 2 ^ (e - (ex - ey - 53)) * 2 ^ 52) in *.
  apply Z.le_trans with (q * (2 ^ 52 + 1) * Z.pos my).
  - apply Z.mul_le_mono_nonneg_r; lia.
  - replace (q * (2 ^ 52 + 1) * Z.pos my) with (q * Z.pos my * (2 ^ 52 + 1)) by ring.
    apply Z.mul_le_mono_nonneg_r; lia.
Qed.

(** Multiplication of two 53-bit floats away from the ends of the exponent
    range: bounded by the exact product, up to one part in [2^52], and
    exact when the second factor is a power of two. *)
Lemma SFmul_normal sx mx ex sy my ey :
  2 ^ 52 <= Z.pos mx < 2 ^ 53 -> 2 ^ 52 <= Z.pos my < 2 ^ 53 ->
  -1074 <= ex + ey + 52 -> ex + ey <= 917 ->
  exists m e,
    SFmul 53 1024 (S754_finite sx mx ex) (S754_finite sy my ey) =
      S754_finite (xorb sx sy) m e /\
    2 ^ 52 <= Z.pos m < 2 ^ 53 /\
    ex + ey + 52 <= e <= ex + ey + 54 /\
    Z.pos m * 2 ^ (e - (ex + ey)) * 2 ^ 52
      <= Z.pos mx * Z.pos my * (2 ^ 52 + 1) /\
    (Z.pos my = 2 ^ 52 -> m = mx /\ e = ex + ey + 52).
Proof.
  intros Hx Hy Hlo Hhi. unfold SFmul.
  assert (Hp : 2 ^ 104 <= Z.pos (mx * my) < 2 ^ 106).
  { rewrite Pos2Z.inj_mul. change (2 ^ 104) with (2 ^ 52 * 2 ^ 52).
    change (2 ^ 106) with (2 ^ 53 * 2 ^ 53). nia. }
  assert (Hd : 105 <= Zdigits2 (Z.pos (mx * my)) <= 106).
  { destruct (Z_lt_le_dec (Z.pos (mx * my)) (2 ^ 105)).
    - rewrite (Zdigits2_unique _ 105); lia.
    - rewrite (Zdigits2_unique _ 106); lia. }
  destruct (round53_bound (xorb sx sy) (Z.pos (mx * my)) (ex + ey) loc_Exact)
    as (m & e & Hb & Hm & He & Hv); try lia.
  exists m, e. fold round53. rewrite Hb.
  split; [reflexivity|]. split; [exact Hm|]. split; [lia|]. split.
  - rewrite Pos2Z.inj_mul in Hv. exact Hv.
  - intros Hone.
    assert (Hd' : Zdigits2 (Z.pos (mx * my)) = 105).
    { apply Zdigits2_unique; [|lia]. rewrite Pos2Z.inj_mul, Hone.
      change (2 ^ (105 - 1)) with (2 ^ 52 * 2 ^ 52).
      change (2 ^ 105) with (2 ^ 53 * 2 ^ 52). lia. }
    pose proof (round53_normal (xorb sx sy) (Z.pos (mx * my)) (ex + ey) loc_Exact) as B.
    cbv zeta in B. rewrite Hd' in B. change (105 - 53) with 52 in B.
    destruct B as (m' & e' & Hb' & _ & _ & _ & Hex); try lia.
    rewrite Hb in Hb'. injection Hb' as <- <-.
    rewrite Pos2Z.inj_mul, Hone in Hex.
    destruct (Hex eq_refl) as [E1 E2]; [apply Z.mod_mul; lia|].
    rewrite Z.div_mul in E1 by lia. split; [lia | exact E2].
Qed.

(** ** The float64 operations of the source *)

Lemma e9_eq : Float64.e9 = S754_finite false 8388608000000000 (-23).
Proof. reflexivity. Qed.

Lemma one_eq : Float64.one = S754_finite false 4503599627370496 (-52).
Proof. reflexivity. Qed.

(** [float64(z)] of a positive integer is a 53-bit float, and is [z] itself
    below [2^53]. *)
Lemma of_int_pos z :
  0 < z < 2 ^ 64 ->
  exists m e,
    Float64.of_int z = S754_finite false m e /\
    2 ^ 52 <= Z.pos m < 2 ^ 53 /\
    -52 <= e <= 12 /\
    (z < 2 ^ 53 -> e <= 0 /\ Z.pos m = z * 2 ^ (- e)).
Proof.
  intros Hz. destruct z as [|p|p]; try lia.
  apply (binary_round_int false p). lia.
Qed.

Lemma of_int_neg z :
  - 2 ^ 64 < z < 0 ->
  exists m e,
    Float64.of_int z = S754_finite true m e /\
    2 ^ 52 <= Z.pos m < 2 ^ 53 /\
    -52 <= e <= 12.
Proof.
  intros Hz. destruct z as [|p|p]; try lia.
  destruct (binary_round_int true p) as (m & e & H1 & H2 & H3 & _); [lia|].
  exists m, e. auto.
Qed.

(** The quotient by [1e9] of a positive number of nanoseconds. *)
Lemma div_e9_pos d :
  0 < d < 2 ^ 63 ->
  exists m e k,
    Float64.div (Float64.of_int d) Float64.e9 = S754_finite false m e /\
    2 ^ 52 <= Z.pos m < 2 ^ 53 /\
    -82 <= e <= -16 /\
    (d < 2 ^ 53 ->
     0 <= k <= 52 /\ - k - 30 <= e /\
     Z.pos m * 2 ^ (e + k + 30) * 2 ^ 52 * 1000000000
       <= d * 2 ^ k * 2 ^ 30 * (2 ^ 52 + 1)).
Proof.
  intros Hd.
  destruct (of_int_pos d) as (md & ed & Hof & Hmd & Hed & Hex); [lia|].
  rewrite Hof, e9_eq. unfold Float64.div, Float64.prec, Float64.emax.
  destruct (SFdiv_normal false md ed false 8388608000000000 (-23))
    as (m & e & Hdiv & Hm & He & Hv); try lia.
  exists m, e, (- ed). split; [exact Hdiv|]. split; [exact Hm|]. split; [lia|].
  intros Hsmall. destruct (Hex Hsmall) as [Hed0 Hmd'].
  split; [lia|]. split; [lia|].
  replace (ed - -23 - 53) with (- (- ed) - 30) in Hv by lia.
  replace (e - (- - ed - 30)) with (e + - ed + 30) in Hv by lia.
  rewrite Hmd' in Hv.
  change (Z.pos 8388608000000000) with (1000000000 * 2 ^ 23) in Hv.
  change (2 ^ 53) with (2 ^ 30 * 2 ^ 23) in Hv.
  set (V := Z.pos m * 2 ^ (e + - ed + 30) * 2 ^ 52) in *.
  set (W := d * 2 ^ (- ed)) in *.
  assert (H : V * 1000000000 * 2 ^ 23 <= W * 2 ^ 30 * (2 ^ 52 + 1) * 2 ^ 23) by lia.
  apply Z.mul_le_mono_pos_r in H; [exact H | reflexivity].
Qed.

Lemma div_e9_neg d :
  - 2 ^ 63 <= d < 0 ->
  exists m e,
    Float64.div (Float64.of_int d) Float64.e9 = S754_finite true m e.
Proof.
  intros Hd.
  destruct (of_int_neg d) as (md & ed & Hof & Hmd & Hed); [lia|].
  rewrite Hof, e9_eq. unfold Float64.div, Float64.prec, Float64.emax.
  destruct (SFdiv_normal true md ed false 8388608000000000 (-23))
    as (m & e & Hdiv & _); try lia.
  exists m, e. exact Hdiv.
Qed.

(** A positive float below one truncates to zero. *)
Lemma trunc_below_one m e :
  e < 0 -> Z.pos m < 2 ^ (- e) ->
  Float64.trunc (S754_finite false m e) = Some 0.
Proof.
  intros He Hm. unfold Float64.trunc. cbn [cond_Zopp].
  destruct (Z.leb_spec 0 e) as [H|H]; [lia|].
  f_equal. apply Z.div_small. lia.
Qed.

Section Conversions.

Variable oor : Float64.t -> Z.

(** Less than [1/maxRPS] seconds: the product, rounded twice, stays below
    one and no token is due. *)
Lemma newTokensFor_subtoken maxRate d :
  0 < d -> 0 < maxRate -> d * maxRate < 1000000000 ->
  newTokensFor oor maxRate (Float64.div (Float64.of_int d) Float64.e9) = 0.
Proof.
  intros Hd HR Hprod.
  assert (Hd9 : d < 1000000000) by nia.
  assert (HR9 : maxRate < 1000000000) by nia.
  destruct (div_e9_pos d) as (mq & eq & kd & Hq & Hmq & Heq & Hvq); [lia|].
  destruct (Hvq ltac:(lia)) as (Hkd & Ha & HQ). clear Hvq.
  destruct (of_int_pos maxRate) as (mr & er & Hr & Hmr & Her & Hexr); [lia|].
  destruct (Hexr ltac:(lia)) as [Her0 Hmr'].
  unfold newTokensFor. rewrite Hq, Hr.
  unfold Float64.mul, Float64.prec, Float64.emax.
  destruct (SFmul_normal false mr er false mq eq)
    as (mp & ep & Hmul & Hmp & Hep & HP & _); try lia.
  rewrite Hmul. cbn [xorb]. unfold Float64.to_uint64.
  (* the exponents, as powers of two *)
  set (a := eq + kd + 30) in *. set (b := ep - (er + eq)) in *.
  set (kr := - er) in *.
  assert (Hb : 52 <= b <= 54) by (unfold b; lia).
  assert (Hkr : 0 <= kr <= 52) by (unfold kr; lia).
  pose proof (pow2_pos a ltac:(lia)) as PA.
  pose proof (pow2_pos b ltac:(lia)) as PB.
  pose proof (pow2_pos kr ltac:(lia)) as PX.
  pose proof (pow2_pos kd ltac:(lia)) as PY.
  rewrite Hmr' in HP.
  set (A := 2 ^ a) in *. set (B := 2 ^ b) in *.
  set (X := 2 ^ kr) in *. set (Y := 2 ^ kd) in *.
  set (MP := Z.pos mp) in *. set (MQ := Z.pos mq) in *.
  set (u := 2 ^ 52) in *. set (G := 1000000000) in *.
  (* the two roundings, chained *)
  assert (H1 : MP * B * u * (A * u * G) <= maxRate * X * MQ * (u + 1) * (A * u * G)).
  { apply Z.mul_le_mono_nonneg_r; [unfold u, G; lia | exact HP]. }
  assert (H2 : maxRate * X * (u + 1) * (MQ * A * u * G)
               <= maxRate * X * (u + 1) * (d * Y * 2 ^ 30 * (u + 1))).
  { apply Z.mul_le_mono_nonneg_l; [unfold u; lia | exact HQ]. }
  assert (H3 : MP * (A * B) * (u * u * G) <= d * maxRate * (u + 1) * (u + 1) * (X * Y * 2 ^ 30)).
  { replace (MP * (A * B) * (u * u * G)) with (MP * B * u * (A * u * G)) by ring.
    replace (d * maxRate * (u + 1) * (u + 1) * (X * Y * 2 ^ 30))
      with (maxRate * X * (u + 1) * (d * Y * 2 ^ 30 * (u + 1))) by ring.
    replace (maxRate * X * MQ * (u + 1) * (A * u * G))
      with (maxRate * X * (u + 1) * (MQ * A * u * G)) in H1 by ring.
    lia. }
  assert (H4 : d * maxRate * (u + 1) * (u + 1) < u * u * G).
  { assert (d * maxRate <= G - 1) by (unfold G; lia).
    apply Z.le_lt_trans with ((G - 1) * ((u + 1) * (u + 1))).
    - replace (d * maxRate * (u + 1) * (u + 1))
        with (d * maxRate * ((u + 1) * (u + 1))) by ring.
      apply Z.mul_le_mono_nonneg_r; [unfold u; lia | lia].
    - unfold u, G. reflexivity. }
  assert (H5 : MP * (A * B) < X * Y * 2 ^ 30).
  { assert (PXY : 0 < X * Y * 2 ^ 30) by (unfold X, Y; lia).
    assert (PUG : 0 < u * u * G) by (unfold u, G; lia).
    assert (H6 : d * maxRate * (u + 1) * (u + 1) * (X * Y * 2 ^ 30)
                 < u * u * G * (X * Y * 2 ^ 30))
      by (apply Z.mul_lt_mono_pos_r; assumption).
    apply Z.mul_lt_mono_pos_r with (u * u * G); [exact PUG|].
    rewrite (Z.mul_comm (X * Y * 2 ^ 30)). lia. }
  (* back to exponents *)
  assert (EAB : A * B = 2 ^ (a + b)) by (unfold A, B; rewrite Z.pow_add_r; lia).
  assert (EXY : X * Y * 2 ^ 30 = 2 ^ (kr + kd + 30)).
  { unfold X, Y. rewrite !Z.pow_add_r by lia. reflexivity. }
  rewrite EAB, EXY in H5.
  assert (Hlt : a + b < kr + kd + 30).
  { apply (Z.pow_lt_mono_r_iff 2); [lia | lia | ].
    assert (0 < 2 ^ (a + b)) by (apply pow2_pos; lia).
    assert (1 <= MP) by (unfold MP; lia). nia. }
  assert (Eep : - ep = kr + kd + 30 - (a + b)) by (unfold a, b, kr; lia).
  rewrite trunc_below_one; [reflexivity | lia | ].
  rewrite Eep. fold MP.
  assert (E : 2 ^ (kr + kd + 30) = 2 ^ (kr + kd + 30 - (a + b)) * 2 ^ (a + b)).
  { rewrite <- Z.pow_add_r by lia. f_equal. lia. }
  rewrite E in H5.
  apply Z.mul_lt_mono_pos_r in H5; [exact H5 | apply pow2_pos; lia].
Qed.

(** Below [2^53] the conversions to and from float64 and a product by
    [1.0] are exact. *)
Lemma to_uint64_mul_one z :
  0 <= z < 2 ^ 53 ->
  Float64.to_uint64 oor (Float64.mul (Float64.of_int z) Float64.one) = z.
Proof.
  intros Hz. destruct (Z.eq_dec z 0) as [->|Hnz]; [reflexivity|].
  destruct (of_int_pos z) as (m & e & Hof & Hm & He & Hex); [lia|].
  destruct (Hex ltac:(lia)) as [He0 Hm'].
  rewrite Hof, one_eq. unfold Float64.mul, Float64.prec, Float64.emax.
  destruct (SFmul_normal false m e false 4503599627370496 (-52))
    as (m2 & e2 & Hmul & _ & _ & _ & Hone); try lia.
  destruct (Hone eq_refl) as [-> ->].
  rewrite Hmul. simpl xorb. replace (e + -52 + 52) with e by lia.
  unfold Float64.to_uint64, Float64.trunc. cbn [cond_Zopp].
  assert (P : 0 < 2 ^ (- e)) by (apply Z.pow_pos_nonneg; lia).
  assert (Hval : (if 0 <=? e then Z.pos m * 2 ^ e else Z.pos m / 2 ^ (- e)) = z).
  { destruct (Z.leb_spec 0 e).
    - replace e with 0 in * by lia. simpl in Hm'. lia.
    - rewrite Hm'. apply Z.div_mul. lia. }
  rewrite Hval.
  replace ((0 <=? z) && (z <? 2 ^ 64)) with true; [reflexivity|].
  symmetry. apply andb_true_iff. split; [apply Z.leb_le | apply Z.ltb_lt]; lia.
Qed.

End Conversions.

(** ** Elapsed time and the tokens due *)

Lemma i64_range z : - 2 ^ 63 <= i64 z < 2 ^ 63.
Proof.
  unfold i64. pose proof (Z.mod_pos_bound (z + 2 ^ 63) (2 ^ 64) eq_refl).
  change (2 ^ 64) with (2 ^ 63 + 2 ^ 63) in *. lia.
Qed.

(** [elapsed > 0] holds exactly when the clock moved forward. *)
Lemma elapsed_positive now previousRefill :
  Float64.ltb Float64.zero (elapsedSeconds now previousRefill) =
  (0 <? i64 (now - previousRefill)).
Proof.
  unfold elapsedSeconds. pose proof (i64_range (now - previousRefill)) as Hr.
  set (d := i64 (now - previousRefill)) in *.
  destruct (Z.ltb_spec 0 d) as [Hd|Hd].
  - destruct (div_e9_pos d) as (m & e & k & Hq & _); [lia|]. rewrite Hq. reflexivity.
  - destruct (Z.eq_dec d 0) as [->|Hnz]; [reflexivity|].
    destruct (div_e9_neg d) as (m & e & Hq); [lia|]. rewrite Hq. reflexivity.
Qed.

Lemma elapsedSeconds_same now : elapsedSeconds now now = Float64.zero.
Proof. unfold elapsedSeconds. rewrite Z.sub_diag. reflexivity. Qed.

Section TokensDue.

Variable oor : Float64.t -> Z.

(** A limiter without a rate is never due a token. *)
Lemma tokensDue_unlimited now l : maxRPS l = 0 -> tokensDue oor now l = 0.
Proof.
  intros H0. unfold tokensDue. rewrite elapsed_positive, H0.
  pose proof (i64_range (now - lastRefill l)) as Hr.
  unfold elapsedSeconds.
  destruct (Z.ltb_spec 0 (i64 (now - lastRefill l))) as [Hd|Hd]; [|reflexivity].
  destruct (div_e9_pos (i64 (now - lastRefill l))) as (m & e & k & Hq & _); [lia|].
  unfold newTokensFor. rewrite Hq. reflexivity.
Qed.

(** Less than [1/maxRPS] seconds after the last refill no token is due. *)
Lemma tokensDue_subtoken now l :
  0 <= maxRPS l ->
  0 <= now - lastRefill l ->
  (now - lastRefill l) * maxRPS l < 1000000000 ->
  tokensDue oor now l = 0.
Proof.
  intros HR Hd Hprod.
  destruct (Z.eq_dec (maxRPS l) 0) as [H0|H0]; [apply tokensDue_unlimited; exact H0|].
  unfold tokensDue. rewrite elapsed_positive.
  assert (Hsmall : now - lastRefill l < 1000000000) by nia.
  rewrite i64_small by lia.
  destruct (Z.ltb_spec 0 (now - lastRefill l)) as [Hpos|Hnp]; [|reflexivity].
  unfold elapsedSeconds. rewrite i64_small by lia.
  apply newTokensFor_subtoken; lia.
Qed.

End TokensDue.

(** ** Sequential execution of the methods *)

Lemma run_bind {A B : Type} (p : prog A) (q : A -> prog B) now l :
  run (bind p q) now l =
  run (q (fst (run p now l))) now (snd (run p now l)).
Proof.
  revert l. induction p as [a | k IH | m f k IH | m f v k IH | f old new k IH];
    intros l; simpl.
  - reflexivity.
  - apply IH.
  - apply IH.
  - apply IH.
  - destruct (get f l =? old); apply IH.
Qed.

Section Sequential.

Variable oor : Float64.t -> Z.

Lemma run_calculateTokenRefill now l :
  run (calculateTokenRefill oor) now l = (tt, refilled oor now l).
Proof.
  unfold refilled. destruct (run (calculateTokenRefill oor) now l) as [[] l'].
  reflexivity.
Qed.

(** What a refill does when nothing runs beside it. *)
Lemma refilled_eq now l :
  refilled oor now l =
  if Float64.ltb Float64.zero (elapsedSeconds now (lastRefill l)) then
    if 0 <? tokensDue oor now l then
      set f_tokens (Z.min (u64 (tokens l + tokensDue oor now l)) (capacity l))
        (set f_lastRefill now l)
    else set f_lastRefill now l
  else l.
Proof.
  unfold refilled, tokensDue, calculateTokenRefill. simpl.
  destruct (Float64.ltb Float64.zero (elapsedSeconds now (lastRefill l))); simpl.
  - rewrite Z.eqb_refl. simpl.
    destruct (0 <? newTokensFor oor (maxRPS l) (elapsedSeconds now (lastRefill l)));
      reflexivity.
  - reflexivity.
Qed.

Lemma refilled_maxRPS now l : maxRPS (refilled oor now l) = maxRPS l.
Proof.
  rewrite refilled_eq.
  destruct (Float64.ltb _ _); [ destruct (0 <? _) | ]; reflexivity.
Qed.

Lemma refilled_capacity now l : capacity (refilled oor now l) = capacity l.
Proof.
  rewrite refilled_eq.
  destruct (Float64.ltb _ _); [ destruct (0 <? _) | ]; reflexivity.
Qed.

(** A refill that computes no token leaves the count alone. *)
Lemma refilled_tokens_idle now l :
  tokensDue oor now l = 0 -> tokens (refilled oor now l) = tokens l.
Proof.
  intros H. rewrite refilled_eq, H.
  destruct (Float64.ltb _ _); reflexivity.
Qed.

Lemma run_allowLoop fuel now l :
  run (allowLoop (S fuel)) now l =
  if tokens l =? 0 then (Some false, l)
  else (Some true, set f_tokens (u64 (tokens l - 1)) l).
Proof.
  simpl. destruct (tokens l =? 0); simpl; [reflexivity | ].
  rewrite Z.eqb_refl. reflexivity.
Qed.

Lemma run_tryAllowLoop fuel n now l :
  run (tryAllowLoop (S fuel) n) now l =
  if tokens l <? n then (Some false, l)
  else (Some true, set f_tokens (u64 (tokens l - n)) l).
Proof.
  simpl. destruct (tokens l <? n); simpl; [reflexivity | ].
  rewrite Z.eqb_refl. reflexivity.
Qed.

(** One iteration of the loop decides a call that runs alone. *)
Lemma run_Allow fuel now l :
  run (Allow oor (S fuel)) now l =
  if maxRPS l =? 0 then (Some true, l)
  else
    let l' := refilled oor now l in
    if tokens l' =? 0 then (Some false, l')
    else (Some true, set f_tokens (u64 (tokens l' - 1)) l').
Proof.
  unfold Allow. rewrite run_bind. simpl fst. simpl snd.
  destruct (maxRPS l =? 0); [reflexivity | ].
  rewrite run_bind, run_calculateTokenRefill. simpl fst. simpl snd.
  apply run_allowLoop.
Qed.

Lemma run_TryAllow fuel n now l :
  run (TryAllow oor (S fuel) n) now l =
  if maxRPS l =? 0 then (Some true, l)
  else if n =? 0 then (Some true, l)
  else if capacity l <? n then (Some false, l)
  else
    let l' := refilled oor now l in
    if tokens l' <? n then (Some false, l')
    else (Some true, set f_tokens (u64 (tokens l' - n)) l').
Proof.
  unfold TryAllow. rewrite run_bind. simpl fst. simpl snd.
  destruct (maxRPS l =? 0); [reflexivity | ].
  destruct (n =? 0); [reflexivity | ].
  rewrite run_bind. simpl fst. simpl snd.
  destruct (capacity l <? n); [reflexivity | ].
  rewrite run_bind, run_calculateTokenRefill. simpl fst. simpl snd.
  apply run_tryAllowLoop.
Qed.

Lemma run_Available now l :
  run (Available oor) now l =
  (tokens (refilled oor now l), refilled oor now l).
Proof.
  unfold Available. rewrite run_bind, run_calculateTokenRefill. reflexivity.
Qed.

Lemma run_SetMaxRPS newMaxRPS factor now l :
  run (SetMaxRPS oor newMaxRPS factor) now l =
  let newCapacity := deriveCapacity oor newMaxRPS (clampFactor factor) in
  (tt, {| maxRPS := newMaxRPS; capacity := newCapacity;
          tokens := if newCapacity <? tokens l then newCapacity else tokens l;
          lastRefill := lastRefill l |}).
Proof.
  unfold SetMaxRPS. simpl.
  destruct (deriveCapacity oor newMaxRPS (clampFactor factor) <? tokens l);
    simpl; [ rewrite Z.eqb_refl | ]; reflexivity.
Qed.

End Sequential.

(** ** Construction *)

Section Construction.

Variable oor : Float64.t -> Z.

Lemma to_uint64_range f : 0 <= Float64.to_uint64 oor f < 2 ^ 64.
Proof.
  unfold Float64.to_uint64.
  destruct (Float64.trunc f) as [z|]; [|apply u64_range].
  destruct (Z.leb_spec 0 z); destruct (Z.ltb_spec z (2 ^ 64)); simpl;
    try apply u64_range. lia.
Qed.

Lemma deriveCapacity_lower maxRPS factor :
  1 <= deriveCapacity oor maxRPS factor /\
  maxRPS <= deriveCapacity oor maxRPS factor.
Proof. unfold deriveCapacity. lia. Qed.

Lemma NewLimiter_bounded now maxRPS factor :
  bounded_tokens (NewLimiter oor now maxRPS factor).
Proof.
  unfold bounded_tokens, NewLimiter. simpl.
  pose proof (deriveCapacity_lower maxRPS (clampFactor factor)). lia.
Qed.

Lemma NewLimiter_10_2 now :
  NewLimiter oor now 10 Float64.two =
  {| maxRPS := 10; capacity := 20; tokens := 20; lastRefill := now |}.
Proof. reflexivity. Qed.

End Construction.

(** ** Sequences of calls *)

Lemma last_cons_default {A : Type} (xs : list A) : forall x d d',
  last (x :: xs) d = last (x :: xs) d'.
Proof.
  induction xs as [|y ys IH]; intros x d d'; [reflexivity|].
  change (last (y :: ys) d = last (y :: ys) d'). apply IH.
Qed.

Section Calls.

Variable oor : Float64.t -> Z.

Lemma run_perform fuel c now l :
  run (perform oor fuel c) now l =
  match c with
  | CallAllow =>
      (Verdict (fst (run (Allow oor fuel) now l)),
       snd (run (Allow oor fuel) now l))
  | CallTryAllow n =>
      (Verdict (fst (run (TryAllow oor fuel n) now l)),
       snd (run (TryAllow oor fuel n) now l))
  | CallAvailable =>
      (Count (fst (run (Available oor) now l)),
       snd (run (Available oor) now l))
  end.
Proof. destruct c; unfold perform; rewrite run_bind; reflexivity. Qed.

Lemma runCalls_cons fuel now c calls l :
  runCalls oor fuel ((now, c) :: calls) l =
  run (perform oor fuel c) now l ::
  runCalls oor fuel calls (snd (run (perform oor fuel c) now l)).
Proof.
  cbn [runCalls]. destruct (run (perform oor fuel c) now l). reflexivity.
Qed.

Lemma finalLimiter_cons l r l' trace :
  finalLimiter l ((r, l') :: trace) = finalLimiter l' trace.
Proof.
  unfold finalLimiter. cbn [map snd].
  destruct (map snd trace) as [|a tl]; [reflexivity|].
  change (last (l' :: a :: tl) l) with (last (a :: tl) l).
  apply last_cons_default.
Qed.

End Calls.

(** ** Draining the bucket *)

Section Drain.

Variable oor : Float64.t -> Z.

(** One [Allow] while no token is due. *)
Lemma run_Allow_idle fuel now l :
  maxRPS l <> 0 ->
  tokensDue oor now l = 0 ->
  lastRefill l <= now ->
  - 2 ^ 63 <= now - lastRefill l < 2 ^ 63 ->
  exists l',
    run (Allow oor (S fuel)) now l = (Some (negb (tokens l =? 0)), l') /\
    maxRPS l' = maxRPS l /\ capacity l' = capacity l /\
    lastRefill l' = now /\
    tokens l' = if tokens l =? 0 then 0 else u64 (tokens l - 1).
Proof.
  intros HR Hdue Hnow Hrange.
  rewrite run_Allow. apply Z.eqb_neq in HR. rewrite HR. cbv zeta.
  assert (Ht : tokens (refilled oor now l) = tokens l)
    by (apply refilled_tokens_idle; exact Hdue).
  assert (Hl : lastRefill (refilled oor now l) = now).
  { rewrite refilled_eq, Hdue, elapsed_positive, i64_small by exact Hrange.
    simpl. destruct (Z.ltb_spec 0 (now - lastRefill l)); simpl; lia. }
  rewrite Ht. destruct (tokens l =? 0) eqn:E0.
  - exists (refilled oor now l). simpl.
    rewrite refilled_maxRPS, refilled_capacity.
    apply Z.eqb_eq in E0. repeat split; congruence.
  - eexists. split; [reflexivity|]. simpl.
    rewrite refilled_maxRPS, refilled_capacity. repeat split; assumption.
Qed.

Lemma runAllows_small_gaps fuel gap : forall nows l n,
  0 < maxRPS l -> gap * maxRPS l <= 1000000000 ->
  tokens l = Z.of_nat n -> tokens l < 2 ^ 64 ->
  small_gaps gap (lastRefill l) nows ->
  map fst (runAllows oor (S fuel) nows l) = drain n (length nows) /\
  tokens (finalLimiter l (runAllows oor (S fuel) nows l)) =
    Z.of_nat (n - length nows).
Proof.
  induction nows as [|now nows IH]; intros l n HR Hgap Hn H64 Hsg.
  - simpl. unfold finalLimiter. simpl. rewrite Hn. split; [reflexivity|].
    f_equal. lia.
  - destruct Hsg as [Hnow Hsg].
    assert (Hdue : tokensDue oor now l = 0).
    { apply tokensDue_subtoken; try lia. nia. }
    assert (Hsmall : gap <= 1000000000) by nia.
    destruct (run_Allow_idle fuel now l) as (l' & Hrun & HR' & HC' & HL' & HT');
      try lia.
    unfold runAllows in *. cbn [map]. rewrite runCalls_cons, run_perform, Hrun.
    cbn [fst snd]. rewrite finalLimiter_cons. cbn [length].
    destruct n as [|n'].
    + (* empty bucket *)
      assert (E0 : (tokens l =? 0) = true) by (apply Z.eqb_eq; lia).
      rewrite E0 in *. simpl negb.
      destruct (IH l' O) as [IH1 IH2]; try lia.
      { rewrite HL'. exact Hsg. }
      cbn [map fst]. rewrite IH1, IH2. split; reflexivity.
    + assert (E0 : (tokens l =? 0) = false) by (apply Z.eqb_neq; lia).
      rewrite E0 in *. simpl negb.
      assert (HT'' : tokens l' = Z.of_nat n').
      { rewrite HT', u64_small; lia. }
      destruct (IH l' n') as [IH1 IH2]; try lia.
      { rewrite HL'. exact Hsg. }
      cbn [map fst]. rewrite IH1, IH2. split; reflexivity.
Qed.

End Drain.

(** C1 (exact consumption).  A limiter built with [maxRPS = 10] and factor
    [2.0] holds 20 tokens.  Of 21 calls of [Allow], issued while the clock
    stands still or advances by less than a tenth of a second between two
    readings (so that no refill adds a token), the first 20 return true and
    the 21st returns false, and the bucket is then empty. *)
Theorem exact_consumption (oor : Float64.t -> Z) (fuel : nat) (t0 : Z)
  (nows : list Z) :
  length nows = 21%nat ->
  small_gaps 100000000 t0 nows ->
  let limiter := NewLimiter oor t0 10 Float64.two in
  let trace := runAllows oor (S fuel) nows limiter in
  map fst trace =
    repeat (Verdict (Some true)) 20 ++ [Verdict (Some false)] /\
  tokens (finalLimiter limiter trace) = 0.
Proof.
  intros Hlen Hgaps limiter trace. unfold trace, limiter.
  rewrite NewLimiter_10_2.
  destruct (runAllows_small_gaps oor fuel 100000000 nows
              {| maxRPS := 10; capacity := 20; tokens := 20; lastRefill := t0 |}
              20%nat) as [Hv Ht]; cbn [maxRPS tokens lastRefill]; try lia.
  - exact Hgaps.
  - rewrite Hv, Ht, Hlen. split; reflexivity.
Qed.

Lemma exact_consumption_witness :
  let oor := fun _ : Float64.t => 0 in
  let nows := map (fun i => Z.of_nat i * 1000000) (seq 1 21) in
  let limiter := NewLimiter oor 0 10 Float64.two in
  let trace := runAllows oor 1 nows limiter in
  map fst trace =
    repeat (Verdict (Some true)) 20 ++ [Verdict (Some false)] /\
  tokens (finalLimiter limiter trace) = 0.
Proof.
  apply (exact_consumption (fun _ => 0) 0 0
           (map (fun i => Z.of_nat i * 1000000) (seq 1 21))).
  - reflexivity.
  - cbn. repeat split; lia.
Defined.

(** ** The bound on the token count *)

Lemma keeps_bound_bind {A B : Type} c (p : prog A) (q : A -> prog B) :
  keeps_bound c p -> (forall a, keeps_bound c (q a)) ->
  keeps_bound c (bind p q).
Proof.
  intros Hp Hq.
  induction p as [a | k IH | m f k IH | m f v k IH | f old new k IH];
    cbn [bind keeps_bound] in *.
  - apply Hq.
  - intros t. apply IH, Hp.
  - destruct f; try (intros v; apply IH, Hp); [apply IH, Hp | ].
    intros v Hv. apply IH, Hp, Hv.
  - destruct f; try (apply IH, Hp); [contradiction | ].
    split; [apply Hp | apply IH, Hp].
  - destruct f; try (intros b; apply IH, Hp); [contradiction | ].
    split; [apply Hp | intros b; apply IH, Hp].
Qed.

Section Bound.

Variable oor : Float64.t -> Z.

Lemma keeps_bound_calculateTokenRefill c :
  0 <= c -> keeps_bound c (calculateTokenRefill oor).
Proof.
  intros Hc. unfold calculateTokenRefill. cbn. intros t v.
  destruct (Float64.ltb _ _); cbn; [|exact I].
  intros [ | ]; cbn; [|exact I]. intros r.
  destruct (0 <? _); cbn; [|exact I].
  intros current Hcur. split; [|exact I].
  pose proof (u64_range (current + newTokensFor oor r (elapsedSeconds t v))). lia.
Qed.

Lemma keeps_bound_allowLoop c fuel : keeps_bound c (allowLoop fuel).
Proof.
  induction fuel as [|fuel IH]; cbn; [exact I|].
  intros current Hcur. destruct (Z.eqb_spec current 0); cbn; [exact I|].
  split.
  - intros _. pose proof (u64_le (current - 1)). lia.
  - intros [ | ]; [exact I | exact IH].
Qed.

Lemma keeps_bound_tryAllowLoop c fuel n :
  0 <= n -> keeps_bound c (tryAllowLoop fuel n).
Proof.
  intros Hn. induction fuel as [|fuel IH]; cbn; [exact I|].
  intros current Hcur. destruct (Z.ltb_spec current n); cbn; [exact I|].
  split.
  - intros _. pose proof (u64_le (current - n)). lia.
  - intros [ | ]; [exact I | exact IH].
Qed.

Lemma keeps_bound_Allow c fuel : 0 <= c -> keeps_bound c (Allow oor fuel).
Proof.
  intros Hc. unfold Allow. apply keeps_bound_bind.
  - cbn. intros v. exact I.
  - intros r. destruct (r =? 0); [exact I|].
    apply keeps_bound_bind; [apply keeps_bound_calculateTokenRefill; exact Hc|].
    intros _. apply keeps_bound_allowLoop.
Qed.

Lemma keeps_bound_TryAllow c fuel n :
  0 <= c -> 0 <= n -> keeps_bound c (TryAllow oor fuel n).
Proof.
  intros Hc Hn. unfold TryAllow. apply keeps_bound_bind.
  - cbn. intros v. exact I.
  - intros r. destruct (r =? 0); [exact I|]. destruct (n =? 0); [exact I|].
    apply keeps_bound_bind; [exact I|].
    intros cap. destruct (cap <? n); [exact I|].
    apply keeps_bound_bind; [apply keeps_bound_calculateTokenRefill; exact Hc|].
    intros _. apply keeps_bound_tryAllowLoop. exact Hn.
Qed.

Lemma keeps_bound_Available c : 0 <= c -> keeps_bound c (Available oor).
Proof.
  intros Hc. unfold Available.
  apply keeps_bound_bind; [apply keeps_bound_calculateTokenRefill; exact Hc|].
  intros _. cbn. intros v _. exact I.
Qed.

Lemma keeps_bound_perform c fuel call :
  0 <= c -> call_ok call -> keeps_bound c (perform oor fuel call).
Proof.
  intros Hc Hok. destruct call as [ | n | ]; unfold perform;
    apply keeps_bound_bind; try (intros; exact I).
  - apply keeps_bound_Allow. exact Hc.
  - apply keeps_bound_TryAllow; [exact Hc | apply Hok].
  - apply keeps_bound_Available. exact Hc.
Qed.

End Bound.

(** A call that runs alone and keeps the bound leaves the count within
    it. *)
Lemma run_keeps_bound {A : Type} (p : prog A) now : forall l,
  keeps_bound (capacity l) p -> bounded_tokens l ->
  capacity (snd (run p now l)) = capacity l /\
  bounded_tokens (snd (run p now l)).
Proof.
  induction p as [a | k IH | m f k IH | m f v k IH | f old new k IH];
    intros l Hp Hb; cbn [run keeps_bound] in *.
  - split; [reflexivity | exact Hb].
  - apply IH; [apply Hp | exact Hb].
  - apply IH; [|exact Hb]. destruct f; cbn [get]; try apply Hp. exact Hb.
  - destruct f; try contradiction.
    + destruct (IH (set f_maxRPS v l)) as [H1 H2]; [exact Hp | exact Hb | ].
      split; [exact H1 | exact H2].
    + destruct Hp as [Hv Hk].
      destruct (IH (set f_tokens v l)) as [H1 H2]; [exact Hk | exact Hv | ].
      split; [exact H1 | exact H2].
    + destruct (IH (set f_lastRefill v l)) as [H1 H2]; [exact Hp | exact Hb | ].
      split; [exact H1 | exact H2].
  - destruct f; try contradiction; cbn [get].
    + destruct (maxRPS l =? old).
      * destruct (IH true (set f_maxRPS new l)) as [H1 H2]; [apply Hp | exact Hb | ].
        split; [exact H1 | exact H2].
      * apply IH; [apply Hp | exact Hb].
    + destruct Hp as [Hv Hk]. destruct (Z.eqb_spec (tokens l) old) as [E|E].
      * destruct (IH true (set f_tokens new l)) as [H1 H2];
          [apply Hk | apply Hv; rewrite <- E; exact Hb | ].
        split; [exact H1 | exact H2].
      * apply IH; [apply Hk | exact Hb].
    + destruct (lastRefill l =? old).
      * destruct (IH true (set f_lastRefill new l)) as [H1 H2]; [apply Hp | exact Hb | ].
        split; [exact H1 | exact H2].
      * apply IH; [apply Hp | exact Hb].
Qed.

Lemma runCalls_bounded oor fuel : forall calls l,
  Forall (fun c => call_ok (snd c)) calls ->
  bounded_tokens l ->
  Forall (fun rl => bounded_tokens (snd rl) /\ capacity (snd rl) = capacity l)
    (runCalls oor fuel calls l).
Proof.
  induction calls as [|[now c] calls IH]; intros l Hok Hb; [constructor|].
  rewrite runCalls_cons. inversion Hok as [|? ? Hc Hcs]; subst.
  assert (Hcap : 0 <= capacity l) by (unfold bounded_tokens in Hb; lia).
  destruct (run_keeps_bound (perform oor fuel c) now l) as [H1 H2];
    [apply keeps_bound_perform; assumption | exact Hb | ].
  constructor; [split; assumption|].
  specialize (IH _ Hcs H2). rewrite H1 in IH. exact IH.
Qed.

(** C2 (bounded tokens).  Whatever sequence of [Allow], [TryAllow] and
    [Available] calls is issued on a freshly constructed limiter, at
    whatever clock readings, the token count lies between 0 and the
    capacity after every call. *)
Theorem tokens_within_capacity (oor : Float64.t -> Z) (fuel : nat) (t0 : Z)
  (maxRate : Z) (capacityFactor : Float64.t) (calls : list (Z * call)) :
  Forall (fun c => call_ok (snd c)) calls ->
  Forall (fun rl => 0 <= tokens (snd rl) <= capacity (snd rl))
    (runCalls oor fuel calls (NewLimiter oor t0 maxRate capacityFactor)).
Proof.
  intros Hok.
  pose proof (runCalls_bounded oor fuel calls _ Hok
                (NewLimiter_bounded oor t0 maxRate capacityFactor)) as H.
  eapply Forall_impl; [|exact H]. intros rl [Hb _]. exact Hb.
Qed.

Lemma tokens_within_capacity_witness :
  Forall (fun rl => 0 <= tokens (snd rl) <= capacity (snd rl))
    (runCalls (fun _ => 0) 1
       [(0, CallTryAllow 15); (5, CallAllow); (1000000000, CallAvailable);
        (1000000001, CallTryAllow 30)]
       (NewLimiter (fun _ => 0) 0 10 Float64.two)).
Proof.
  apply (tokens_within_capacity (fun _ => 0) 1 0 10 Float64.two
           [(0, CallTryAllow 15); (5, CallAllow); (1000000000, CallAvailable);
            (1000000001, CallTryAllow 30)]).
  repeat constructor; cbn; unfold is_u64; lia.
Defined.

(** *** Under interleaving *)

Lemma act_keeps_bound {A : Type} l (p : prog A) l' p' :
  act l p l' p' ->
  keeps_bound (capacity l) p -> bounded_tokens l ->
  keeps_bound (capacity l) p' /\ capacity l' = capacity l /\
  bounded_tokens l'.
Proof.
  intros Hact Hp Hb.
  destruct Hact as [l k t | l m f k | l m f v k | l f old new k E | l f old new k E];
    cbn [keeps_bound] in Hp.
  - refine (conj _ (conj eq_refl Hb)). apply Hp.
  - refine (conj _ (conj eq_refl Hb)).
    destruct f; cbn [get]; try apply Hp. exact Hb.
  - destruct f; try contradiction.
    + exact (conj Hp (conj eq_refl Hb)).
    + destruct Hp as [Hv Hk]. exact (conj Hk (conj eq_refl Hv)).
    + exact (conj Hp (conj eq_refl Hb)).
  - destruct f; try contradiction.
    + exact (conj (Hp true) (conj eq_refl Hb)).
    + destruct Hp as [Hv Hk]. cbn [get] in E.
      refine (conj (Hk true) (conj eq_refl _)).
      apply Hv. rewrite <- E. exact Hb.
    + exact (conj (Hp true) (conj eq_refl Hb)).
  - destruct f; try contradiction.
    + exact (conj (Hp false) (conj eq_refl Hb)).
    + exact (conj (proj2 Hp false) (conj eq_refl Hb)).
    + exact (conj (Hp false) (conj eq_refl Hb)).
Qed.

Lemma step_keeps_bound {A : Type} l (ts : list (prog A)) l' ts' :
  step (l, ts) (l', ts') ->
  Forall (keeps_bound (capacity l)) ts -> bounded_tokens l ->
  Forall (keeps_bound (capacity l')) ts' /\ capacity l' = capacity l /\
  bounded_tokens l'.
Proof.
  intros Hstep Hts Hb.
  inversion Hstep as [l0 l0' before p p' after Hact]; subst.
  apply Forall_app in Hts. destruct Hts as [Hbefore Hpafter].
  inversion Hpafter as [|? ? Hp Hafter]; subst.
  destruct (act_keeps_bound _ _ _ _ Hact Hp Hb) as (Hp' & Hc & Hb').
  rewrite Hc. split; [|split; [reflexivity | exact Hb']].
  apply Forall_app. split; [exact Hbefore|]. constructor; assumption.
Qed.

Lemma steps_keep_bound {A : Type} (c c' : ATLimiter * list (prog A)) :
  steps c c' ->
  Forall (keeps_bound (capacity (fst c))) (snd c) -> bounded_tokens (fst c) ->
  capacity (fst c') = capacity (fst c) /\ bounded_tokens (fst c').
Proof.
  intros Hsteps. induction Hsteps as [c | c1 c2 c3 Hstep Hsteps IH];
    intros Hts Hb.
  - split; [reflexivity | exact Hb].
  - destruct c1 as [l1 ts1], c2 as [l2 ts2]. cbn [fst snd] in *.
    destruct (step_keeps_bound _ _ _ _ Hstep Hts Hb) as (Hts2 & Hc & Hb2).
    destruct (IH Hts2 Hb2) as [Hc3 Hb3].
    split; [congruence | exact Hb3].
Qed.

(** The bound holds at every instant of every interleaving of the atomic
    actions of any number of calls, whatever the clock reads. *)
Lemma interleaving_keeps_bound (oor : Float64.t -> Z) (fuel : nat)
  (t0 maxRate : Z) (capacityFactor : Float64.t) (calls : list call) l ts :
  Forall call_ok calls ->
  steps (NewLimiter oor t0 maxRate capacityFactor,
         map (perform oor fuel) calls) (l, ts) ->
  0 <= tokens l <= capacity l.
Proof.
  intros Hok Hsteps.
  pose proof (NewLimiter_bounded oor t0 maxRate capacityFactor) as Hb.
  destruct (steps_keep_bound _ _ Hsteps) as [_ H]; cbn [fst snd].
  - apply Forall_map. eapply Forall_impl; [|exact Hok].
    intros c Hc. apply keeps_bound_perform; [|exact Hc].
    unfold bounded_tokens in Hb. lia.
  - exact Hb.
  - exact H.
Qed.

(** A call that runs alone is one of the interleavings: [run] follows
    [step] to the end of the call. *)
Lemma run_steps {A : Type} (p : prog A) now : forall l,
  steps (l, [p]) (snd (run p now l), [Ret (fst (run p now l))]).
Proof.
  induction p as [a | k IH | m f k IH | m f v k IH | f old new k IH];
    intros l; cbn [run].
  - apply steps_refl.
  - eapply steps_next; [|apply IH].
    exact (step_one l l [] _ _ [] (act_now l k now)).
  - eapply steps_next; [|apply IH].
    exact (step_one l l [] _ _ [] (act_load l m f k)).
  - eapply steps_next; [|apply IH].
    exact (step_one l _ [] _ _ [] (act_store l m f v k)).
  - destruct (Z.eqb_spec (get f l) old) as [E|E].
    + eapply steps_next; [|apply IH].
      exact (step_one l _ [] _ _ [] (act_cas_hit l f old new k E)).
    + eapply steps_next; [|apply IH].
      exact (step_one l l [] _ _ [] (act_cas_miss l f old new k E)).
Qed.

(** ** Bulk admission *)

Section Bulk.

Variable oor : Float64.t -> Z.

(** A second refill at the same clock reading changes nothing. *)
Lemma refilled_again now l :
  refilled oor now (refilled oor now l) = refilled oor now l.
Proof.
  rewrite (refilled_eq oor now l).
  destruct (Float64.ltb Float64.zero (elapsedSeconds now (lastRefill l))) eqn:E.
  - assert (H : forall l', lastRefill l' = now -> refilled oor now l' = l').
    { intros l' Hl'. rewrite refilled_eq, Hl', elapsedSeconds_same. reflexivity. }
    destruct (0 <? tokensDue oor now l); apply H; reflexivity.
  - rewrite refilled_eq, E. reflexivity.
Qed.

Lemma refilled_lastRefill_set now l v :
  refilled oor now (set f_tokens v (refilled oor now l)) =
  set f_tokens v (refilled oor now l).
Proof.
  rewrite (refilled_eq oor now l).
  destruct (Float64.ltb Float64.zero (elapsedSeconds now (lastRefill l))) eqn:E.
  - assert (H : forall l', lastRefill l' = now -> refilled oor now l' = l').
    { intros l' Hl'. rewrite refilled_eq, Hl', elapsedSeconds_same. reflexivity. }
    destruct (0 <? tokensDue oor now l); apply H; reflexivity.
  - rewrite refilled_eq. cbn [set lastRefill]. rewrite E. reflexivity.
Qed.

(** A refill keeps the count within the capacity. *)
Lemma refilled_bounded now l :
  bounded_tokens l -> bounded_tokens (refilled oor now l).
Proof.
  intros Hb.
  destruct (run_keeps_bound (calculateTokenRefill oor) now l) as [_ H].
  - apply keeps_bound_calculateTokenRefill. unfold bounded_tokens in Hb. lia.
  - exact Hb.
  - exact H.
Qed.

(** C3 (bulk admission boundary).  On a limiter with a positive rate, let
    [available] be what [Available] returns at some clock reading.
    [TryAllow available] at that reading returns true, after which
    [Available] returns 0.  [TryAllow (available + 1)] returns false,
    after which [Available] still returns [available].  [TryAllow n] with
    [n] above the capacity returns false and leaves the limiter untouched,
    whatever the token count is. *)
Theorem bulk_admission_boundary (fuel : nat) (now : Z) (l : ATLimiter) :
  0 < maxRPS l ->
  0 <= tokens l <= capacity l ->
  let available := fst (run (Available oor) now l) in
  let exact := run (TryAllow oor (S fuel) available) now l in
  let over := run (TryAllow oor (S fuel) (available + 1)) now l in
  (fst exact = Some true /\ fst (run (Available oor) now (snd exact)) = 0) /\
  (is_u64 (available + 1) ->
   fst over = Some false /\
   fst (run (Available oor) now (snd over)) = available) /\
  (forall n count,
     is_u64 n -> capacity l < n ->
     run (TryAllow oor (S fuel) n) now (set f_tokens count l) =
     (Some false, set f_tokens count l)).
Proof.
  intros HR Hb available exact over.
  assert (HR0 : (maxRPS l =? 0) = false) by (apply Z.eqb_neq; lia).
  assert (Ea : available = tokens (refilled oor now l)).
  { unfold available. rewrite run_Available. reflexivity. }
  pose proof (refilled_bounded now l Hb) as Hb'. unfold bounded_tokens in Hb'.
  rewrite refilled_capacity, <- Ea in Hb'.
  split; [|split].
  - unfold exact. rewrite run_TryAllow, HR0.
    destruct (Z.eqb_spec available 0) as [E0|E0].
    + cbn [fst snd]. split; [reflexivity|].
      rewrite run_Available. cbn [fst]. lia.
    + replace (capacity l <? available) with false
        by (symmetry; apply Z.ltb_ge; lia).
      cbv zeta. rewrite <- Ea, Z.ltb_irrefl. cbn [fst snd].
      split; [reflexivity|].
      rewrite run_Available. cbn [fst].
      rewrite refilled_lastRefill_set, Z.sub_diag. reflexivity.
  - intros _. unfold over. rewrite run_TryAllow, HR0.
    replace (available + 1 =? 0) with false by (symmetry; apply Z.eqb_neq; lia).
    destruct (capacity l <? available + 1).
    + cbn [fst snd]. split; [reflexivity|]. rewrite run_Available. cbn [fst]. lia.
    + cbv zeta. rewrite <- Ea.
      replace (available <? available + 1) with true
        by (symmetry; apply Z.ltb_lt; lia).
      cbn [fst snd]. split; [reflexivity|].
      rewrite run_Available. cbn [fst]. rewrite refilled_again. lia.
  - intros n count Hn Hcap. rewrite run_TryAllow.
    destruct l as [r c t lr]. cbn [set maxRPS capacity] in *. rewrite HR0.
    replace (n =? 0) with false by (symmetry; apply Z.eqb_neq; unfold is_u64 in Hn; lia).
    replace (c <? n) with true by (symmetry; apply Z.ltb_lt; lia).
    reflexivity.
Qed.

End Bulk.

Lemma bulk_admission_boundary_witness :
  let oor := fun _ : Float64.t => 0 in
  let l := {| maxRPS := 10; capacity := 20; tokens := 5; lastRefill := 0 |} in
  let now := 500000000 in
  let available := fst (run (Available oor) now l) in
  let exact := run (TryAllow oor 1 available) now l in
  let over := run (TryAllow oor 1 (available + 1)) now l in
  (fst exact = Some true /\ fst (run (Available oor) now (snd exact)) = 0) /\
  (is_u64 (available + 1) ->
   fst over = Some false /\
   fst (run (Available oor) now (snd over)) = available) /\
  (forall n count,
     is_u64 n -> capacity l < n ->
     run (TryAllow oor 1 n) now (set f_tokens count l) =
     (Some false, set f_tokens count l)).
Proof.
  apply (bulk_admission_boundary (fun _ => 0) 0 500000000
           {| maxRPS := 10; capacity := 20; tokens := 5; lastRefill := 0 |}).
  - reflexivity.
  - cbn. lia.
Defined.

(** ** Capacity derivation *)

(** C5 (capacity derivation).  [NewLimiter] and [SetMaxRPS] raise a factor
    below [1.0] to [1.0] and set the capacity to
    [max(uint64(float64(maxRPS) * factor), 1, maxRPS)].  The capacity is
    therefore at least 1 and at least [maxRPS]; it is 150 for
    [(100, 1.5)] and 100 for [(100, 0.2)]. *)
Theorem capacity_derivation (oor : Float64.t -> Z) (now : Z) (maxRate : Z)
  (capacityFactor : Float64.t) (l : ATLimiter) :
  let factor :=
    if Float64.ltb capacityFactor Float64.one then Float64.one
    else capacityFactor in
  let derived :=
    Z.max (Z.max (Float64.to_uint64 oor
                    (Float64.mul (Float64.of_int maxRate) factor)) 1) maxRate in
  capacity (NewLimiter oor now maxRate capacityFactor) = derived /\
  capacity (snd (run (SetMaxRPS oor maxRate capacityFactor) now l)) = derived /\
  maxRPS (snd (run (SetMaxRPS oor maxRate capacityFactor) now l)) = maxRate /\
  1 <= derived /\ maxRate <= derived /\
  capacity (NewLimiter oor now 100 Float64.one_and_half) = 150 /\
  capacity (NewLimiter oor now 100 Float64.one_fifth) = 100.
Proof.
  intros factor derived.
  split; [reflexivity|]. split; [rewrite run_SetMaxRPS; reflexivity|].
  split; [rewrite run_SetMaxRPS; reflexivity|].
  split; [unfold derived; lia|]. split; [unfold derived; lia|].
  split; reflexivity.
Qed.

(** With a factor below [1.0] the capacity is the rate itself (and 1 for
    no rate), as long as float64 represents the rate exactly. *)
Lemma capacity_of_small_factor (oor : Float64.t -> Z) (maxRate : Z)
  (capacityFactor : Float64.t) :
  0 <= maxRate < 2 ^ 53 ->
  Float64.ltb capacityFactor Float64.one = true ->
  deriveCapacity oor maxRate (clampFactor capacityFactor) = Z.max maxRate 1.
Proof.
  intros HR Hlt. unfold clampFactor, deriveCapacity. rewrite Hlt.
  rewrite to_uint64_mul_one by exact HR. lia.
Qed.

Lemma factor_constants :
  Float64.one_and_half = Float64.div (Float64.of_int 3) (Float64.of_int 2) /\
  Float64.one_fifth = Float64.div (Float64.of_int 1) (Float64.of_int 5).
Proof. split; reflexivity. Qed.

(** ** Sub-token quantization *)

(** C6 (sub-token quantization).  A refill that runs alone, a positive time
    but less than [1/maxRPS] seconds after the last one, adds no token and
    still moves [lastRefill] to the current time.  The time is lost: a
    second refill, again less than [1/maxRPS] seconds later, adds no token
    either, however long ago the first [lastRefill] was. *)
Theorem subtoken_quantization (oor : Float64.t -> Z) (now : Z)
  (l : ATLimiter) :
  0 < maxRPS l ->
  0 < now - lastRefill l ->
  (now - lastRefill l) * maxRPS l < 1000000000 ->
  let l' := snd (run (calculateTokenRefill oor) now l) in
  tokens l' = tokens l /\
  lastRefill l' = now /\
  maxRPS l' = maxRPS l /\ capacity l' = capacity l /\
  (forall later,
     0 < later - now -> (later - now) * maxRPS l < 1000000000 ->
     tokens (snd (run (calculateTokenRefill oor) later l')) = tokens l).
Proof.
  intros HR Hd Hprod l'.
  assert (Hsmall : now - lastRefill l < 1000000000) by nia.
  assert (Hdue : tokensDue oor now l = 0) by (apply tokensDue_subtoken; lia).
  assert (El' : l' = set f_lastRefill now l).
  { unfold l'. rewrite run_calculateTokenRefill. cbn [snd].
    rewrite refilled_eq, Hdue, elapsed_positive, i64_small by lia.
    replace (0 <? now - lastRefill l) with true by (symmetry; apply Z.ltb_lt; lia).
    reflexivity. }
  rewrite El'. cbn [set tokens lastRefill maxRPS capacity].
  split; [reflexivity|]. split; [reflexivity|]. split; [reflexivity|].
  split; [reflexivity|].
  intros later Hl Hlp. rewrite run_calculateTokenRefill. cbn [snd].
  rewrite refilled_tokens_idle; [reflexivity|].
  apply tokensDue_subtoken; cbn [set tokens lastRefill maxRPS capacity]; lia.
Qed.

Lemma subtoken_quantization_witness :
  let oor := fun _ : Float64.t => 0 in
  let l := {| maxRPS := 10; capacity := 20; tokens := 3; lastRefill := 0 |} in
  let l' := snd (run (calculateTokenRefill oor) 60000000 l) in
  tokens l' = tokens l /\
  lastRefill l' = 60000000 /\
  maxRPS l' = maxRPS l /\ capacity l' = capacity l /\
  (forall later,
     0 < later - 60000000 -> (later - 60000000) * maxRPS l < 1000000000 ->
     tokens (snd (run (calculateTokenRefill oor) later l')) = tokens l).
Proof.
  apply (subtoken_quantization (fun _ => 0) 60000000
           {| maxRPS := 10; capacity := 20; tokens := 3; lastRefill := 0 |}).
  - reflexivity.
  - reflexivity.
  - reflexivity.
Defined.

(** Two steps of 60 ms at 10 tokens per second: 120 ms have passed, more
    than the 100 ms a token takes, and the count has not moved. *)
Example subtoken_time_is_lost :
  let oor := fun _ : Float64.t => 0 in
  let l := {| maxRPS := 10; capacity := 20; tokens := 3; lastRefill := 0 |} in
  tokens (refilled oor 120000000 (refilled oor 60000000 l)) = 3 /\
  tokens (refilled oor 120000000 l) = 4.
Proof. split; reflexivity. Qed.

(** ** Unlimited mode *)

Lemma run_Allow_unlimited oor fuel now l :
  maxRPS l = 0 ->
  run (Allow oor fuel) now l = (Some true, l) /\
  events (Allow oor fuel) now l = [EvLoad Plain f_maxRPS 0].
Proof.
  intros H0. unfold Allow. cbn. rewrite H0. split; reflexivity.
Qed.

(** C7 (unlimited mode).  On a limiter constructed with [maxRPS = 0] every
    call of [Allow] returns true, at every clock reading and after any
    number of earlier calls, and does no token accounting: it reads
    [maxRPS] and nothing else, and leaves the limiter as it was
    constructed. *)
Theorem unlimited_allow (oor : Float64.t -> Z) (fuel : nat) (t0 : Z)
  (capacityFactor : Float64.t) (nows : list Z) :
  let limiter := NewLimiter oor t0 0 capacityFactor in
  Forall (fun rl => rl = (Verdict (Some true), limiter))
    (runAllows oor fuel nows limiter) /\
  (forall now, events (Allow oor fuel) now limiter = [EvLoad Plain f_maxRPS 0]).
Proof.
  intros limiter. split.
  - unfold runAllows. induction nows as [|now nows IH]; [constructor|].
    cbn [map]. rewrite runCalls_cons, run_perform.
    destruct (run_Allow_unlimited oor fuel now limiter eq_refl) as [Hrun _].
    rewrite Hrun. cbn [fst snd]. constructor; [reflexivity | exact IH].
  - intros now. apply run_Allow_unlimited. reflexivity.
Qed.

(** ** Reconfiguration *)

(** C8 (reconfiguration shrink).  When [SetMaxRPS] runs alone and derives a
    capacity below the current token count, it publishes the new rate and
    capacity, reads the count once and lowers it to the new capacity with
    one compare-and-swap from the value it read; an [Available] that
    follows returns at most the new capacity. *)
Theorem reconfiguration_shrink (oor : Float64.t -> Z) (newMaxRPS : Z)
  (newCapacityFactor : Float64.t) (now later : Z) (l : ATLimiter) :
  let newCapacity :=
    deriveCapacity oor newMaxRPS (clampFactor newCapacityFactor) in
  newCapacity < tokens l ->
  let l' := snd (run (SetMaxRPS oor newMaxRPS newCapacityFactor) now l) in
  events (SetMaxRPS oor newMaxRPS newCapacityFactor) now l =
    [EvStore Atomic f_maxRPS newMaxRPS; EvStore Atomic f_capacity newCapacity;
     EvLoad Atomic f_tokens (tokens l);
     EvSwap f_tokens (tokens l) newCapacity true] /\
  capacity l' = newCapacity /\ tokens l' = newCapacity /\
  fst (run (Available oor) later l') <= newCapacity.
Proof.
  intros newCapacity Hlt l'.
  assert (El' : l' = {| maxRPS := newMaxRPS; capacity := newCapacity;
                        tokens := newCapacity; lastRefill := lastRefill l |}).
  { unfold l'. rewrite run_SetMaxRPS. cbn [snd]. fold newCapacity.
    replace (newCapacity <? tokens l) with true by (symmetry; apply Z.ltb_lt; exact Hlt).
    reflexivity. }
  split.
  - unfold SetMaxRPS. fold newCapacity. cbn.
    replace (newCapacity <? tokens l) with true by (symmetry; apply Z.ltb_lt; exact Hlt).
    cbn. rewrite Z.eqb_refl. reflexivity.
  - rewrite El'. cbn [capacity tokens].
    split; [reflexivity|]. split; [reflexivity|].
    rewrite run_Available. cbn [fst]. rewrite refilled_eq.
    destruct (Float64.ltb _ _); [destruct (0 <? _)|]; cbn [set tokens capacity]; lia.
Qed.

Lemma reconfiguration_shrink_witness :
  let oor := fun _ : Float64.t => 0 in
  let l := {| maxRPS := 10; capacity := 20; tokens := 20; lastRefill := 0 |} in
  let newCapacity := deriveCapacity oor 4 (clampFactor Float64.one_and_half) in
  let l' := snd (run (SetMaxRPS oor 4 Float64.one_and_half) 1 l) in
  events (SetMaxRPS oor 4 Float64.one_and_half) 1 l =
    [EvStore Atomic f_maxRPS 4; EvStore Atomic f_capacity newCapacity;
     EvLoad Atomic f_tokens (tokens l);
     EvSwap f_tokens (tokens l) newCapacity true] /\
  capacity l' = newCapacity /\ tokens l' = newCapacity /\
  fst (run (Available oor) 2000000000 l') <= newCapacity.
Proof.
  apply (reconfiguration_shrink (fun _ => 0) 4 Float64.one_and_half 1 2000000000
           {| maxRPS := 10; capacity := 20; tokens := 20; lastRefill := 0 |}).
  reflexivity.
Defined.

(** ** Atomicity of the accesses *)

(** C9 asks that every access to a shared field go through [sync/atomic].
    [SetMaxRPS] stores [maxRPS] and [capacity] atomically, and [GetMaxRPS]
    loads [maxRPS] atomically, but [GetCapacity] reads [capacity] directly,
    and so do [Allow], [TryAllow] and the refill for [maxRPS] and
    [capacity]. *)
Theorem plain_reads_of_shared_fields :
  let oor := fun _ : Float64.t => 0 in
  let l := NewLimiter oor 0 10 Float64.two in
  events GetCapacity 0 l = [EvLoad Plain f_capacity 20] /\
  events GetMaxRPS 0 l = [EvLoad Atomic f_maxRPS 10] /\
  map (fun ev => (event_access ev, event_field ev))
    (events (SetMaxRPS oor 20 Float64.one_and_half) 0 l) =
    [(Atomic, f_maxRPS); (Atomic, f_capacity); (Atomic, f_tokens)] /\
  map (fun ev => (event_access ev, event_field ev))
    (events (Allow oor 1) 1000000000 l) =
    [(Plain, f_maxRPS); (Atomic, f_lastRefill); (Atomic, f_lastRefill);
     (Plain, f_maxRPS); (Atomic, f_tokens); (Plain, f_capacity);
     (Atomic, f_tokens); (Atomic, f_tokens); (Atomic, f_tokens)] /\
  ~ (forall ev, In ev (events GetCapacity 0 l) -> event_access ev = Atomic).
Proof.
  cbv zeta. split; [reflexivity|]. split; [reflexivity|].
  split; [reflexivity|]. split; [reflexivity|].
  intros H. specialize (H (EvLoad Plain f_capacity 20) (or_introl eq_refl)).
  discriminate H.
Qed.

(** ** Unlimited mode: the other methods *)

(** A limiter without a rate is computed no token, whatever the time
    elapsed. *)
Lemma newTokensFor_unlimited oor now previousRefill :
  Float64.ltb Float64.zero (elapsedSeconds now previousRefill) = true ->
  newTokensFor oor 0 (elapsedSeconds now previousRefill) = 0.
Proof.
  intros Hpos.
  pose proof (tokensDue_unlimited oor now
                {| maxRPS := 0; capacity := 0; tokens := 0;
                   lastRefill := previousRefill |} eq_refl) as H.
  unfold tokensDue in H. cbn [maxRPS lastRefill] in H.
  rewrite Hpos in H. exact H.
Qed.

(** C10 as stated fails.  With [maxRPS = 0] and an infinite factor the
    product [float64(0) * factor] is a NaN, and Go leaves [uint64] of a
    NaN to the implementation: where the conversion yields [2^63], the
    derived capacity is [2^63], not 1, and [Available] returns [2^63]
    right after construction. *)
Lemma unlimited_other_methods_counterexample :
  ~ (forall (oor : Float64.t -> Z) (t0 now : Z)
       (capacityFactor : Float64.t),
       let limiter := NewLimiter oor t0 0 capacityFactor in
       capacity limiter = 1 /\
       fst (run (Available oor) now limiter) = 1).
Proof.
  intros H.
  specialize (H (fun _ => 2 ^ 63) 0 0 (S754_infinity false)).
  vm_compute in H. destruct H as [H _]. discriminate H.
Qed.

(** C10, amended (unlimited mode, other methods).  On a limiter
    constructed with [maxRPS = 0], [TryAllow n] returns true for every
    [n], also above the capacity, without touching the limiter: its only
    access is the read of [maxRPS].  [Available] is not cut short: it
    runs the refill, which loads [lastRefill], moves it to the clock
    reading when the clock has advanced, reads [maxRPS] and adds no
    token, then loads and returns the stored count.  Right after
    construction this count is the capacity, which is 1 when the factor is
    a real number. *)
Theorem unlimited_other_methods (oor : Float64.t -> Z) (fuel : nat) (t0 : Z)
  (capacityFactor : Float64.t) (n now : Z) :
  let limiter := NewLimiter oor t0 0 capacityFactor in
  let advanced := 0 <? i64 (now - t0) in
  run (TryAllow oor fuel n) now limiter = (Some true, limiter) /\
  events (TryAllow oor fuel n) now limiter = [EvLoad Plain f_maxRPS 0] /\
  run (Available oor) now limiter =
    (tokens limiter,
     if advanced then set f_lastRefill now limiter else limiter) /\
  events (Available oor) now limiter =
    (if advanced
     then [EvLoad Atomic f_lastRefill t0; EvSwap f_lastRefill t0 now true;
           EvLoad Plain f_maxRPS 0;
           EvLoad Atomic f_tokens (tokens limiter)]
     else [EvLoad Atomic f_lastRefill t0;
           EvLoad Atomic f_tokens (tokens limiter)]) /\
  tokens limiter = capacity limiter /\
  (Float64.is_real capacityFactor = true ->
   capacity limiter = 1 /\ tokens limiter = 1 /\
   fst (run (Available oor) now limiter) = 1).
Proof.
  intros limiter advanced.
  assert (El : limiter =
            {| maxRPS := 0;
               capacity := deriveCapacity oor 0 (clampFactor capacityFactor);
               tokens := deriveCapacity oor 0 (clampFactor capacityFactor);
               lastRefill := t0 |}) by reflexivity.
  set (c := deriveCapacity oor 0 (clampFactor capacityFactor)) in *.
  assert (Hrun : run (Available oor) now limiter =
            (tokens limiter,
             if advanced then set f_lastRefill now limiter else limiter)).
  { rewrite run_Available, refilled_eq, tokensDue_unlimited
      by (rewrite El; reflexivity).
    rewrite elapsed_positive. rewrite El at 1 2. cbn [lastRefill].
    fold advanced. destruct advanced; reflexivity. }
  split; [unfold TryAllow; rewrite El; reflexivity|].
  split; [unfold TryAllow; rewrite El; reflexivity|].
  split; [exact Hrun|].
  split.
  - rewrite El. unfold Available, calculateTokenRefill.
    cbn [bind time_now load cas store ret events get lastRefill].
    pose proof (elapsed_positive now t0) as Hpos. fold advanced in Hpos.
    destruct advanced.
    + rewrite Hpos. cbn [bind events get set lastRefill maxRPS tokens].
      rewrite Z.eqb_refl. cbn [bind events get set lastRefill maxRPS tokens].
      rewrite (newTokensFor_unlimited oor now t0 Hpos). reflexivity.
    + rewrite Hpos. reflexivity.
  - split; [rewrite El; reflexivity|].
    intros Hreal.
    assert (Hcap : c = 1).
    { unfold c, deriveCapacity, clampFactor.
      destruct (Float64.ltb capacityFactor Float64.one); [reflexivity|].
      destruct capacityFactor; try discriminate Hreal; reflexivity. }
    rewrite Hrun. cbn [fst]. rewrite El. cbn [capacity tokens].
    rewrite Hcap. repeat split.
Qed.

Lemma unlimited_other_methods_witness :
  let oor := fun _ : Float64.t => 0 in
  let limiter := NewLimiter oor 0 0 Float64.two in
  (run (TryAllow oor 0 1000) 3000000000 limiter = (Some true, limiter) /\
   events (TryAllow oor 0 1000) 3000000000 limiter =
     [EvLoad Plain f_maxRPS 0]) /\
  (run (Available oor) 3000000000 limiter =
     (1, set f_lastRefill 3000000000 limiter) /\
   events (Available oor) 3000000000 limiter =
     [EvLoad Atomic f_lastRefill 0; EvSwap f_lastRefill 0 3000000000 true;
      EvLoad Plain f_maxRPS 0; EvLoad Atomic f_tokens 1]) /\
  capacity limiter = 1 /\ tokens limiter = 1 /\
  fst (run (Available oor) 3000000000 limiter) = 1.
Proof.
  pose proof (unlimited_other_methods (fun _ => 0) 0 0 Float64.two 1000
                3000000000) as H.
  cbv zeta in H. destruct H as (H1 & H2 & H3 & H4 & _ & H5).
  split; [split; [exact H1 | exact H2]|].
  split; [split; [exact H3 | exact H4]|].
  apply H5. reflexivity.
Defined.

(** * Further properties of the methods *)

(** ** Admission and the available count *)

Section Admission.

Variable oor : Float64.t -> Z.

(** After a consumption that follows a refill, a refill at the same clock
    reading changes nothing. *)
Lemma run_Available_after_take now l v :
  run (Available oor) now (set f_tokens v (refilled oor now l)) =
  (v, set f_tokens v (refilled oor now l)).
Proof.
  rewrite run_Available, refilled_lastRefill_set. reflexivity.
Qed.

(** X1 (admission against the available count).  On a limiter with a
    positive rate, [TryAllow n] with [0 < n <= capacity] returns true
    exactly when [n] is at most what [Available] returns at the same clock
    reading; [Available] then returns [n] less after a success and the same
    after a refusal. *)
Theorem TryAllow_decided_by_Available (fuel : nat) (n now : Z)
  (l : ATLimiter) :
  0 < maxRPS l ->
  0 <= tokens l <= capacity l -> capacity l < 2 ^ 64 ->
  0 < n <= capacity l ->
  let available := fst (run (Available oor) now l) in
  let outcome := run (TryAllow oor (S fuel) n) now l in
  fst outcome = Some (n <=? available) /\
  fst (run (Available oor) now (snd outcome)) =
    (if n <=? available then available - n else available).
Proof.
  intros HR Hb Hc Hn available outcome.
  assert (Ea : available = tokens (refilled oor now l)).
  { unfold available. rewrite run_Available. reflexivity. }
  pose proof (refilled_bounded oor now l Hb) as Hb'. unfold bounded_tokens in Hb'.
  rewrite refilled_capacity, <- Ea in Hb'.
  unfold outcome. rewrite run_TryAllow.
  replace (maxRPS l =? 0) with false by (symmetry; apply Z.eqb_neq; lia).
  replace (n =? 0) with false by (symmetry; apply Z.eqb_neq; lia).
  replace (capacity l <? n) with false by (symmetry; apply Z.ltb_ge; lia).
  cbv zeta. rewrite <- Ea.
  destruct (Z.leb_spec n available) as [Hle|Hgt].
  - replace (available <? n) with false by (symmetry; apply Z.ltb_ge; lia).
    cbn [fst snd]. split; [reflexivity|].
    rewrite run_Available_after_take. cbn [fst]. apply u64_small. lia.
  - replace (available <? n) with true by (symmetry; apply Z.ltb_lt; lia).
    cbn [fst snd]. split; [reflexivity|].
    rewrite run_Available. cbn [fst]. rewrite refilled_again. lia.
Qed.

(** X2 (one token in bulk).  [TryAllow 1] is [Allow]: on every limiter with
    a capacity of at least 1 and a count that is not negative, the two
    return the same verdict and leave the same limiter. *)
Theorem TryAllow_one_is_Allow (fuel : nat) (now : Z) (l : ATLimiter) :
  0 <= tokens l -> 1 <= capacity l ->
  run (TryAllow oor (S fuel) 1) now l = run (Allow oor (S fuel)) now l.
Proof.
  intros Ht Hc. rewrite run_TryAllow, run_Allow.
  destruct (maxRPS l =? 0); [reflexivity|].
  replace (1 =? 0) with false by reflexivity.
  replace (capacity l <? 1) with false by (symmetry; apply Z.ltb_ge; lia).
  cbv zeta.
  assert (H0 : 0 <= tokens (refilled oor now l)).
  { rewrite refilled_eq.
    destruct (Float64.ltb _ _); [destruct (0 <? _)|]; cbn [set tokens]; try lia.
    pose proof (u64_range (tokens l + tokensDue oor now l)). lia. }
  destruct (Z.eqb_spec (tokens (refilled oor now l)) 0) as [E|E].
  - rewrite E. reflexivity.
  - replace (tokens (refilled oor now l) <? 1) with false
      by (symmetry; apply Z.ltb_ge; lia).
    reflexivity.
Qed.


End Admission.

Lemma TryAllow_decided_by_Available_witness :
  let oor := fun _ : Float64.t => 0 in
  let l := {| maxRPS := 10; capacity := 20; tokens := 5; lastRefill := 0 |} in
  let available := fst (run (Available oor) 500000000 l) in
  let outcome := run (TryAllow oor 1 7) 500000000 l in
  fst outcome = Some (7 <=? available) /\
  fst (run (Available oor) 500000000 (snd outcome)) =
    (if 7 <=? available then available - 7 else available).
Proof.
  apply (TryAllow_decided_by_Available (fun _ => 0) 0 7 500000000
           {| maxRPS := 10; capacity := 20; tokens := 5; lastRefill := 0 |});
    simpl; lia.
Defined.

Lemma TryAllow_one_is_Allow_witness :
  let oor := fun _ : Float64.t => 0 in
  let l := {| maxRPS := 10; capacity := 20; tokens := 5; lastRefill := 0 |} in
  run (TryAllow oor 1 1) 500000000 l = run (Allow oor 1) 500000000 l.
Proof.
  apply (TryAllow_one_is_Allow (fun _ => 0) 0 500000000
           {| maxRPS := 10; capacity := 20; tokens := 5; lastRefill := 0 |});
    simpl; lia.
Defined.


(** ** What the methods write *)

Lemma never_writes_bind {A B : Type} f (p : prog A) (q : A -> prog B) :
  never_writes f p -> (forall a, never_writes f (q a)) ->
  never_writes f (bind p q).
Proof.
  intros Hp Hq.
  induction p as [a | k IH | m g k IH | m g v k IH | g old new k IH];
    cbn [bind never_writes] in *.
  - apply Hq.
  - intros t. apply IH, Hp.
  - intros v. apply IH, Hp.
  - split; [apply Hp | apply IH, Hp].
  - split; [apply Hp | intros b; apply IH, Hp].
Qed.

(** A call that never writes [f] leaves [f] as it was. *)
Lemma run_never_writes {A : Type} f (p : prog A) now : forall l,
  never_writes f p -> get f (snd (run p now l)) = get f l.
Proof.
  induction p as [a | k IH | m g k IH | m g v k IH | g old new k IH];
    intros l Hp; cbn [run never_writes] in *.
  - reflexivity.
  - apply IH, Hp.
  - apply IH, Hp.
  - destruct Hp as [Hg Hk]. rewrite IH by exact Hk.
    destruct g, f; try reflexivity; contradiction.
  - destruct Hp as [Hg Hk]. destruct (get g l =? old).
    + rewrite IH by apply Hk. destruct g, f; try reflexivity; contradiction.
    + apply IH, Hk.
Qed.

(** The same under interleaving: a step of a call that never writes [f]
    leaves [f] as it was. *)
Lemma act_never_writes {A : Type} f l (p : prog A) l' p' :
  act l p l' p' -> never_writes f p ->
  never_writes f p' /\ get f l' = get f l.
Proof.
  intros Hact Hp.
  destruct Hact as [l k t | l m g k | l m g v k | l g old new k E | l g old new k E];
    cbn [never_writes] in Hp.
  - split; [apply Hp | reflexivity].
  - split; [apply Hp | reflexivity].
  - destruct Hp as [Hg Hk]. split; [exact Hk|].
    destruct g, f; try reflexivity; contradiction.
  - destruct Hp as [Hg Hk]. split; [apply Hk|].
    destruct g, f; try reflexivity; contradiction.
  - split; [apply Hp | reflexivity].
Qed.

Section Writes.

Variable oor : Float64.t -> Z.

Lemma never_writes_calculateTokenRefill f :
  f = f_maxRPS \/ f = f_capacity ->
  never_writes f (calculateTokenRefill oor).
Proof.
  intros Hf. unfold calculateTokenRefill. cbn. intros t v.
  destruct (Float64.ltb _ _); cbn; [|exact I].
  split; [destruct Hf; subst; discriminate|].
  intros [ | ]; cbn; [|exact I]. intros r.
  destruct (0 <? _); cbn; [|exact I].
  intros current cap. split; [destruct Hf; subst; discriminate | exact I].
Qed.

Lemma never_writes_allowLoop f fuel :
  f <> f_tokens -> never_writes f (allowLoop fuel).
Proof.
  intros Hf. induction fuel as [|fuel IH]; cbn; [exact I|].
  intros current. destruct (current =? 0); cbn; [exact I|].
  split; [congruence|]. intros [ | ]; [exact I | exact IH].
Qed.

Lemma never_writes_tryAllowLoop f fuel n :
  f <> f_tokens -> never_writes f (tryAllowLoop fuel n).
Proof.
  intros Hf. induction fuel as [|fuel IH]; cbn; [exact I|].
  intros current. destruct (current <? n); cbn; [exact I|].
  split; [congruence|]. intros [ | ]; [exact I | exact IH].
Qed.

(** [Allow], [TryAllow] and [Available] never write the configuration. *)
Lemma never_writes_perform f fuel c :
  f = f_maxRPS \/ f = f_capacity ->
  never_writes f (perform oor fuel c).
Proof.
  intros Hf.
  assert (Hnt : f <> f_tokens) by (destruct Hf; subst; discriminate).
  destruct c as [ | n | ]; unfold perform; apply never_writes_bind;
    try (intros; exact I).
  - unfold Allow. apply never_writes_bind; [intros v; exact I|].
    intros r. destruct (r =? 0); [exact I|].
    apply never_writes_bind; [apply never_writes_calculateTokenRefill; exact Hf|].
    intros _. apply never_writes_allowLoop. exact Hnt.
  - unfold TryAllow. apply never_writes_bind; [intros v; exact I|].
    intros r. destruct (r =? 0); [exact I|]. destruct (n =? 0); [exact I|].
    apply never_writes_bind; [intros v; exact I|].
    intros cap. destruct (cap <? n); [exact I|].
    apply never_writes_bind; [apply never_writes_calculateTokenRefill; exact Hf|].
    intros _. apply never_writes_tryAllowLoop. exact Hnt.
  - unfold Available.
    apply never_writes_bind; [apply never_writes_calculateTokenRefill; exact Hf|].
    intros _. intros v. exact I.
Qed.

Lemma runCalls_configuration fuel : forall calls l,
  maxRPS (finalLimiter l (runCalls oor fuel calls l)) = maxRPS l /\
  capacity (finalLimiter l (runCalls oor fuel calls l)) = capacity l.
Proof.
  induction calls as [|[now c] calls IH]; intros l; [split; reflexivity|].
  rewrite runCalls_cons.
  destruct (run (perform oor fuel c) now l) as [r l'] eqn:E.
  rewrite finalLimiter_cons. cbn [snd].
  destruct (IH l') as [IH1 IH2]. rewrite IH1, IH2.
  assert (El' : l' = snd (run (perform oor fuel c) now l)) by (rewrite E; reflexivity).
  rewrite El'. split.
  - apply (run_never_writes f_maxRPS). apply never_writes_perform. left. reflexivity.
  - apply (run_never_writes f_capacity). apply never_writes_perform. right. reflexivity.
Qed.

(** X4 (getters).  What [SetMaxRPS] publishes is what the getters return,
    whatever [Allow], [TryAllow] and [Available] calls come between:
    [GetMaxRPS] returns the rate that was set and [GetCapacity] the capacity
    derived from it, and neither getter changes the limiter. *)
Theorem getters_return_what_was_set (fuel : nat) (newMaxRPS : Z)
  (newCapacityFactor : Float64.t) (now later : Z) (calls : list (Z * call))
  (l : ATLimiter) :
  let configured :=
    snd (run (SetMaxRPS oor newMaxRPS newCapacityFactor) now l) in
  let l' := finalLimiter configured (runCalls oor fuel calls configured) in
  run GetMaxRPS later l' = (newMaxRPS, l') /\
  run GetCapacity later l' =
    (deriveCapacity oor newMaxRPS (clampFactor newCapacityFactor), l').
Proof.
  intros configured l'.
  destruct (runCalls_configuration fuel calls configured) as [H1 H2].
  fold l' in H1, H2. unfold configured in H1, H2.
  rewrite run_SetMaxRPS in H1, H2. cbn [snd maxRPS capacity] in H1, H2.
  unfold GetMaxRPS, GetCapacity. cbn [run load get].
  rewrite H1, H2. split; reflexivity.
Qed.

End Writes.

(** ** Sequences of all the methods *)

Section Methods.

Variable oor : Float64.t -> Z.

Lemma runMethods_cons fuel now m ms l :
  runMethods oor fuel ((now, m) :: ms) l =
  run (invoke oor fuel m) now l ::
  runMethods oor fuel ms (snd (run (invoke oor fuel m) now l)).
Proof.
  cbn [runMethods]. destruct (run (invoke oor fuel m) now l). reflexivity.
Qed.

Lemma snd_run_invoke fuel m now l :
  snd (run (invoke oor fuel m) now l) =
  match m with
  | MCall c => snd (run (perform oor fuel c) now l)
  | MSetMaxRPS newMaxRPS newCapacityFactor =>
      snd (run (SetMaxRPS oor newMaxRPS newCapacityFactor) now l)
  | MGetMaxRPS | MGetCapacity => l
  end.
Proof.
  destruct m; unfold invoke; try rewrite run_bind; reflexivity.
Qed.

Lemma NewLimiter_consistent now maxRate factor :
  consistent (NewLimiter oor now maxRate factor).
Proof.
  unfold consistent, NewLimiter. cbn [tokens capacity maxRPS].
  pose proof (deriveCapacity_lower oor maxRate (clampFactor factor)). lia.
Qed.

Lemma invoke_consistent fuel m now l :
  method_ok m -> consistent l ->
  consistent (snd (run (invoke oor fuel m) now l)).
Proof.
  intros Hok (Hb & H1 & HR). rewrite snd_run_invoke.
  destruct m as [c | r f | | ].
  - destruct (run_keeps_bound (perform oor fuel c) now l) as [Hc Hb'];
      [apply keeps_bound_perform; [lia | exact Hok] | exact Hb | ].
    pose proof (run_never_writes f_maxRPS (perform oor fuel c) now l
                  (never_writes_perform oor f_maxRPS fuel c (or_introl eq_refl)))
      as Hm.
    cbn [get] in Hm. unfold consistent. rewrite Hc, Hm.
    unfold bounded_tokens in Hb'. rewrite Hc in Hb'. lia.
  - rewrite run_SetMaxRPS. cbn [snd]. unfold consistent.
    cbn [tokens capacity maxRPS].
    pose proof (deriveCapacity_lower oor r (clampFactor f)) as [D1 D2].
    destruct (Z.ltb_spec (deriveCapacity oor r (clampFactor f)) (tokens l)); lia.
  - split; [exact Hb | split; assumption].
  - split; [exact Hb | split; assumption].
Qed.

(** X5 (invariants of the data).  The invariants of the data hold after
    every call of every sequence of method calls that run one after the
    other, reconfiguration included: the count lies within the capacity, and
    the capacity is at least 1 and at least the rate. *)
Theorem methods_keep_consistent (fuel : nat) (t0 maxRate : Z)
  (capacityFactor : Float64.t) (ms : list (Z * method)) :
  Forall (fun m => method_ok (snd m)) ms ->
  Forall (fun rl =>
            0 <= tokens (snd rl) <= capacity (snd rl) /\
            1 <= capacity (snd rl) /\
            maxRPS (snd rl) <= capacity (snd rl))
    (runMethods oor fuel ms (NewLimiter oor t0 maxRate capacityFactor)).
Proof.
  intros Hok.
  pose proof (NewLimiter_consistent t0 maxRate capacityFactor) as H0.
  revert H0. generalize (NewLimiter oor t0 maxRate capacityFactor).
  induction Hok as [|[now m] ms Hm Hms IH]; intros l Hl; [constructor|].
  rewrite runMethods_cons.
  pose proof (invoke_consistent fuel m now l Hm Hl) as Hl'.
  constructor; [exact Hl' | apply IH; exact Hl'].
Qed.

(** *** The refill timestamp *)

Lemma lastRefill_refilled now l :
  lastRefill (refilled oor now l) =
  if 0 <? i64 (now - lastRefill l) then now else lastRefill l.
Proof.
  rewrite refilled_eq, elapsed_positive.
  destruct (0 <? i64 (now - lastRefill l)); [destruct (0 <? _)|]; reflexivity.
Qed.

Lemma lastRefill_perform fuel c now l :
  lastRefill (snd (run (perform oor fuel c) now l)) = lastRefill l \/
  lastRefill (snd (run (perform oor fuel c) now l)) =
    lastRefill (refilled oor now l).
Proof.
  rewrite run_perform.
  assert (HA : forall fuel', lastRefill (snd (run (allowLoop fuel') now (refilled oor now l)))
                 = lastRefill (refilled oor now l)).
  { intros fuel'. apply (run_never_writes f_lastRefill).
    apply never_writes_allowLoop. discriminate. }
  assert (HT : forall fuel' n, lastRefill (snd (run (tryAllowLoop fuel' n) now (refilled oor now l)))
                 = lastRefill (refilled oor now l)).
  { intros fuel' n. apply (run_never_writes f_lastRefill).
    apply never_writes_tryAllowLoop. discriminate. }
  destruct c as [ | n | ]; cbn [snd].
  - unfold Allow. rewrite run_bind. cbn [load run fst snd get].
    destruct (maxRPS l =? 0); [left; reflexivity|].
    rewrite run_bind, run_calculateTokenRefill. cbn [fst snd].
    right. apply HA.
  - unfold TryAllow. rewrite run_bind. cbn [load run fst snd get].
    destruct (maxRPS l =? 0); [left; reflexivity|].
    destruct (n =? 0); [left; reflexivity|].
    rewrite run_bind. cbn [load run fst snd get].
    destruct (capacity l <? n); [left; reflexivity|].
    rewrite run_bind, run_calculateTokenRefill. cbn [fst snd].
    right. apply HT.
  - rewrite run_Available. right. reflexivity.
Qed.

Lemma invoke_lastRefill fuel m now l :
  clock_ok now -> clock_ok (lastRefill l) ->
  let l' := snd (run (invoke oor fuel m) now l) in
  lastRefill l <= lastRefill l' /\ clock_ok (lastRefill l') /\
  (lastRefill l' = lastRefill l \/ lastRefill l' = now).
Proof.
  intros Hnow Hl l'. unfold l'. rewrite snd_run_invoke.
  unfold clock_ok in *.
  assert (Hr : lastRefill l <= lastRefill (refilled oor now l) /\
               (lastRefill (refilled oor now l) = lastRefill l \/
                lastRefill (refilled oor now l) = now)).
  { rewrite lastRefill_refilled, i64_small by lia.
    destruct (Z.ltb_spec 0 (now - lastRefill l)); split; auto; lia. }
  destruct m as [c | r f | | ].
  - destruct (lastRefill_perform fuel c now l) as [E|E]; rewrite E.
    + split; [lia | split; [lia | left; reflexivity]].
    + destruct Hr as [H1 [H2|H2]]; rewrite H2; split; try lia; split; auto; lia.
  - rewrite run_SetMaxRPS. cbn [snd lastRefill].
    split; [lia | split; [lia | left; reflexivity]].
  - split; [lia | split; [lia | left; reflexivity]].
  - split; [lia | split; [lia | left; reflexivity]].
Qed.

(** X6 (refill timestamp).  The refill timestamp never goes back.  Over
    every sequence of method calls that run one after the other, with clock
    readings that are nanoseconds since the epoch (also when the clock
    itself steps back), [lastRefill] after each call is at least what it was
    before the call. *)
Theorem lastRefill_never_decreases (fuel : nat) (ms : list (Z * method))
  (l : ATLimiter) :
  Forall (fun m => clock_ok (fst m)) ms ->
  clock_ok (lastRefill l) ->
  nondecreasing (lastRefill l)
    (map (fun rl => lastRefill (snd rl)) (runMethods oor fuel ms l)).
Proof.
  intros Hms. revert l.
  induction Hms as [|[now m] ms Hnow Hms IH]; intros l Hl; [exact I|].
  rewrite runMethods_cons. cbn [map snd nondecreasing].
  destruct (invoke_lastRefill fuel m now l Hnow Hl) as (H1 & H2 & _).
  split; [exact H1 | apply IH; exact H2].
Qed.

End Methods.

Lemma methods_keep_consistent_witness :
  Forall (fun rl =>
            0 <= tokens (snd rl) <= capacity (snd rl) /\
            1 <= capacity (snd rl) /\
            maxRPS (snd rl) <= capacity (snd rl))
    (runMethods (fun _ => 0) 1
       [(0, MCall (CallTryAllow 15)); (5, MSetMaxRPS 4 Float64.one_and_half);
        (7, MGetCapacity); (1000000000, MCall CallAllow);
        (1000000001, MSetMaxRPS 0 Float64.two); (1000000002, MGetMaxRPS)]
       (NewLimiter (fun _ => 0) 0 10 Float64.two)).
Proof.
  apply (methods_keep_consistent (fun _ => 0) 1 0 10 Float64.two
           [(0, MCall (CallTryAllow 15)); (5, MSetMaxRPS 4 Float64.one_and_half);
            (7, MGetCapacity); (1000000000, MCall CallAllow);
            (1000000001, MSetMaxRPS 0 Float64.two); (1000000002, MGetMaxRPS)]).
  repeat constructor; simpl; unfold is_u64; lia.
Defined.

Lemma lastRefill_never_decreases_witness :
  let l := {| maxRPS := 10; capacity := 20; tokens := 5; lastRefill := 100 |} in
  nondecreasing (lastRefill l)
    (map (fun rl => lastRefill (snd rl))
       (runMethods (fun _ => 0) 1
          [(500000000, MCall CallAllow); (70, MCall CallAvailable);
           (600000000, MSetMaxRPS 4 Float64.one_and_half);
           (550000000, MCall (CallTryAllow 2))] l)).
Proof.
  apply (lastRefill_never_decreases (fun _ => 0) 1
           [(500000000, MCall CallAllow); (70, MCall CallAvailable);
            (600000000, MSetMaxRPS 4 Float64.one_and_half);
            (550000000, MCall (CallTryAllow 2))]
           {| maxRPS := 10; capacity := 20; tokens := 5; lastRefill := 100 |}).
  - repeat constructor; simpl; lia.
  - unfold clock_ok; simpl; lia.
Defined.

(** ** Interleavings *)

Lemma steps_trans {A : Type} (c1 c2 c3 : ATLimiter * list (prog A)) :
  steps c1 c2 -> steps c2 c3 -> steps c1 c3.
Proof.
  intros H12 H23. induction H12 as [c | c1 c1' c2 Hstep Hrest IH]; [exact H23|].
  eapply steps_next; [exact Hstep | apply IH; exact H23].
Qed.

(** One call of a pool runs to its end while the others wait. *)
Lemma run_steps_among {A : Type} (p : prog A) now before after : forall l,
  steps (l, before ++ p :: after)
        (snd (run p now l), before ++ Ret (fst (run p now l)) :: after).
Proof.
  induction p as [a | k IH | m f k IH | m f v k IH | f old new k IH];
    intros l; cbn [run].
  - apply steps_refl.
  - eapply steps_next; [|apply IH].
    exact (step_one l l before _ _ after (act_now l k now)).
  - eapply steps_next; [|apply IH].
    exact (step_one l l before _ _ after (act_load l m f k)).
  - eapply steps_next; [|apply IH].
    exact (step_one l _ before _ _ after (act_store l m f v k)).
  - destruct (Z.eqb_spec (get f l) old) as [E|E].
    + eapply steps_next; [|apply IH].
      exact (step_one l _ before _ _ after (act_cas_hit l f old new k E)).
    + eapply steps_next; [|apply IH].
      exact (step_one l l before _ _ after (act_cas_miss l f old new k E)).
Qed.

Lemma first_acts {A : Type} l (p : prog A) l' p' rest c :
  act l p l' p' -> steps (l', p' :: rest) c -> steps (l, p :: rest) c.
Proof.
  intros Hact Hrest. eapply steps_next; [|exact Hrest].
  exact (step_one l l' [] p p' rest Hact).
Qed.

Lemma second_runs {A : Type} l (p q : prog A) now c :
  steps (snd (run q now l), [p; Ret (fst (run q now l))]) c ->
  steps (l, [p; q]) c.
Proof.
  intros Hrest. eapply steps_trans; [|exact Hrest].
  exact (run_steps_among q now [p] [] l).
Qed.

(** ** Consumers racing for tokens *)

Lemma winners_app ts1 ts2 :
  winners (ts1 ++ ts2) = (winners ts1 + winners ts2)%nat.
Proof. unfold winners. rewrite filter_app, length_app. reflexivity. Qed.

Lemma winners_cons p ts :
  winners (p :: ts) = ((if is_win p then 1 else 0) + winners ts)%nat.
Proof. unfold winners. cbn [filter]. destruct (is_win p); reflexivity. Qed.

Lemma consumes_allowLoop fuel : consumes 1 (allowLoop fuel).
Proof.
  induction fuel as [|fuel IH]; cbn; [exact I|].
  split; [reflexivity|]. intros v Hv.
  destruct (Z.eqb_spec v 0); cbn; [split; [exact I | reflexivity]|].
  split; [|reflexivity].
  split; [reflexivity|]. split; [lia|]. split; [reflexivity|].
  split; [reflexivity|]. split; [exact IH|].
  destruct fuel; reflexivity.
Qed.

Lemma consumes_tryAllowLoop fuel n : consumes n (tryAllowLoop fuel n).
Proof.
  induction fuel as [|fuel IH]; cbn; [exact I|].
  split; [reflexivity|]. intros v Hv.
  destruct (Z.ltb_spec v n); cbn; [split; [exact I | reflexivity]|].
  split; [|reflexivity].
  split; [reflexivity|]. split; [lia|]. split; [reflexivity|].
  split; [reflexivity|]. split; [exact IH|].
  destruct fuel; reflexivity.
Qed.

Lemma consume_loop_consumes n p :
  consume_loop n p -> consumes n p /\ is_win p = false.
Proof.
  intros [fuel [-> | [-> ->]]].
  - split; [apply consumes_tryAllowLoop | destruct fuel; reflexivity].
  - split; [apply consumes_allowLoop | destruct fuel; reflexivity].
Qed.

(** One step of a pool of consumers: the tokens that leave the bucket are
    the tokens of the call that wins. *)
Lemma step_consumers n l ts l' ts' :
  0 < n ->
  step (l, ts) (l', ts') ->
  Forall (consumes n) ts -> 0 <= tokens l < 2 ^ 64 ->
  Forall (consumes n) ts' /\ 0 <= tokens l' < 2 ^ 64 /\
  tokens l' + n * Z.of_nat (winners ts') =
  tokens l + n * Z.of_nat (winners ts).
Proof.
  intros Hn Hstep Hts Hl.
  inversion Hstep as [l0 l0' before p p' after Hact]; subst.
  apply Forall_app in Hts. destruct Hts as [Hbefore Hpafter].
  inversion Hpafter as [|? ? Hp Hafter]; subst.
  rewrite !winners_app, !winners_cons.
  assert (Hgoal : Forall (consumes n) (before ++ p' :: after) <->
                  consumes n p').
  { split.
    - intros H. apply Forall_app in H. destruct H as [_ H].
      inversion H; assumption.
    - intros H. apply Forall_app. split; [exact Hbefore|].
      constructor; assumption. }
  destruct Hact as [l k t | l m f k | l m f v k | l f old new k E | l f old new k E];
    cbn [consumes] in Hp; try contradiction.
  - destruct Hp as [-> Hk]. cbn [get].
    destruct (Hk (tokens l) ltac:(lia)) as [Hc Hw].
    rewrite Hw. cbn [is_win]. split; [apply Hgoal; exact Hc|]. split; lia.
  - destruct Hp as (-> & Hold & -> & Hwt & Hcf & Hwf). cbn [get] in E.
    rewrite Hwt. cbn [is_win set tokens]. subst old.
    rewrite u64_small by lia.
    split; [apply Hgoal; destruct (k true); try discriminate; exact I|].
    split; lia.
  - destruct Hp as (-> & Hold & -> & Hwt & Hcf & Hwf).
    rewrite Hwf. cbn [is_win]. split; [apply Hgoal; exact Hcf|]. split; lia.
Qed.

(** X7 (no token is spent twice).  Consumers never take more than the bucket
    holds.  Let any number of consume loops, each asking for [n] tokens (the
    loop of [Allow] for [n = 1], of [TryAllow n] otherwise), run interleaved
    in any order on a bucket of [supply] tokens.  At every instant the
    tokens left plus [n] times the number of calls that have returned true
    is [supply]; so at most [supply / n] calls return true. *)
Theorem consumers_share_the_supply (n supply : Z) (l l' : ATLimiter)
  (ts ts' : list (prog (option bool))) :
  0 < n ->
  0 <= supply < 2 ^ 64 -> tokens l = supply ->
  Forall (consume_loop n) ts ->
  steps (l, ts) (l', ts') ->
  tokens l' + n * Z.of_nat (winners ts') = supply /\
  0 <= tokens l' /\
  n * Z.of_nat (winners ts') <= supply.
Proof.
  intros Hn Hs Ht Hts Hsteps.
  assert (H0 : Forall (consumes n) ts /\ winners ts = 0%nat).
  { clear Hsteps. induction Hts as [|p ts Hp Hts IH]; [split; [constructor | reflexivity]|].
    destruct IH as [IH1 IH2]. destruct (consume_loop_consumes n p Hp) as [Hc Hw].
    split; [constructor; assumption|]. rewrite winners_cons, Hw, IH2. reflexivity. }
  destruct H0 as [Hc Hw0].
  assert (Hinv : forall c c', steps c c' ->
    Forall (consumes n) (snd c) -> 0 <= tokens (fst c) < 2 ^ 64 ->
    0 <= tokens (fst c') < 2 ^ 64 /\
    tokens (fst c') + n * Z.of_nat (winners (snd c')) =
    tokens (fst c) + n * Z.of_nat (winners (snd c))).
  { intros c c' H. induction H as [c | c1 c2 c3 Hstep Hrest IH]; intros Hf Hr.
    - split; [exact Hr | reflexivity].
    - destruct c1 as [l1 ts1], c2 as [l2 ts2]. cbn [fst snd] in *.
      destruct (step_consumers n l1 ts1 l2 ts2 Hn Hstep Hf Hr) as (Hf2 & Hr2 & E2).
      destruct (IH Hf2 Hr2) as [Hr3 E3]. split; [exact Hr3 | lia]. }
  destruct (Hinv _ _ Hsteps) as [Hr E]; cbn [fst snd] in *;
    [exact Hc | lia | ].
  rewrite Hw0 in E. lia.
Qed.

Lemma consumers_share_the_supply_witness :
  let l := {| maxRPS := 10; capacity := 20; tokens := 3; lastRefill := 0 |} in
  let l' := snd (run (allowLoop 1) 0 l) in
  let ts' := [allowLoop 1; Ret (fst (run (allowLoop 1) 0 l))] in
  tokens l' + 1 * Z.of_nat (winners ts') = 3 /\
  0 <= tokens l' /\
  1 * Z.of_nat (winners ts') <= 3.
Proof.
  apply (consumers_share_the_supply 1 3
           {| maxRPS := 10; capacity := 20; tokens := 3; lastRefill := 0 |}
           (snd (run (allowLoop 1) 0
              {| maxRPS := 10; capacity := 20; tokens := 3; lastRefill := 0 |}))
           [allowLoop 1; allowLoop 1]
           [allowLoop 1;
            Ret (fst (run (allowLoop 1) 0
              {| maxRPS := 10; capacity := 20; tokens := 3; lastRefill := 0 |}))]).
  - lia.
  - lia.
  - reflexivity.
  - repeat constructor; exists 1%nat; right; split; reflexivity.
  - apply (run_steps_among (allowLoop 1) 0 [allowLoop 1] []).
Defined.

(** ** Races the design accepts *)

Section Races.

Variable oor : Float64.t -> Z.

Lemma run_invoke_Allow fuel now l :
  run (invoke oor fuel (MCall CallAllow)) now l =
  (Some (Verdict (fst (run (Allow oor fuel) now l))),
   snd (run (Allow oor fuel) now l)).
Proof. unfold invoke. rewrite run_bind, run_perform. reflexivity. Qed.

(** [Allow] at the clock reading of the last refill, on a bucket that is
    not empty. *)
Lemma run_Allow_at_lastRefill l :
  maxRPS l <> 0 -> tokens l <> 0 ->
  run (Allow oor 1) (lastRefill l) l =
  (Some true, set f_tokens (u64 (tokens l - 1)) l).
Proof.
  intros HR Ht. rewrite run_Allow.
  apply Z.eqb_neq in HR. rewrite HR. cbv zeta.
  assert (E : refilled oor (lastRefill l) l = l).
  { rewrite refilled_eq, elapsedSeconds_same. reflexivity. }
  rewrite E. apply Z.eqb_neq in Ht. rewrite Ht. reflexivity.
Qed.

(** X8 (reconfiguration race).  [SetMaxRPS] can lose the race for the count.
    When the new capacity is more than one below the count, there is an
    interleaving of one [SetMaxRPS] and one [Allow] after which both have
    returned, [Allow] with true, and the count is above the capacity: the
    single compare-and-swap of [SetMaxRPS] met a count that [Allow] had
    changed, and is not retried. *)
Theorem SetMaxRPS_can_lose_the_race (newMaxRPS : Z)
  (newCapacityFactor : Float64.t) (l : ATLimiter) :
  let newCapacity :=
    deriveCapacity oor newMaxRPS (clampFactor newCapacityFactor) in
  newMaxRPS <> 0 ->
  newCapacity + 1 < tokens l -> tokens l < 2 ^ 64 ->
  exists l',
    steps (l, [invoke oor 1 (MSetMaxRPS newMaxRPS newCapacityFactor);
               invoke oor 1 (MCall CallAllow)])
          (l', [Ret None; Ret (Some (Verdict (Some true)))]) /\
    capacity l' = newCapacity /\
    tokens l' = tokens l - 1 /\
    capacity l' < tokens l'.
Proof.
  intros newCapacity HR Hlt H64.
  pose proof (deriveCapacity_lower oor newMaxRPS (clampFactor newCapacityFactor))
    as [Hc1 _]. fold newCapacity in Hc1.
  set (l1 := set f_capacity newCapacity (set f_maxRPS newMaxRPS l)).
  set (l2 := set f_tokens (tokens l - 1) l1).
  exists l2. split; [|cbn; lia].
  unfold invoke at 1. unfold SetMaxRPS. fold newCapacity.
  cbn [bind store load cas ret].
  (* SetMaxRPS publishes the configuration and reads the count *)
  eapply first_acts; [apply act_store|].
  eapply first_acts; [apply act_store|].
  eapply first_acts; [apply act_load|]. fold l1.
  replace (get f_tokens l1) with (tokens l) by reflexivity.
  replace (newCapacity <? tokens l) with true by (symmetry; apply Z.ltb_lt; lia).
  cbn [bind].
  (* Allow takes a token *)
  apply (second_runs l1 _ _ (lastRefill l1)).
  rewrite run_invoke_Allow, run_Allow_at_lastRefill;
    [ | exact HR | cbn; lia ].
  cbn [fst snd]. replace (tokens l1) with (tokens l) by reflexivity.
  rewrite u64_small by lia. fold l2.
  (* the compare-and-swap of SetMaxRPS finds another count *)
  eapply first_acts; [apply act_cas_miss; cbn; lia|].
  apply steps_refl.
Qed.

(** X9 (lost consumption).  A refill can overwrite a consumption.  While a
    refill that adds tokens is between its load and its store of the count,
    an [Allow] can take a token and return true; the store then puts back
    the count the refill computed.  The limiter ends as if the refill had
    run alone: the token [Allow] was given is not accounted for. *)
Theorem refill_can_overwrite_a_consumption (now : Z) (l : ATLimiter) :
  maxRPS l <> 0 -> tokens l <> 0 ->
  0 < tokensDue oor now l ->
  steps (l, [invoke oor 1 (MCall CallAvailable);
             invoke oor 1 (MCall CallAllow)])
        (refilled oor now l,
         [Ret (Some (Count (tokens (refilled oor now l))));
          Ret (Some (Verdict (Some true)))]).
Proof.
  intros HR Ht Hdue.
  assert (Hpos : Float64.ltb Float64.zero (elapsedSeconds now (lastRefill l)) = true).
  { unfold tokensDue in Hdue. destruct (Float64.ltb _ _); [reflexivity | lia]. }
  assert (Hnew : (0 <? newTokensFor oor (maxRPS l) (elapsedSeconds now (lastRefill l))) = true).
  { unfold tokensDue in Hdue. rewrite Hpos in Hdue. apply Z.ltb_lt. exact Hdue. }
  assert (Eref : refilled oor now l =
    set f_tokens (Z.min (u64 (tokens l + newTokensFor oor (maxRPS l)
                                (elapsedSeconds now (lastRefill l)))) (capacity l))
      (set f_lastRefill now l)).
  { rewrite refilled_eq, Hpos. unfold tokensDue. rewrite Hpos, Hnew. reflexivity. }
  rewrite Eref.
  unfold invoke at 1. unfold perform, Available, calculateTokenRefill.
  cbn [bind time_now load ret].
  (* the refill reads the clock and the timestamp, and wins the timestamp *)
  eapply first_acts; [apply (act_now _ _ now)|].
  eapply first_acts; [apply act_load|].
  replace (get f_lastRefill l) with (lastRefill l) by reflexivity.
  rewrite Hpos. cbn [bind cas].
  eapply first_acts; [apply act_cas_hit; reflexivity|].
  cbn [bind load].
  eapply first_acts; [apply act_load|].
  set (l1 := set f_lastRefill now l).
  replace (get f_maxRPS l1) with (maxRPS l) by reflexivity.
  rewrite Hnew. cbn [bind load store].
  (* it loads the count *)
  eapply first_acts; [apply act_load|].
  replace (get f_tokens l1) with (tokens l) by reflexivity.
  (* Allow takes a token *)
  apply (second_runs l1 _ _ (lastRefill l1)).
  rewrite run_invoke_Allow, run_Allow_at_lastRefill by assumption.
  cbn [fst snd].
  (* the refill stores the count it computed *)
  eapply first_acts; [apply act_load|].
  eapply first_acts; [apply act_store|].
  eapply first_acts; [apply act_load|].
  cbn. apply steps_refl.
Qed.

End Races.

Lemma SetMaxRPS_can_lose_the_race_witness :
  let oor := fun _ : Float64.t => 0 in
  let l := {| maxRPS := 10; capacity := 20; tokens := 20; lastRefill := 0 |} in
  let newCapacity := deriveCapacity oor 4 (clampFactor Float64.one_and_half) in
  exists l',
    steps (l, [invoke oor 1 (MSetMaxRPS 4 Float64.one_and_half);
               invoke oor 1 (MCall CallAllow)])
          (l', [Ret None; Ret (Some (Verdict (Some true)))]) /\
    capacity l' = newCapacity /\
    tokens l' = tokens l - 1 /\
    capacity l' < tokens l'.
Proof.
  apply (SetMaxRPS_can_lose_the_race (fun _ => 0) 4 Float64.one_and_half
           {| maxRPS := 10; capacity := 20; tokens := 20; lastRefill := 0 |}).
  - lia.
  - vm_compute. reflexivity.
  - simpl. lia.
Defined.

Lemma refill_can_overwrite_a_consumption_witness :
  let oor := fun _ : Float64.t => 0 in
  let l := {| maxRPS := 10; capacity := 20; tokens := 5; lastRefill := 0 |} in
  steps (l, [invoke oor 1 (MCall CallAvailable);
             invoke oor 1 (MCall CallAllow)])
        (refilled oor 1000000000 l,
         [Ret (Some (Count (tokens (refilled oor 1000000000 l))));
          Ret (Some (Verdict (Some true)))]).
Proof.
  apply (refill_can_overwrite_a_consumption (fun _ => 0) 1000000000
           {| maxRPS := 10; capacity := 20; tokens := 5; lastRefill := 0 |}).
  - simpl. lia.
  - simpl. lia.
  - vm_compute. reflexivity.
Defined.

(** ** Rounding, from below *)

(** Rounding to 53 bits changes a positive value by at most one part in
    [2^52], either way; both sides are scaled to the exponent [e]. *)
Lemma round53_enclosure s m e l :
  0 < m -> 53 <= Zdigits2 m -> -1074 <= Zdigits2 m + e - 53 ->
  Zdigits2 m + e <= 1023 ->
  exists m2 e2,
    round53 s m e l = S754_finite s m2 e2 /\
    2 ^ 52 <= Z.pos m2 < 2 ^ 53 /\
    Zdigits2 m + e - 53 <= e2 <= Zdigits2 m + e - 52 /\
    m * (2 ^ 52 - 1) <= Z.pos m2 * 2 ^ (e2 - e) * 2 ^ 52 <= m * (2 ^ 52 + 1).
Proof.
  intros Hm Hd He Hov.
  destruct (round53_normal s m e l Hm Hd He Hov) as (m2 & e2 & Hbra & Hm2 & He2 & Hval & _).
  exists m2, e2. split; [exact Hbra|]. split; [exact Hm2|]. split; [lia|].
  set (n := Zdigits2 m - 53) in *.
  assert (Hn : 0 <= n) by (unfold n; lia).
  assert (P : 0 < 2 ^ n) by (apply pow2_pos; lia).
  assert (Hv : m / 2 ^ n <= Z.pos m2 * 2 ^ (e2 - (e + n)) <= m / 2 ^ n + 1) by lia.
  pose proof (Z.mul_div_le m (2 ^ n) P) as Hq.
  pose proof (Z.mul_succ_div_gt m (2 ^ n) P) as Hq'.
  assert (Hlo : 2 ^ 52 * 2 ^ n <= m).
  { pose proof (Zdigits2_bounds m Hm) as [Lo _].
    rewrite <- Z.pow_add_r by lia. replace (52 + n) with (Zdigits2 m - 1) by (unfold n; lia).
    exact Lo. }
  replace (e2 - e) with ((e2 - (e + n)) + n) by lia.
  rewrite Z.pow_add_r by lia.
  set (T := Z.pos m2 * 2 ^ (e2 - (e + n))) in *.
  set (K := m / 2 ^ n) in *. set (N := 2 ^ n) in *.
  replace (Z.pos m2 * (2 ^ (e2 - (e + n)) * N)) with (T * N) by (unfold T; ring).
  assert (H1 : T * N <= (K + 1) * N) by (apply Z.mul_le_mono_nonneg_r; lia).
  assert (H2 : K * N <= T * N) by (apply Z.mul_le_mono_nonneg_r; lia).
  lia.
Qed.

Lemma SFdiv_enclosure sx mx ex sy my ey :
  2 ^ 52 <= Z.pos mx < 2 ^ 53 -> 2 ^ 52 <= Z.pos my < 2 ^ 53 ->
  -1074 <= ex - ey - 53 -> ex - ey <= 1022 ->
  exists m e,
    SFdiv 53 1024 (S754_finite sx mx ex) (S754_finite sy my ey) =
      S754_finite (xorb sx sy) m e /\
    2 ^ 52 <= Z.pos m < 2 ^ 53 /\
    ex - ey - 53 <= e <= ex - ey - 51 /\
    2 * Z.pos mx * ((2 ^ 52 - 1) * (2 ^ 52 - 1))
      <= Z.pos m * 2 ^ (e - (ex - ey - 53)) * 2 ^ 52 * Z.pos my
      <= Z.pos mx * 2 ^ 53 * (2 ^ 52 + 1).
Proof.
  intros Hx Hy Hlo Hhi.
  unfold SFdiv, SFdiv_core_binary.
  rewrite (Zdigits2_53 _ Hx), (Zdigits2_53 _ Hy).
  replace (53 + ex - (53 + ey)) with (ex - ey) by lia.
  rewrite fexp_normal by lia.
  rewrite Z.min_l by lia.
  replace (ex - ey - (ex - ey - 53)) with 53 by lia.
  rewrite Z.shiftl_mul_pow2 by lia.
  pose proof (Z_div_mod (Z.pos mx * 2 ^ 53) (Z.pos my) eq_refl) as Hdm.
  destruct (Z.div_eucl (Z.pos mx * 2 ^ 53) (Z.pos my)) as [q r].
  destruct Hdm as [Hq Hr].
  assert (Hq52 : 2 ^ 52 <= q) by nia.
  assert (Hq54 : q < 2 ^ 54) by nia.
  assert (Hdq : 53 <= Zdigits2 q <= 54).
  { destruct (Z_lt_le_dec q (2 ^ 53)).
    - rewrite (Zdigits2_53 q); lia.
    - rewrite (Zdigits2_unique q 54); lia. }
  destruct (round53_enclosure (xorb sx sy) q (ex - ey - 53) (new_location (Z.pos my) r))
    as (m & e & Hb & Hm & He & Hv); try lia.
  exists m, e. fold round53. rewrite Hb.
  split; [reflexivity|]. split; [exact Hm|]. split; [lia|].
  set (V := Z.pos m * 2 ^ (e - (ex - ey - 53)) * 2 ^ 52) in *.
  assert (Hqm : 2 * Z.pos mx * (2 ^ 52 - 1) <= q * Z.pos my <= Z.pos mx * 2 ^ 53) by lia.
  split.
  - apply Z.le_trans with (q * (2 ^ 52 - 1) * Z.pos my).
    + replace (q * (2 ^ 52 - 1) * Z.pos my) with (q * Z.pos my * (2 ^ 52 - 1)) by ring.
      replace (2 * Z.pos mx * ((2 ^ 52 - 1) * (2 ^ 52 - 1)))
        with (2 * Z.pos mx * (2 ^ 52 - 1) * (2 ^ 52 - 1)) by ring.
      apply Z.mul_le_mono_nonneg_r; lia.
    + apply Z.mul_le_mono_nonneg_r; lia.
  - apply Z.le_trans with (q * (2 ^ 52 + 1) * Z.pos my).
    + apply Z.mul_le_mono_nonneg_r; lia.
    + replace (q * (2 ^ 52 + 1) * Z.pos my) with (q * Z.pos my * (2 ^ 52 + 1)) by ring.
      apply Z.mul_le_mono_nonneg_r; lia.
Qed.

Lemma SFmul_enclosure sx mx ex sy my ey :
  2 ^ 52 <= Z.pos mx < 2 ^ 53 -> 2 ^ 52 <= Z.pos my < 2 ^ 53 ->
  -1074 <= ex + ey + 52 -> ex + ey <= 917 ->
  exists m e,
    SFmul 53 1024 (S754_finite sx mx ex) (S754_finite sy my ey) =
      S754_finite (xorb sx sy) m e /\
    2 ^ 52 <= Z.pos m < 2 ^ 53 /\
    ex + ey + 52 <= e <= ex + ey + 54 /\
    Z.pos mx * Z.pos my * (2 ^ 52 - 1)
      <= Z.pos m * 2 ^ (e - (ex + ey)) * 2 ^ 52
      <= Z.pos mx * Z.pos my * (2 ^ 52 + 1).
Proof.
  intros Hx Hy Hlo Hhi. unfold SFmul.
  assert (Hp : 2 ^ 104 <= Z.pos (mx * my) < 2 ^ 106).
  { rewrite Pos2Z.inj_mul. change (2 ^ 104) with (2 ^ 52 * 2 ^ 52).
    change (2 ^ 106) with (2 ^ 53 * 2 ^ 53). nia. }
  assert (Hd : 105 <= Zdigits2 (Z.pos (mx * my)) <= 106).
  { destruct (Z_lt_le_dec (Z.pos (mx * my)) (2 ^ 105)).
    - rewrite (Zdigits2_unique _ 105); lia.
    - rewrite (Zdigits2_unique _ 106); lia. }
  destruct (round53_enclosure (xorb sx sy) (Z.pos (mx * my)) (ex + ey) loc_Exact)
    as (m & e & Hb & Hm & He & Hv); try lia.
  exists m, e. fold round53. rewrite Hb.
  split; [reflexivity|]. split; [exact Hm|]. split; [lia|].
  rewrite Pos2Z.inj_mul in Hv. exact Hv.
Qed.

(** The quotient by [1e9] of a number of nanoseconds below [2^53], within
    one part in [2^51] of the exact quotient. *)
Lemma div_e9_enclosure d :
  0 < d < 2 ^ 53 ->
  exists m e k,
    Float64.div (Float64.of_int d) Float64.e9 = S754_finite false m e /\
    2 ^ 52 <= Z.pos m < 2 ^ 53 /\
    -82 <= e <= -28 /\
    0 <= k <= 52 /\ - k - 30 <= e /\
    d * 2 ^ k * 2 ^ 30 * ((2 ^ 52 - 1) * (2 ^ 52 - 1))
      <= Z.pos m * 2 ^ (e + k + 30) * 2 ^ 52 * 2 ^ 52 * 1000000000 /\
    Z.pos m * 2 ^ (e + k + 30) * 2 ^ 52 * 1000000000
      <= d * 2 ^ k * 2 ^ 30 * (2 ^ 52 + 1).
Proof.
  intros Hd.
  destruct (of_int_pos d) as (md & ed & Hof & Hmd & Hed & Hex); [lia|].
  destruct (Hex ltac:(lia)) as [Hed0 Hmd'].
  rewrite Hof, e9_eq. unfold Float64.div, Float64.prec, Float64.emax.
  destruct (SFdiv_enclosure false md ed false 8388608000000000 (-23))
    as (m & e & Hdiv & Hm & He & Hlo & Hup); try lia.
  exists m, e, (- ed). split; [exact Hdiv|]. split; [exact Hm|]. split; [lia|].
  split; [lia|]. split; [lia|].
  replace (ed - -23 - 53) with (- (- ed) - 30) in Hlo, Hup by lia.
  replace (e - (- - ed - 30)) with (e + - ed + 30) in Hlo, Hup by lia.
  rewrite Hmd' in Hlo, Hup.
  change (Z.pos 8388608000000000) with (1000000000 * 2 ^ 23) in Hlo, Hup.
  change (2 ^ 53) with (2 ^ 30 * 2 ^ 23) in Hup.
  set (V := Z.pos m * 2 ^ (e + - ed + 30) * 2 ^ 52) in *.
  set (W := d * 2 ^ (- ed)) in *.
  split.
  - change (2 ^ 30) with (2 ^ 8 * 2 ^ 22).
    change (2 ^ 52) with (2 ^ 30 * 2 ^ 22) at 3.
    assert (0 <= W) by (unfold W; assert (0 < 2 ^ (- ed)) by (apply pow2_pos; lia); lia).
    assert (0 <= V).
    { unfold V. assert (0 < 2 ^ (e + - ed + 30)) by (apply pow2_pos; lia). lia. }
    nia.
  - assert (H : V * 1000000000 * 2 ^ 23 <= W * 2 ^ 30 * (2 ^ 52 + 1) * 2 ^ 23) by lia.
    apply Z.mul_le_mono_pos_r in H; [exact H | reflexivity].
Qed.

(** ** How many tokens a refill adds *)

(** The integer part of a positive float, between bounds scaled to a
    common exponent. *)
Lemma trunc_finite_pos m e :
  exists t,
    Float64.trunc (S754_finite false m e) = Some t /\ 0 <= t /\
    (0 <= e -> t = Z.pos m * 2 ^ e) /\
    (e < 0 -> t * 2 ^ (- e) <= Z.pos m < (t + 1) * 2 ^ (- e)).
Proof.
  unfold Float64.trunc. cbn [cond_Zopp].
  destruct (Z.leb_spec 0 e) as [He|He].
  - exists (Z.pos m * 2 ^ e). split; [reflexivity|].
    assert (0 < 2 ^ e) by (apply pow2_pos; lia).
    split; [lia|]. split; [reflexivity | lia].
  - exists (Z.pos m / 2 ^ (- e)). split; [reflexivity|].
    assert (P : 0 < 2 ^ (- e)) by (apply pow2_pos; lia).
    split; [apply Z.div_pos; lia|]. split; [lia|]. intros _.
    pose proof (Z.mul_div_le (Z.pos m) (2 ^ (- e)) P).
    pose proof (Z.mul_succ_div_gt (Z.pos m) (2 ^ (- e)) P). lia.
Qed.

Section RefillAmount.

Variable oor : Float64.t -> Z.

(** The tokens computed for [d] nanoseconds at [maxRate] per second are
    [maxRate * d / 1e9] up to the roundings, of one part in [2^52] each:
    at most two upwards, and at most three downwards before the fraction
    is cut. *)
Lemma newTokensFor_enclosure maxRate d :
  0 < d < 2 ^ 53 -> 0 < maxRate < 2 ^ 53 ->
  d * maxRate < 2 ^ 63 * 1000000000 ->
  let t := newTokensFor oor maxRate
             (Float64.div (Float64.of_int d) Float64.e9) in
  0 <= t /\
  t * (2 ^ 104 * 1000000000)
    <= d * maxRate * ((2 ^ 52 + 1) * (2 ^ 52 + 1)) /\
  d * maxRate * ((2 ^ 52 - 1) * (2 ^ 52 - 1) * (2 ^ 52 - 1))
    < (t + 1) * (2 ^ 156 * 1000000000).
Proof.
  intros Hd HR Hprod.
  destruct (div_e9_enclosure d)
    as (mq & eq & kd & Hq & Hmq & Heq & Hkd & Ha & HQlo & HQup); [lia|].
  destruct (of_int_pos maxRate) as (mr & er & Hr & Hmr & Her & Hexr); [lia|].
  destruct (Hexr ltac:(lia)) as [Her0 Hmr'].
  unfold newTokensFor. rewrite Hq, Hr.
  unfold Float64.mul, Float64.prec, Float64.emax.
  destruct (SFmul_enclosure false mr er false mq eq)
    as (mp & ep & Hmul & Hmp & Hep & HPlo & HPup); try lia.
  rewrite Hmul. cbn [xorb]. unfold Float64.to_uint64.
  destruct (trunc_finite_pos mp ep) as (t & Ht & Ht0 & Htp & Htn). rewrite Ht.
  set (a := eq + kd + 30) in *. set (b := ep - (er + eq)) in *.
  set (kr := - er) in *.
  assert (Hb : 52 <= b <= 54) by (unfold b; lia).
  assert (Hkr : 0 <= kr <= 52) by (unfold kr; lia).
  pose proof (pow2_pos a ltac:(lia)) as PA.
  pose proof (pow2_pos b ltac:(lia)) as PB.
  pose proof (pow2_pos kr ltac:(lia)) as PX.
  pose proof (pow2_pos kd ltac:(lia)) as PY.
  rewrite Hmr' in HPlo, HPup.
  assert (Eep : ep = a + b - (kr + kd + 30)) by (unfold a, b, kr; lia).
  set (S := kr + kd + 30) in *.
  assert (PS : 0 < 2 ^ S) by (apply pow2_pos; unfold S; lia).
  assert (PAB : 0 < 2 ^ (a + b)) by (apply pow2_pos; lia).
  assert (EXY : 2 ^ kr * 2 ^ kd * 2 ^ 30 = 2 ^ S).
  { unfold S. rewrite !Z.pow_add_r by lia. reflexivity. }
  assert (EAB : 2 ^ a * 2 ^ b = 2 ^ (a + b)) by (rewrite Z.pow_add_r; lia).
  set (A := 2 ^ a) in *. set (B := 2 ^ b) in *.
  set (X := 2 ^ kr) in *. set (Y := 2 ^ kd) in *.
  set (MP := Z.pos mp) in *. set (MQ := Z.pos mq) in *.
  set (u := 2 ^ 52) in *. set (G := 1000000000) in *.
  assert (Pu : 1 < u) by (unfold u; lia).
  assert (PG : 0 < G) by (unfold G; lia).
  (* the two roundings upwards, chained *)
  assert (H3 : MP * 2 ^ (a + b) * (u * u * G)
               <= d * maxRate * ((u + 1) * (u + 1)) * 2 ^ S).
  { rewrite <- EAB, <- EXY.
    assert (H1 : MP * B * u * (A * u * G) <= maxRate * X * MQ * (u + 1) * (A * u * G)).
    { apply Z.mul_le_mono_nonneg_r; [lia | exact HPup]. }
    assert (H2 : maxRate * X * (u + 1) * (MQ * A * u * G)
                 <= maxRate * X * (u + 1) * (d * Y * 2 ^ 30 * (u + 1))).
    { apply Z.mul_le_mono_nonneg_l; [lia | exact HQup]. }
    replace (MP * (A * B) * (u * u * G)) with (MP * B * u * (A * u * G)) by ring.
    replace (d * maxRate * ((u + 1) * (u + 1)) * (X * Y * 2 ^ 30))
      with (maxRate * X * (u + 1) * (d * Y * 2 ^ 30 * (u + 1))) by ring.
    replace (maxRate * X * MQ * (u + 1) * (A * u * G))
      with (maxRate * X * (u + 1) * (MQ * A * u * G)) in H1 by ring.
    lia. }
  (* the three roundings downwards, chained *)
  assert (L3 : d * maxRate * ((u - 1) * (u - 1) * (u - 1)) * 2 ^ S
               <= MP * 2 ^ (a + b) * (u * u * u * G)).
  { rewrite <- EAB, <- EXY.
    assert (H1 : maxRate * X * MQ * (u - 1) * (A * u * u * G)
                 <= MP * B * u * (A * u * u * G)).
    { apply Z.mul_le_mono_nonneg_r; [nia | exact HPlo]. }
    assert (H2 : maxRate * X * (u - 1) * (d * Y * 2 ^ 30 * ((u - 1) * (u - 1)))
                 <= maxRate * X * (u - 1) * (MQ * A * u * u * G)).
    { apply Z.mul_le_mono_nonneg_l; [nia | exact HQlo]. }
    replace (MP * (A * B) * (u * u * u * G)) with (MP * B * u * (A * u * u * G)) by ring.
    replace (d * maxRate * ((u - 1) * (u - 1) * (u - 1)) * (X * Y * 2 ^ 30))
      with (maxRate * X * (u - 1) * (d * Y * 2 ^ 30 * ((u - 1) * (u - 1)))) by ring.
    replace (maxRate * X * MQ * (u - 1) * (A * u * u * G))
      with (maxRate * X * (u - 1) * (MQ * A * u * u * G)) in H1 by ring.
    lia. }
  set (W := d * maxRate * ((u + 1) * (u + 1))) in *.
  set (V := d * maxRate * ((u - 1) * (u - 1) * (u - 1))) in *.
  (* the integer part against the float *)
  assert (H4 : t * (u * u * G) <= W /\ V < (t + 1) * (u * u * u * G)).
  { destruct (Z_le_gt_dec 0 ep) as [Hep0|Hep0].
    - rewrite (Htp Hep0). fold MP.
      assert (E : 2 ^ (a + b) = 2 ^ ep * 2 ^ S).
      { rewrite <- Z.pow_add_r by (unfold S; lia). f_equal. lia. }
      rewrite E in H3, L3.
      replace (MP * (2 ^ ep * 2 ^ S) * (u * u * G))
        with (MP * 2 ^ ep * (u * u * G) * 2 ^ S) in H3 by ring.
      replace (MP * (2 ^ ep * 2 ^ S) * (u * u * u * G))
        with (MP * 2 ^ ep * (u * u * u * G) * 2 ^ S) in L3 by ring.
      apply Z.mul_le_mono_pos_r in H3; [|exact PS].
      apply Z.mul_le_mono_pos_r in L3; [|exact PS].
      split; [exact H3|]. nia.
    - destruct (Htn ltac:(lia)) as [Hlo Hhi]. fold MP in Hlo, Hhi.
      assert (E : 2 ^ S = 2 ^ (- ep) * 2 ^ (a + b)).
      { rewrite <- Z.pow_add_r by lia. f_equal. lia. }
      rewrite E in H3, L3.
      assert (PE : 0 < 2 ^ (- ep)) by (apply pow2_pos; lia).
      replace (MP * 2 ^ (a + b) * (u * u * G))
        with (MP * (u * u * G) * 2 ^ (a + b)) in H3 by ring.
      replace (W * (2 ^ (- ep) * 2 ^ (a + b)))
        with (W * 2 ^ (- ep) * 2 ^ (a + b)) in H3 by ring.
      apply Z.mul_le_mono_pos_r in H3; [|exact PAB].
      replace (MP * 2 ^ (a + b) * (u * u * u * G))
        with (MP * (u * u * u * G) * 2 ^ (a + b)) in L3 by ring.
      replace (V * (2 ^ (- ep) * 2 ^ (a + b)))
        with (V * 2 ^ (- ep) * 2 ^ (a + b)) in L3 by ring.
      apply Z.mul_le_mono_pos_r in L3; [|exact PAB].
      split.
      + assert (H5 : t * 2 ^ (- ep) * (u * u * G) <= MP * (u * u * G)).
        { apply Z.mul_le_mono_nonneg_r; [nia | exact Hlo]. }
        assert (H6 : t * (u * u * G) * 2 ^ (- ep) <= W * 2 ^ (- ep)) by lia.
        apply Z.mul_le_mono_pos_r in H6; [exact H6 | exact PE].
      + assert (H5 : MP * (u * u * u * G) < (t + 1) * 2 ^ (- ep) * (u * u * u * G)).
        { apply Z.mul_lt_mono_pos_r; [nia | exact Hhi]. }
        assert (H6 : V * 2 ^ (- ep) < (t + 1) * (u * u * u * G) * 2 ^ (- ep)) by lia.
        apply Z.mul_lt_mono_pos_r in H6; [exact H6 | exact PE]. }
  destruct H4 as [H4 H4'].
  (* it fits a uint64 *)
  assert (H64 : t < 2 ^ 64).
  { assert (HW : W < 2 ^ 64 * (u * u * G)).
    { unfold W. apply Z.le_lt_trans with ((2 ^ 63 * G - 1) * ((u + 1) * (u + 1))).
      - apply Z.mul_le_mono_nonneg_r; [lia | unfold G; lia].
      - unfold u, G. reflexivity. }
    assert (PUG : 0 < u * u * G) by nia.
    apply Z.mul_lt_mono_pos_r with (u * u * G); [exact PUG | lia]. }
  replace ((0 <=? t) && (t <? 2 ^ 64)) with true
    by (symmetry; apply andb_true_iff; split; [apply Z.leb_le | apply Z.ltb_lt]; lia).
  cbv zeta. split; [exact Ht0|].
  change (2 ^ 104) with (u * u). change (2 ^ 156) with (u * u * u).
  unfold W in H4. unfold V in H4'. split; lia.
Qed.

(** No token is lost to rounding, but at an exact multiple.  With at most
    a million tokens due, the tokens computed for [d] nanoseconds at
    [maxRate] per second are the integer part of [maxRate * d / 1e9] when
    this is not itself an integer, and that integer or one less when it
    is. *)
Lemma newTokensFor_is_floor maxRate d :
  0 < d -> 0 < maxRate ->
  d * maxRate / 1000000000 <= 1000000 ->
  let t := newTokensFor oor maxRate
             (Float64.div (Float64.of_int d) Float64.e9) in
  d * maxRate / 1000000000 - 1 <= t <= d * maxRate / 1000000000 /\
  0 <= t /\
  ((d * maxRate) mod 1000000000 <> 0 -> t = d * maxRate / 1000000000).
Proof.
  intros Hd HR Hk.
  pose proof (Z.div_mod (d * maxRate) 1000000000 ltac:(lia)) as Hdm.
  pose proof (Z.mod_pos_bound (d * maxRate) 1000000000 ltac:(lia)) as Hmod.
  set (k := d * maxRate / 1000000000) in *.
  set (r := (d * maxRate) mod 1000000000) in *.
  assert (Hk0 : 0 <= k) by (unfold k; apply Z.div_pos; nia).
  assert (Hsmall : d * maxRate < 1000001000000000) by lia.
  assert (Hd53 : d < 2 ^ 53) by nia.
  assert (HR53 : maxRate < 2 ^ 53) by nia.
  pose proof (newTokensFor_enclosure maxRate d ltac:(lia) ltac:(lia) ltac:(lia))
    as Henc.
  cbv zeta in Henc. destruct Henc as (Ht0 & Hup & Hlo).
  cbv zeta.
  set (t := newTokensFor oor maxRate (Float64.div (Float64.of_int d) Float64.e9)) in *.
  rewrite Hdm in Hup, Hlo.
  split; [|split; [exact Ht0|]].
  - split.
    + (* from below *)
      destruct (Z_le_gt_dec (k - 1) t) as [|Hgt]; [assumption|]. exfalso.
      assert (t + 1 <= k - 1) by lia.
      assert ((t + 1) * (2 ^ 156 * 1000000000) <= (k - 1) * (2 ^ 156 * 1000000000))
        by (apply Z.mul_le_mono_nonneg_r; lia).
      lia.
    + (* from above *)
      destruct (Z_le_gt_dec t k) as [|Hgt]; [assumption|]. exfalso.
      assert ((k + 1) * (2 ^ 104 * 1000000000) <= t * (2 ^ 104 * 1000000000))
        by (apply Z.mul_le_mono_nonneg_r; lia).
      lia.
  - intros Hr.
    destruct (Z_le_gt_dec k t) as [Hle|Hgt].
    + destruct (Z_le_gt_dec t k) as [|Hgt]; [lia|]. exfalso.
      assert ((k + 1) * (2 ^ 104 * 1000000000) <= t * (2 ^ 104 * 1000000000))
        by (apply Z.mul_le_mono_nonneg_r; lia).
      lia.
    + exfalso.
      assert ((t + 1) * (2 ^ 156 * 1000000000) <= k * (2 ^ 156 * 1000000000))
        by (apply Z.mul_le_mono_nonneg_r; lia).
      lia.
Qed.

End RefillAmount.

(** ** The rate *)

Section Rate.

Variable oor : Float64.t -> Z.

(** The tokens due after [d] nanoseconds without a refill. *)
Lemma tokensDue_after now l :
  0 < now - lastRefill l < 2 ^ 63 ->
  tokensDue oor now l =
  newTokensFor oor (maxRPS l)
    (Float64.div (Float64.of_int (now - lastRefill l)) Float64.e9).
Proof.
  intros Hd. unfold tokensDue. rewrite elapsed_positive.
  unfold elapsedSeconds. rewrite i64_small by lia.
  destruct (Z.ltb_spec 0 (now - lastRefill l)); [reflexivity | lia].
Qed.

(** A refill on a bucket within bounds adds the tokens due, up to the
    capacity; no wrap-around occurs when the sum fits a [uint64]. *)
Lemma refilled_tokens_after now l :
  0 < now - lastRefill l < 2 ^ 63 ->
  0 <= tokens l <= capacity l ->
  0 <= tokensDue oor now l ->
  tokens l + tokensDue oor now l < 2 ^ 64 ->
  tokens (refilled oor now l) =
  Z.min (tokens l + tokensDue oor now l) (capacity l) /\
  lastRefill (refilled oor now l) = now.
Proof.
  intros Hd Hb Hdue Hfit. rewrite refilled_eq, elapsed_positive.
  rewrite i64_small by lia.
  destruct (Z.ltb_spec 0 (now - lastRefill l)); [|lia].
  destruct (Z.ltb_spec 0 (tokensDue oor now l)) as [Hpos|Hzero]; cbn.
  - rewrite u64_small by lia. split; reflexivity.
  - split; [lia | reflexivity].
Qed.

(** One refill against the rate: what it adds is covered by the time it
    consumes. *)
Lemma refilled_within_rate now l :
  0 < maxRPS l < 2 ^ 53 ->
  0 <= tokens l <= capacity l ->
  lastRefill l <= now ->
  now - lastRefill l < 2 ^ 53 ->
  (now - lastRefill l) * maxRPS l < 2 ^ 63 * 1000000000 ->
  let l' := refilled oor now l in
  0 <= tokens l' <= capacity l /\
  lastRefill l <= lastRefill l' <= now /\
  tokens l' * (2 ^ 104 * 1000000000)
  <= tokens l * (2 ^ 104 * 1000000000)
     + maxRPS l * (lastRefill l' - lastRefill l)
       * ((2 ^ 52 + 1) * (2 ^ 52 + 1)).
Proof.
  intros HR Hb Hnow Hd Hprod. cbv zeta.
  destruct (Z.eq_dec now (lastRefill l)) as [Heq|Hne].
  - assert (E : refilled oor now l = l).
    { rewrite refilled_eq, elapsed_positive, Heq, Z.sub_diag. reflexivity. }
    rewrite E. lia.
  - assert (Hd' : 0 < now - lastRefill l < 2 ^ 63) by lia.
    pose proof (newTokensFor_enclosure oor (maxRPS l) (now - lastRefill l)
                  ltac:(lia) ltac:(lia) ltac:(lia)) as Henc.
    cbv zeta in Henc. rewrite <- (tokensDue_after now l Hd') in Henc.
    destruct Henc as (Ht0 & Hup & _).
    set (t := tokensDue oor now l) in *.
    rewrite refilled_eq, elapsed_positive. rewrite i64_small by lia.
    destruct (Z.ltb_spec 0 (now - lastRefill l)); [|lia].
    fold t. destruct (Z.ltb_spec 0 t) as [Hpos|Hzero]; cbn.
    + pose proof (u64_le (tokens l + t) ltac:(lia)) as Hu.
      split; [lia|]. split; [lia|].
      assert (Hmin : Z.min (u64 (tokens l + t)) (capacity l) <= tokens l + t)
        by lia.
      apply Z.le_trans with ((tokens l + t) * (2 ^ 104 * 1000000000)).
      * apply Z.mul_le_mono_nonneg_r; [lia | exact Hmin].
      * replace (maxRPS l * (now - lastRefill l))
          with ((now - lastRefill l) * maxRPS l) by ring.
        lia.
    + split; [lia|]. split; [lia|].
      assert (0 <= maxRPS l * (now - lastRefill l) * ((2 ^ 52 + 1) * (2 ^ 52 + 1)))
        by (apply Z.mul_nonneg_nonneg; [nia | lia]).
      lia.
Qed.

(** One call against the rate. *)
Lemma perform_within_rate fuel c now l :
  0 < maxRPS l < 2 ^ 53 ->
  0 <= tokens l <= capacity l -> capacity l < 2 ^ 64 ->
  call_ok c ->
  lastRefill l <= now ->
  now - lastRefill l < 2 ^ 53 ->
  (now - lastRefill l) * maxRPS l < 2 ^ 63 * 1000000000 ->
  let r := fst (run (perform oor (S fuel) c) now l) in
  let l' := snd (run (perform oor (S fuel) c) now l) in
  maxRPS l' = maxRPS l /\ capacity l' = capacity l /\
  0 <= tokens l' <= capacity l /\
  lastRefill l <= lastRefill l' <= now /\
  (taken c r + tokens l') * (2 ^ 104 * 1000000000)
  <= tokens l * (2 ^ 104 * 1000000000)
     + maxRPS l * (lastRefill l' - lastRefill l)
       * ((2 ^ 52 + 1) * (2 ^ 52 + 1)).
Proof.
  intros HR Hb Hcap Hok Hnow Hd Hprod. cbv zeta.
  pose proof (refilled_within_rate now l HR Hb Hnow Hd Hprod) as Hrf.
  cbv zeta in Hrf. destruct Hrf as (Hb' & Hlr & Hrate).
  pose proof (refilled_maxRPS oor now l) as HR'.
  pose proof (refilled_capacity oor now l) as HC'.
  set (l1 := refilled oor now l) in *.
  assert (Hsame : maxRPS l = maxRPS l /\ capacity l = capacity l /\
            0 <= tokens l <= capacity l /\
            lastRefill l <= lastRefill l <= now /\
            (0 + tokens l) * (2 ^ 104 * 1000000000)
            <= tokens l * (2 ^ 104 * 1000000000)
               + maxRPS l * (lastRefill l - lastRefill l)
                 * ((2 ^ 52 + 1) * (2 ^ 52 + 1))).
  { rewrite Z.sub_diag, Z.mul_0_r, Z.mul_0_l. repeat split; lia. }
  assert (Hkeep : maxRPS l1 = maxRPS l /\ capacity l1 = capacity l /\
            0 <= tokens l1 <= capacity l /\
            lastRefill l <= lastRefill l1 <= now /\
            (0 + tokens l1) * (2 ^ 104 * 1000000000)
            <= tokens l * (2 ^ 104 * 1000000000)
               + maxRPS l * (lastRefill l1 - lastRefill l)
                 * ((2 ^ 52 + 1) * (2 ^ 52 + 1))).
  { repeat split; try lia. }
  rewrite run_perform. destruct c as [ | n | ]; cbn [fst snd taken].
  - rewrite run_Allow. destruct (Z.eqb_spec (maxRPS l) 0) as [|_]; [lia|].
    cbv zeta. fold l1.
    destruct (Z.eqb_spec (tokens l1) 0) as [H0|H0]; cbn [fst snd taken].
    + exact Hkeep.
    + cbn [set maxRPS capacity tokens lastRefill].
      rewrite u64_small by lia.
      replace (1 + (tokens l1 - 1)) with (tokens l1) by ring.
      repeat split; try lia.
  - rewrite run_TryAllow. destruct (Z.eqb_spec (maxRPS l) 0) as [|_]; [lia|].
    cbn in Hok. unfold is_u64 in Hok.
    destruct (Z.eqb_spec n 0) as [->|Hn]; cbn [fst snd taken]; [exact Hsame|].
    destruct (Z.ltb_spec (capacity l) n) as [Hbig|Hfits]; cbn [fst snd taken];
      [exact Hsame|].
    cbv zeta. fold l1.
    destruct (Z.ltb_spec (tokens l1) n) as [Hlack|Henough]; cbn [fst snd taken].
    + exact Hkeep.
    + cbn [set maxRPS capacity tokens lastRefill].
      rewrite u64_small by lia.
      replace (n + (tokens l1 - n)) with (tokens l1) by ring.
      repeat split; try lia.
  - rewrite run_Available. cbn [fst snd]. fold l1. exact Hkeep.
Qed.

(** Whatever is granted over a sequence of calls is covered by the tokens
    at the start and the time the calls span, at the rate. *)
Lemma granted_scaled fuel t_end : forall calls l,
  0 < maxRPS l < 2 ^ 53 ->
  0 <= tokens l <= capacity l -> capacity l < 2 ^ 64 ->
  Forall (fun c => call_ok (snd c)) calls ->
  nondecreasing (lastRefill l) (map fst calls) ->
  Forall (fun c => fst c <= t_end) calls ->
  lastRefill l <= t_end ->
  t_end - lastRefill l < 2 ^ 53 ->
  (t_end - lastRefill l) * maxRPS l < 2 ^ 63 * 1000000000 ->
  granted calls (runCalls oor (S fuel) calls l) * (2 ^ 104 * 1000000000)
  <= tokens l * (2 ^ 104 * 1000000000)
     + maxRPS l * (t_end - lastRefill l) * ((2 ^ 52 + 1) * (2 ^ 52 + 1)).
Proof.
  induction calls as [|[now c] calls IH];
    intros l HR Hb Hcap Hok Hclock Hend Hle Hd Hprod.
  - cbn [granted runCalls]. rewrite Z.mul_0_l.
    assert (0 <= maxRPS l * (t_end - lastRefill l) * ((2 ^ 52 + 1) * (2 ^ 52 + 1)))
      by (apply Z.mul_nonneg_nonneg; [nia | lia]).
    nia.
  - rewrite runCalls_cons.
    inversion Hok as [|? ? Hc Hcs]; subst.
    inversion Hend as [|? ? He Hes]; subst. cbn [fst] in He.
    cbn [map fst nondecreasing] in Hclock. destruct Hclock as [Hnow Hrest].
    assert (Hd1 : now - lastRefill l < 2 ^ 53) by lia.
    assert (Hp1 : (now - lastRefill l) * maxRPS l < 2 ^ 63 * 1000000000) by nia.
    pose proof (perform_within_rate fuel c now l HR Hb Hcap Hc Hnow Hd1 Hp1)
      as Hstep.
    cbv zeta in Hstep.
    destruct (run (perform oor (S fuel) c) now l) as [r l'] eqn:Hrun.
    cbn [fst snd] in Hstep.
    destruct Hstep as (HR' & HC' & Hb' & Hlr & Hrate).
    cbn [granted snd].
    assert (Hrest' : nondecreasing (lastRefill l') (map fst calls)).
    { destruct calls as [|[now2 c2] calls2]; [exact I|].
      cbn [map fst nondecreasing] in *. split; [lia | apply Hrest]. }
    assert (Hp2 : (t_end - lastRefill l') * maxRPS l' < 2 ^ 63 * 1000000000)
      by (rewrite HR'; nia).
    specialize (IH l' ltac:(lia) ltac:(lia) ltac:(lia) Hcs Hrest' Hes
                  ltac:(lia) ltac:(lia) Hp2).
    rewrite HR' in IH.
    set (K := 2 ^ 104 * 1000000000) in *.
    set (C := (2 ^ 52 + 1) * (2 ^ 52 + 1)) in *.
    rewrite Z.mul_add_distr_r in *.
    replace (maxRPS l * (t_end - lastRefill l) * C)
      with (maxRPS l * (lastRefill l' - lastRefill l) * C
            + maxRPS l * (t_end - lastRefill l') * C) by ring.
    lia.
Qed.

End Rate.

(** ** Refill after elapsed time *)

Section AfterOneSecond.

Variable oor : Float64.t -> Z.

(** After a second or more, at least [maxRate] tokens are computed: the
    roundings lose less than the part of a token that the first nanosecond
    over the second brings. *)
Lemma newTokensFor_one_second_or_more maxRate d :
  0 < maxRate < 2 ^ 53 -> 1000000000 <= d < 2 ^ 53 ->
  d * maxRate < 2 ^ 63 * 1000000000 ->
  maxRate <= newTokensFor oor maxRate
               (Float64.div (Float64.of_int d) Float64.e9).
Proof.
  intros HR Hd Hprod.
  destruct (Z.eq_dec d 1000000000) as [->|Hne].
  - change (Float64.div (Float64.of_int 1000000000) Float64.e9)
      with Float64.one.
    unfold newTokensFor. rewrite to_uint64_mul_one by lia. lia.
  - pose proof (newTokensFor_enclosure oor maxRate d ltac:(lia) HR Hprod)
      as Henc.
    cbv zeta in Henc. destruct Henc as (Ht0 & _ & Hdown).
    set (t := newTokensFor oor maxRate
                (Float64.div (Float64.of_int d) Float64.e9)) in *.
    destruct (Z_le_gt_dec maxRate t) as [|Hlt]; [assumption|]. exfalso.
    assert (H1 : 1000000001 * maxRate <= d * maxRate) by nia.
    set (P := d * maxRate) in *.
    assert (H2 : 1000000001 * maxRate
                   * ((2 ^ 52 - 1) * (2 ^ 52 - 1) * (2 ^ 52 - 1))
                 <= P * ((2 ^ 52 - 1) * (2 ^ 52 - 1) * (2 ^ 52 - 1)))
      by (apply Z.mul_le_mono_nonneg_r; lia).
    assert (H3 : (t + 1) * (2 ^ 156 * 1000000000)
                 <= maxRate * (2 ^ 156 * 1000000000))
      by (apply Z.mul_le_mono_nonneg_r; lia).
    lia.
Qed.

End AfterOneSecond.

(** C4 as stated fails.  Two seconds after a bucket of capacity 20 and
    rate 10 was drained, [Available] returns 20, not
    [min(capacity, maxRPS) = 10]: "at least one second" allows more than
    [maxRPS] tokens to be due. *)
Lemma refill_after_elapsed_counterexample :
  ~ (forall (oor : Float64.t -> Z) (now : Z) (l : ATLimiter),
       0 < maxRPS l -> tokens l = 0 ->
       1000000000 <= now - lastRefill l ->
       fst (run (Available oor) now l) = Z.min (capacity l) (maxRPS l)).
Proof.
  intros H.
  specialize (H (fun _ => 0) 2000000000
                (snd (run (TryAllow (fun _ => 0) 1 20) 0
                        (NewLimiter (fun _ => 0) 0 10 Float64.two)))).
  vm_compute in H.
  assert (E : 20 = 10); [|discriminate E].
  apply H; [reflexivity | reflexivity | discriminate].
Qed.

(** C4, amended (refill after elapsed time).  On a drained bucket with a
    rate below [2^53], [d] nanoseconds after the last refill ([d] below
    [2^53], and [maxRPS * d / 1e9] below [2^63]), [Available] returns:
    in general, with at most a million tokens due, the integer part of
    [maxRPS * d / 1e9] capped at the capacity when [maxRPS * d] is no
    multiple of [1e9], and that or the value for one token less when it
    is; after a second or more, at least [min(capacity, maxRPS)] and at
    most the capacity, hence [min(capacity, maxRPS)] when the capacity is
    the rate; and [min(capacity, maxRPS)] as long as the time for one
    more token has not elapsed after the second, for rates up to a
    million. *)
Theorem refill_after_elapsed (oor : Float64.t -> Z) (now : Z)
  (l : ATLimiter) :
  0 < maxRPS l < 2 ^ 53 -> tokens l = 0 -> 0 <= capacity l ->
  0 < now - lastRefill l < 2 ^ 53 ->
  (now - lastRefill l) * maxRPS l < 2 ^ 63 * 1000000000 ->
  let d := now - lastRefill l in
  let due := d * maxRPS l / 1000000000 in
  let available := fst (run (Available oor) now l) in
  (due <= 1000000 ->
   Z.min (capacity l) (due - 1) <= available <= Z.min (capacity l) due /\
   ((d * maxRPS l) mod 1000000000 <> 0 ->
    available = Z.min (capacity l) due)) /\
  (1000000000 <= d ->
   Z.min (capacity l) (maxRPS l) <= available <= capacity l /\
   (capacity l = maxRPS l -> available = Z.min (capacity l) (maxRPS l))) /\
  (1000000000 <= d -> d * maxRPS l < 1000000000 * (maxRPS l + 1) ->
   maxRPS l <= 1000000 ->
   available = Z.min (capacity l) (maxRPS l)).
Proof.
  intros HR Ht Hc Hd Hprod d due available.
  assert (Hd63 : 0 < now - lastRefill l < 2 ^ 63) by lia.
  pose proof (tokensDue_after oor now l Hd63) as Edue.
  pose proof (to_uint64_range oor
                (Float64.mul (Float64.of_int (maxRPS l))
                   (Float64.div (Float64.of_int (now - lastRefill l))
                      Float64.e9))) as Hrange.
  fold (newTokensFor oor (maxRPS l)
          (Float64.div (Float64.of_int (now - lastRefill l)) Float64.e9))
    in Hrange.
  rewrite <- Edue in Hrange.
  assert (Eav : available = Z.min (capacity l) (tokensDue oor now l)).
  { unfold available. rewrite run_Available. cbn [fst].
    destruct (refilled_tokens_after oor now l Hd63) as [-> _]; lia. }
  assert (Hfloor : due <= 1000000 ->
            due - 1 <= tokensDue oor now l <= due /\
            ((d * maxRPS l) mod 1000000000 <> 0 ->
             tokensDue oor now l = due)).
  { intros Hk.
    pose proof (newTokensFor_is_floor oor (maxRPS l) (now - lastRefill l)
                  ltac:(lia) ltac:(lia) Hk) as Hfl.
    cbv zeta in Hfl. rewrite <- Edue in Hfl.
    destruct Hfl as (H1 & _ & H2). split; assumption. }
  assert (Hsec : 1000000000 <= d -> maxRPS l <= tokensDue oor now l).
  { intros H1s. rewrite Edue.
    apply newTokensFor_one_second_or_more; unfold d in H1s; lia. }
  split; [|split].
  - intros Hk. destruct (Hfloor Hk) as [H1 H2]. split; [lia|].
    intros Hr. rewrite Eav, (H2 Hr). reflexivity.
  - intros H1s. specialize (Hsec H1s). split; lia.
  - intros H1s Hnext Hmillion. specialize (Hsec H1s).
    assert (Edue1 : due = maxRPS l).
    { unfold due. symmetry. apply Z.div_unique with (d * maxRPS l - 1000000000 * maxRPS l).
      - left. unfold d in *. nia.
      - ring. }
    destruct (Hfloor ltac:(lia)) as [[_ Hup] _]. lia.
Qed.

Lemma refill_after_elapsed_witness :
  let oor := fun _ : Float64.t => 0 in
  let l := {| maxRPS := 10; capacity := 20; tokens := 0; lastRefill := 5 |} in
  let available := fst (run (Available oor) 1050000005 l) in
  (Z.min (capacity l) 9 <= available <= Z.min (capacity l) 10 /\
   available = Z.min (capacity l) 10) /\
  Z.min (capacity l) (maxRPS l) <= available <= capacity l /\
  available = Z.min (capacity l) (maxRPS l).
Proof.
  pose proof (refill_after_elapsed (fun _ => 0) 1050000005
                {| maxRPS := 10; capacity := 20; tokens := 0;
                   lastRefill := 5 |}) as H.
  cbv zeta in H.
  specialize (H ltac:(simpl; lia) eq_refl ltac:(simpl; lia)
                ltac:(simpl; lia) ltac:(simpl; lia)).
  destruct H as (H1 & H2 & H3).
  split; [|split].
  - destruct H1 as [Hb He]; [vm_compute; discriminate|].
    split; [exact Hb | apply He; vm_compute; discriminate].
  - destruct H2 as [Hb _]; [vm_compute; discriminate | exact Hb].
  - apply H3; [vm_compute; discriminate | vm_compute; reflexivity
              | vm_compute; discriminate].
Defined.

(** ** What a caller can count on *)

Section RateTheorems.

Variable oor : Float64.t -> Z.

(** X10 (the rate is an upper bound).  On a limiter with a rate, calls of
    [Allow], [TryAllow] and [Available] issued one after the other, at clock
    readings that never decrease, between the last refill and [t_end], are
    granted at most the tokens the bucket held at the start plus [maxRPS]
    tokens per second elapsed, rounded down; the rate times the nanoseconds
    elapsed is at most [10^15]. *)
Theorem granted_within_rate (fuel : nat) (t_end : Z) (l : ATLimiter)
  (calls : list (Z * call)) :
  0 < maxRPS l < 2 ^ 53 ->
  0 <= tokens l <= capacity l -> capacity l < 2 ^ 64 ->
  Forall (fun c => call_ok (snd c)) calls ->
  nondecreasing (lastRefill l) (map fst calls) ->
  Forall (fun c => fst c <= t_end) calls ->
  lastRefill l <= t_end ->
  (t_end - lastRefill l) * maxRPS l <= 1000000000000000 ->
  granted calls (runCalls oor (S fuel) calls l)
  <= tokens l + (t_end - lastRefill l) * maxRPS l / 1000000000.
Proof.
  intros HR Hb Hcap Hok Hclock Hend Hle Hprod.
  assert (Hd : t_end - lastRefill l < 2 ^ 53) by nia.
  pose proof (granted_scaled oor fuel t_end calls l HR Hb Hcap Hok Hclock Hend
                Hle Hd ltac:(lia)) as Hs.
  set (g := granted calls (runCalls oor (S fuel) calls l)) in *.
  replace (maxRPS l * (t_end - lastRefill l))
    with ((t_end - lastRefill l) * maxRPS l) in Hs by ring.
  set (P := (t_end - lastRefill l) * maxRPS l) in *.
  pose proof (Z.div_mod P 1000000000 ltac:(lia)) as Hdm.
  pose proof (Z.mod_pos_bound P 1000000000 ltac:(lia)) as Hmod.
  set (k := P / 1000000000) in *. set (r := P mod 1000000000) in *.
  destruct (Z_le_gt_dec g (tokens l + k)) as [|Hgt]; [assumption|]. exfalso.
  assert (Hk : k <= 1000000) by lia.
  assert (H1 : (tokens l + k + 1) * (2 ^ 104 * 1000000000)
               <= g * (2 ^ 104 * 1000000000))
    by (apply Z.mul_le_mono_nonneg_r; lia).
  rewrite Hdm in Hs. lia.
Qed.

(** X11 (refill after an idle period).  On a limiter with a positive rate,
    a count within the capacity and a capacity below [2^64 - 10^6],
    [Available], called [d > 0] nanoseconds after the last refill with at
    most a million tokens due ([maxRPS * d / 1e9 <= 10^6]), returns the
    count raised by the integer part of [maxRPS * d / 1e9] and capped at
    the capacity when [maxRPS * d] is no multiple of [1e9]; when it is, it
    returns that value or the value for one token less. *)
Theorem Available_after_idle (now : Z) (l : ATLimiter) :
  0 < maxRPS l ->
  0 <= tokens l <= capacity l -> capacity l + 1000000 < 2 ^ 64 ->
  lastRefill l < now ->
  (now - lastRefill l) * maxRPS l / 1000000000 <= 1000000 ->
  let due := (now - lastRefill l) * maxRPS l / 1000000000 in
  let available := fst (run (Available oor) now l) in
  Z.min (tokens l + due - 1) (capacity l) <= available
    <= Z.min (tokens l + due) (capacity l) /\
  (((now - lastRefill l) * maxRPS l) mod 1000000000 <> 0 ->
   available = Z.min (tokens l + due) (capacity l)).
Proof.
  intros HR Hb Hcap Hnow Hk. cbv zeta.
  pose proof (newTokensFor_is_floor oor (maxRPS l) (now - lastRefill l)
                ltac:(lia) HR Hk) as Hfl.
  cbv zeta in Hfl.
  assert (Hd : 0 < now - lastRefill l < 2 ^ 63).
  { split; [lia|].
    pose proof (Z.div_mod ((now - lastRefill l) * maxRPS l) 1000000000
                  ltac:(lia)) as Hdm.
    pose proof (Z.mod_pos_bound ((now - lastRefill l) * maxRPS l) 1000000000
                  ltac:(lia)) as Hmod.
    nia. }
  rewrite <- (tokensDue_after oor now l Hd) in Hfl.
  destruct Hfl as (Hrange & Ht0 & Hexact).
  rewrite run_Available. cbn [fst].
  destruct (refilled_tokens_after oor now l Hd Hb Ht0 ltac:(lia)) as [-> _].
  split; [lia|]. intros Hr. rewrite (Hexact Hr). reflexivity.
Qed.

(** X12 (a request passes after a wait).  On a limiter with a rate below
    [2^53], a count within the capacity and a capacity from 1 to below
    [2^63], once the time for two tokens has elapsed since the last refill
    ([maxRPS * d >= 2e9], for [d] below [2^53] nanoseconds and
    [maxRPS * d / 1e9] below [2^62]), [Allow] returns true, however empty
    the bucket was. *)
Theorem Allow_after_wait (fuel : nat) (now : Z) (l : ATLimiter) :
  0 < maxRPS l < 2 ^ 53 ->
  0 <= tokens l <= capacity l -> 1 <= capacity l -> capacity l < 2 ^ 63 ->
  now - lastRefill l < 2 ^ 53 ->
  2 * 1000000000 <= (now - lastRefill l) * maxRPS l ->
  (now - lastRefill l) * maxRPS l < 2 ^ 62 * 1000000000 ->
  fst (run (Allow oor (S fuel)) now l) = Some true.
Proof.
  intros HR Hb Hc1 Hcap Hd53 Hlo Hhi.
  assert (Hd : 0 < now - lastRefill l < 2 ^ 63) by nia.
  pose proof (newTokensFor_enclosure oor (maxRPS l) (now - lastRefill l)
                ltac:(lia) HR ltac:(lia)) as Henc.
  cbv zeta in Henc. rewrite <- (tokensDue_after oor now l Hd) in Henc.
  destruct Henc as (Ht0 & Hup & Hdown).
  set (t := tokensDue oor now l) in *.
  set (P := (now - lastRefill l) * maxRPS l) in *.
  assert (Ht1 : 1 <= t).
  { destruct (Z_le_gt_dec 1 t) as [|Hz]; [assumption|]. exfalso.
    assert (t = 0) by lia. subst t.
    assert (2 * 1000000000 * ((2 ^ 52 - 1) * (2 ^ 52 - 1) * (2 ^ 52 - 1))
            <= P * ((2 ^ 52 - 1) * (2 ^ 52 - 1) * (2 ^ 52 - 1)))
      by (apply Z.mul_le_mono_nonneg_r; lia).
    lia. }
  assert (Ht63 : t < 2 ^ 63).
  { assert (P * ((2 ^ 52 + 1) * (2 ^ 52 + 1))
            <= (2 ^ 62 * 1000000000) * ((2 ^ 52 + 1) * (2 ^ 52 + 1)))
      by (apply Z.mul_le_mono_nonneg_r; lia).
    destruct (Z_le_gt_dec (2 ^ 63) t) as [Hbig|]; [|lia]. exfalso.
    assert (2 ^ 63 * (2 ^ 104 * 1000000000) <= t * (2 ^ 104 * 1000000000))
      by (apply Z.mul_le_mono_nonneg_r; lia).
    lia. }
  rewrite run_Allow. destruct (Z.eqb_spec (maxRPS l) 0) as [|_]; [lia|].
  cbv zeta.
  destruct (refilled_tokens_after oor now l Hd Hb Ht0 ltac:(fold t; lia))
    as [Htok _].
  fold t in Htok.
  destruct (Z.eqb_spec (tokens (refilled oor now l)) 0) as [H0|H0];
    [lia | reflexivity].
Qed.

End RateTheorems.

Lemma granted_within_rate_witness :
  let oor := fun _ : Float64.t => 0 in
  let l := {| maxRPS := 10; capacity := 20; tokens := 20; lastRefill := 0 |} in
  let calls :=
    [(0, CallTryAllow 15); (5, CallAllow); (1000000000, CallAvailable);
     (1500000000, CallTryAllow 12); (1500000000, CallAllow)] in
  granted calls (runCalls oor 1 calls l)
  <= tokens l + (2000000000 - lastRefill l) * maxRPS l / 1000000000.
Proof.
  apply (granted_within_rate (fun _ => 0) 0 2000000000
           {| maxRPS := 10; capacity := 20; tokens := 20; lastRefill := 0 |}
           [(0, CallTryAllow 15); (5, CallAllow); (1000000000, CallAvailable);
            (1500000000, CallTryAllow 12); (1500000000, CallAllow)]).
  - simpl. lia.
  - simpl. lia.
  - simpl. lia.
  - repeat constructor; simpl; unfold is_u64; lia.
  - simpl. lia.
  - repeat constructor; simpl; lia.
  - simpl. lia.
  - simpl. lia.
Defined.

Lemma Available_after_idle_witness :
  let oor := fun _ : Float64.t => 0 in
  let l := {| maxRPS := 10; capacity := 20; tokens := 5; lastRefill := 0 |} in
  let due := (550000000 - lastRefill l) * maxRPS l / 1000000000 in
  let available := fst (run (Available oor) 550000000 l) in
  Z.min (tokens l + due - 1) (capacity l) <= available
    <= Z.min (tokens l + due) (capacity l) /\
  (((550000000 - lastRefill l) * maxRPS l) mod 1000000000 <> 0 ->
   available = Z.min (tokens l + due) (capacity l)).
Proof.
  apply (Available_after_idle (fun _ => 0) 550000000
           {| maxRPS := 10; capacity := 20; tokens := 5; lastRefill := 0 |}).
  - simpl. lia.
  - simpl. lia.
  - simpl. lia.
  - simpl. lia.
  - vm_compute. discriminate.
Defined.

Lemma Allow_after_wait_witness :
  let oor := fun _ : Float64.t => 0 in
  let l := {| maxRPS := 10; capacity := 20; tokens := 0; lastRefill := 0 |} in
  fst (run (Allow oor 1) 200000000 l) = Some true.
Proof.
  apply (Allow_after_wait (fun _ => 0) 0 200000000
           {| maxRPS := 10; capacity := 20; tokens := 0; lastRefill := 0 |});
    simpl; lia.
Defined.

(** The token that is late at an exact multiple: 290 ms at 100 per second
    are 29 tokens, and 28 are added. *)
Example late_token :
  let l := {| maxRPS := 100; capacity := 100; tokens := 0; lastRefill := 0 |} in
  fst (run (Available (fun _ => 0)) 290000000 l) = 28.
Proof. vm_compute. reflexivity. Qed.

(** ** Unlimited mode under interleaving *)

Lemma act_passes_unlimited l (p : prog (option bool)) l' p' :
  maxRPS l = 0 -> passes_unlimited p -> act l p l' p' ->
  l' = l /\ passes_unlimited p'.
Proof.
  intros H0 Hp Hact. destruct Hact; cbn [passes_unlimited] in Hp;
    try contradiction.
  destruct Hp as [-> Hk]. cbn [get]. rewrite H0. split; [reflexivity | exact Hk].
Qed.

Lemma step_passes_unlimited l ts l' ts' :
  maxRPS l = 0 -> Forall passes_unlimited ts -> step (l, ts) (l', ts') ->
  l' = l /\ Forall passes_unlimited ts'.
Proof.
  intros H0 Hts Hstep. inversion Hstep as [l1 l2 before p p' after Hact]; subst.
  apply Forall_app in Hts. destruct Hts as [Hb Hpa].
  inversion Hpa as [|? ? Hp Ha]; subst.
  destruct (act_passes_unlimited _ _ _ _ H0 Hp Hact) as [-> Hp'].
  split; [reflexivity|].
  apply Forall_app. split; [exact Hb | constructor; assumption].
Qed.

Section UnlimitedInterleaved.

Variable oor : Float64.t -> Z.

Lemma admission_call_passes p : admission_call oor p -> passes_unlimited p.
Proof.
  intros [fuel [-> | [n ->]]]; cbn; split; reflexivity.
Qed.

(** X13 (unlimited mode under interleaving).  On a limiter whose rate is 0,
    calls of [Allow] and [TryAllow] that run interleaved in any order leave
    the limiter as it was at every instant, and every call that has returned
    has returned true. *)
Theorem unlimited_interleaved (l l' : ATLimiter)
  (ts ts' : list (prog (option bool))) :
  maxRPS l = 0 ->
  Forall (admission_call oor) ts ->
  steps (l, ts) (l', ts') ->
  l' = l /\
  Forall (fun p => forall r, returned r p -> r = Some true) ts'.
Proof.
  intros H0 Hts Hsteps.
  assert (Hp : Forall passes_unlimited ts).
  { eapply Forall_impl; [|exact Hts]. apply admission_call_passes. }
  clear Hts.
  assert (Hinv : forall c c', steps c c' ->
            maxRPS (fst c) = 0 -> Forall passes_unlimited (snd c) ->
            fst c' = fst c /\ Forall passes_unlimited (snd c')).
  { intros c c' H. induction H as [c | [l1 ts1] [l2 ts2] c3 Hstep Hrest IH];
      intros Hz Hf; [split; [reflexivity | exact Hf]|].
    cbn [fst snd] in *.
    destruct (step_passes_unlimited _ _ _ _ Hz Hf Hstep) as [-> Hf2].
    apply IH; assumption. }
  destruct (Hinv _ _ Hsteps H0 Hp) as [E Hp']. cbn [fst snd] in *.
  split; [exact E|].
  eapply Forall_impl; [|exact Hp'].
  intros p Hpp r Hr. unfold returned in Hr. subst p. exact Hpp.
Qed.

End UnlimitedInterleaved.

Lemma unlimited_interleaved_witness :
  let oor := fun _ : Float64.t => 0 in
  let l := NewLimiter oor 0 0 Float64.two in
  let l' := snd (run (TryAllow oor 1 1000) 5 l) in
  let ts' := [Allow oor 1; Ret (fst (run (TryAllow oor 1 1000) 5 l))] in
  l' = l /\
  Forall (fun p => forall r, returned r p -> r = Some true) ts'.
Proof.
  apply (unlimited_interleaved (fun _ => 0)
           (NewLimiter (fun _ => 0) 0 0 Float64.two)
           (snd (run (TryAllow (fun _ => 0) 1 1000) 5
              (NewLimiter (fun _ => 0) 0 0 Float64.two)))
           [Allow (fun _ => 0) 1; TryAllow (fun _ => 0) 1 1000]
           [Allow (fun _ => 0) 1;
            Ret (fst (run (TryAllow (fun _ => 0) 1 1000) 5
              (NewLimiter (fun _ => 0) 0 0 Float64.two)))]).
  - reflexivity.
  - repeat constructor.
    + exists 1%nat. left. reflexivity.
    + exists 1%nat. right. exists 1000. reflexivity.
  - apply (run_steps_among (TryAllow (fun _ => 0) 1 1000) 5
             [Allow (fun _ => 0) 1] []).
Defined.

(** ** A change of the rate and the time before it *)

Section RateChange.

Variable oor : Float64.t -> Z.

(** X14 (a new rate is applied to the time before the change).  [SetMaxRPS]
    leaves the refill timestamp alone, so the next refill credits all the
    time since the last refill at the new rate, whenever between the two
    the rate was changed.  For a new rate above 0, a new capacity below
    [2^64 - 10^6] and at most a million tokens due at the new rate
    ([newMaxRPS * (now - lastRefill) / 1e9 <= 10^6], [now] after
    [lastRefill]), [Available] returns the count [SetMaxRPS] left, raised
    by the integer part of [newMaxRPS * (now - lastRefill) / 1e9] and
    capped at the new capacity, when [newMaxRPS * (now - lastRefill)] is no
    multiple of [1e9]; when it is, it returns that value or the value for
    one token less. *)
Theorem new_rate_credits_the_past (changed now newMaxRPS : Z)
  (newCapacityFactor : Float64.t) (l : ATLimiter) :
  let newCapacity :=
    deriveCapacity oor newMaxRPS (clampFactor newCapacityFactor) in
  let due := (now - lastRefill l) * newMaxRPS / 1000000000 in
  let left := Z.min (tokens l) newCapacity in
  let available :=
    fst (run (Available oor) now
           (snd (run (SetMaxRPS oor newMaxRPS newCapacityFactor) changed l)))
  in
  0 < newMaxRPS ->
  0 <= tokens l -> newCapacity + 1000000 < 2 ^ 64 ->
  lastRefill l < now ->
  due <= 1000000 ->
  Z.min (left + due - 1) newCapacity <= available
    <= Z.min (left + due) newCapacity /\
  (((now - lastRefill l) * newMaxRPS) mod 1000000000 <> 0 ->
   available = Z.min (left + due) newCapacity).
Proof.
  intros newCapacity due left available HR Ht Hcap Hnow Hk.
  unfold available. rewrite run_SetMaxRPS. cbv zeta. fold newCapacity.
  cbn [snd].
  set (l1 := {| maxRPS := newMaxRPS; capacity := newCapacity;
                tokens := if newCapacity <? tokens l then newCapacity
                          else tokens l;
                lastRefill := lastRefill l |}).
  assert (Etok : tokens l1 = left).
  { unfold left. cbn [l1 tokens].
    destruct (Z.ltb_spec newCapacity (tokens l)); lia. }
  pose proof (deriveCapacity_lower oor newMaxRPS (clampFactor newCapacityFactor))
    as [Hc1 _]. fold newCapacity in Hc1.
  pose proof (newTokensFor_is_floor oor newMaxRPS (now - lastRefill l)
                ltac:(lia) HR Hk) as Hfl.
  cbv zeta in Hfl. fold due in Hfl.
  assert (Hd : 0 < now - lastRefill l1 < 2 ^ 63).
  { cbn [l1 lastRefill]. split; [lia|].
    pose proof (Z.div_mod ((now - lastRefill l) * newMaxRPS) 1000000000
                  ltac:(lia)) as Hdm.
    pose proof (Z.mod_pos_bound ((now - lastRefill l) * newMaxRPS) 1000000000
                  ltac:(lia)) as Hmod.
    fold due in Hdm. nia. }
  pose proof (tokensDue_after oor now l1 Hd) as Hdue.
  cbn [l1 maxRPS lastRefill] in Hdue. fold l1 in Hdue. rewrite <- Hdue in Hfl.
  destruct Hfl as (Hrange & Ht0 & Hexact).
  rewrite run_Available. cbn [fst].
  assert (Hleft : 0 <= left <= newCapacity) by (unfold left; lia).
  destruct (refilled_tokens_after oor now l1 Hd) as [-> _];
    [ rewrite Etok; cbn [l1 capacity]; exact Hleft | exact Ht0
    | rewrite Etok; lia | ].
  rewrite Etok. cbn [l1 capacity]. split; [lia|].
  intros Hr. rewrite (Hexact Hr). reflexivity.
Qed.

End RateChange.

Lemma new_rate_credits_the_past_witness :
  let oor := fun _ : Float64.t => 0 in
  let l := {| maxRPS := 10; capacity := 20; tokens := 3; lastRefill := 0 |} in
  let newCapacity := deriveCapacity oor 4 (clampFactor Float64.one_and_half) in
  let due := (550000000 - lastRefill l) * 4 / 1000000000 in
  let left := Z.min (tokens l) newCapacity in
  let available :=
    fst (run (Available oor) 550000000
           (snd (run (SetMaxRPS oor 4 Float64.one_and_half) 500000000 l)))
  in
  Z.min (left + due - 1) newCapacity <= available
    <= Z.min (left + due) newCapacity /\
  (((550000000 - lastRefill l) * 4) mod 1000000000 <> 0 ->
   available = Z.min (left + due) newCapacity).
Proof.
  apply (new_rate_credits_the_past (fun _ => 0) 500000000 550000000 4
           Float64.one_and_half
           {| maxRPS := 10; capacity := 20; tokens := 3; lastRefill := 0 |}).
  - lia.
  - simpl. lia.
  - vm_compute. reflexivity.
  - simpl. lia.
  - vm_compute. discriminate.
Defined.
